(** * Request-handling core of the HTTP front end: jobs, scheduler threads,
      the work monitor and the debug helper handler.

    The development follows the C++ sources method by method.  Objects are
    identified by their address, a C++ pointer is an address or [nullptr],
    calls into collaborators that are not part of the modelled classes
    are recorded as events of a trace, and a failing [TRI_ASSERT] ends the
    method with [AssertionFailed]. *)

From Stdlib Require Import ZArith List Bool String Floats.
From stdpp Require Import base option list relations gmap strings.
Import ListNotations.

(** ** Pointers and results shared by all classes *)

Definition addr := nat.

(** [None] is [nullptr]. *)
Definition pointer := option addr.

Definition is_null (p : pointer) : bool :=
  match p with
  | None => true
  | Some _ => false
  end.

(** Identity of a thrown exception object. *)
Definition exn := nat.

Inductive result (A : Type) : Type :=
| Ok (a : A)
| AssertionFailed
| NullDereference.

Arguments Ok {A} a.
Arguments AssertionFailed {A}.
Arguments NullDereference {A}.

Definition bind_result {A B} (r : result A) (k : A -> result B) : result B :=
  match r with
  | Ok a => k a
  | AssertionFailed => AssertionFailed
  | NullDereference => NullDereference
  end.

(** ** HttpServerJob (arangod/HttpServer/HttpServerJob.cpp) *)

Module HttpServerJob.

Inductive HandlerStatus := HANDLER_DONE | HANDLER_REQUEUE | HANDLER_FAILED.
Inductive JobStatus := JOB_DONE | JOB_REQUEUE | JOB_FAILED.

(** The member variables of the job.  [_refCount] is a counter whose
    declaration (HttpServerJob.h) is not among the sources; the counts a
    constructed job can hold lie in 0..2, where every integer width agrees
    with [Z]. *)
Record Job := mkJob {
  _server : pointer;
  _handler : pointer;
  _task : pointer;
  _refCount : Z;
  _isInCleanup : bool;
  _isDetached : bool
}.

Definition set_handler (p : pointer) (j : Job) : Job :=
  mkJob (_server j) p (_task j) (_refCount j) (_isInCleanup j) (_isDetached j).
Definition set_task (p : pointer) (j : Job) : Job :=
  mkJob (_server j) (_handler j) p (_refCount j) (_isInCleanup j) (_isDetached j).
Definition set_refCount (n : Z) (j : Job) : Job :=
  mkJob (_server j) (_handler j) (_task j) n (_isInCleanup j) (_isDetached j).
Definition set_isInCleanup (b : bool) (j : Job) : Job :=
  mkJob (_server j) (_handler j) (_task j) (_refCount j) b (_isDetached j).

(** Calls that leave the job object. *)
Inductive Event :=
| EFinishAsyncJob                        (* _server->jobManager()->finishAsyncJob(this) *)
| ESetHandler (task : addr) (h : pointer) (* _task->setHandler(_handler) *)
| ESignal (task : addr)                  (* _task->signal() *)
| ERemoveJob                             (* queue->removeJob(this) *)
| EDeleteThis                            (* delete this *)
| EReleaseHandler (h : addr)             (* WorkMonitor::releaseHandler(_handler) *)
| EPushHandler (h : addr)                (* HandlerWorkStack constructor *)
| EPopHandler (h : addr)                 (* HandlerWorkStack destructor, destroy = false *)
| ETransfer (h : addr)                   (* RequestStatisticsAgent::transfer *)
| ESetRequestStart (h : addr)
| EPrepareExecute (h : addr)
| EExecute (h : addr)
| EFinalizeExecute (h : addr)
| ESetRequestEnd (h : addr)
| ECancel (h : addr)
| ESetDispatcherThread (h : addr)
| EHandleError (h : addr)
| EQueue (h : addr)
| EUsleep.

#[export] Instance Event_eq_dec : EqDecision Event.
Proof. solve_decision. Defined.

(** *** Constructor and destructor *)

Definition HttpServerJob (server handler task : pointer) : result Job :=
  let j := mkJob server handler task
                 (if is_null task then 1 else 2)%Z
                 false
                 (is_null task) in
  if is_null (_server j) then AssertionFailed
  else if is_null (_handler j) then AssertionFailed
  else Ok j.

Definition destructor (j : Job) : list Event :=
  match _handler j with
  | Some h => [EReleaseHandler h]
  | None => []
  end.

Definition isDetached (j : Job) : bool := _isDetached j.

(** *** work *)

(** What the handler does when its three phases are called: the handler
    classes are outside the job, so their behaviour is an input. *)
Record HandlerBehaviour := {
  prepare_throws : option exn;
  execute_result : HandlerStatus + exn;
  finalize_throws : option exn
}.

Inductive WorkResult :=
| WorkReturns (s : JobStatus)
| WorkThrows (e : exn)
| WorkAssertionFailed.

Section Work.
(** [HttpHandler::status_t::jobStatus], declared in HttpHandler.h. *)
Variable jobStatus : HandlerStatus -> JobStatus.

Definition work (j : Job) (hb : HandlerBehaviour) : list Event * WorkResult :=
  match _handler j with
  | None => ([], WorkAssertionFailed)
  | Some h =>
      (* HandlerWorkStack work(_handler, false); its destructor pops the
         handler whenever the scope is left *)
      let entered := [EPushHandler h; ETransfer h] in
      if negb (isDetached j) && is_null (_task j) then
        (entered ++ [EPopHandler h], WorkReturns JOB_DONE)
      else
        let prepared := entered ++ [ESetRequestStart h; EPrepareExecute h] in
        match prepare_throws hb with
        | Some e => (prepared ++ [EPopHandler h], WorkThrows e)
        | None =>
            match execute_result hb with
            | inr e =>
                (* catch (...) { _handler->finalizeExecute(); throw; } *)
                (prepared ++ [EExecute h; EFinalizeExecute h; EPopHandler h],
                 WorkThrows (match finalize_throws hb with
                             | Some e' => e'
                             | None => e
                             end))
            | inl status =>
                match finalize_throws hb with
                | Some e' =>
                    (prepared ++ [EExecute h; EFinalizeExecute h; EPopHandler h],
                     WorkThrows e')
                | None =>
                    (prepared ++ [EExecute h; EFinalizeExecute h;
                                  ESetRequestEnd h; EPopHandler h],
                     WorkReturns (jobStatus status))
                end
            end
        end
  end.
End Work.

(** *** cleanup and beginShutdown, each run without interference *)

Record Outcome := mkOutcome {
  job_after : Job;
  deleted : bool;
  events : list Event
}.

(** [if (--_refCount == 0) { delete this; }] *)
Definition release_reference (j : Job) (before : list Event) : Outcome :=
  let j' := set_refCount (_refCount j - 1)%Z j in
  if (_refCount j' =? 0)%Z
  then mkOutcome j' true (before ++ EDeleteThis :: destructor j')
  else mkOutcome j' false before.

Definition cleanup (j : Job) : Outcome :=
  if isDetached j then
    release_reference j [EFinishAsyncJob; ERemoveJob]
  else
    let j1 := set_isInCleanup true j in
    match _task j1 with
    | Some t =>
        let j2 := set_handler None j1 in
        let j3 := set_isInCleanup false j2 in
        release_reference j3 [ESetHandler t (_handler j1); ESignal t; ERemoveJob]
    | None =>
        let j3 := set_isInCleanup false j1 in
        release_reference j3 [ERemoveJob]
    end.

(** The waiting loop of [beginShutdown] only ends when another thread
    clears the flag; run alone on a job whose flag is set it sleeps
    forever. *)
Inductive ShutdownOutcome :=
| ShutdownReturns (o : Outcome)
| ShutdownSpins.

Definition beginShutdown (j : Job) : ShutdownOutcome :=
  if _isInCleanup j then ShutdownSpins
  else ShutdownReturns (release_reference (set_task None j) []).

(** The remaining methods forward to the handler and leave the members of
    the job as they are. *)
Definition queue (j : Job) : result (list Event) :=
  match _handler j with
  | Some h => Ok [EQueue h]
  | None => NullDereference
  end.

Definition setDispatcherThread (j : Job) : result (list Event) :=
  match _handler j with
  | Some h => Ok [ESetDispatcherThread h]
  | None => NullDereference
  end.

Definition cancel (j : Job) : result (list Event) :=
  match _handler j with
  | Some h => Ok [ECancel h]
  | None => NullDereference
  end.

Definition handleError (j : Job) : result (list Event) :=
  match _handler j with
  | Some h => Ok [EHandleError h]
  | None => NullDereference
  end.

(** The methods of a job, and the members of the job after a call.  A method
    that does not write a member leaves the job as it is; so does
    [beginShutdown] while it sleeps. *)
Inductive Method :=
| MQueue
| MSetDispatcherThread
| MWork
| MCancel
| MCleanup
| MBeginShutdown
| MHandleError
| MIsDetached.

Definition call (m : Method) (j : Job) : Job :=
  match m with
  | MCleanup => job_after (cleanup j)
  | MBeginShutdown =>
      match beginShutdown j with
      | ShutdownReturns o => job_after o
      | ShutdownSpins => j
      end
  | MQueue | MSetDispatcherThread | MWork | MCancel | MHandleError
  | MIsDetached => j
  end.

Definition calls (ms : list Method) (j : Job) : Job :=
  fold_left (fun j m => call m j) ms j.

(** *** cleanup on a dispatcher thread and beginShutdown on the scheduler
        thread, statement by statement *)

Inductive CleanupPC :=
| C_entry          (* if (isDetached()) *)
| C_finishAsync    (* _server->jobManager()->finishAsyncJob(this) *)
| C_setFlag        (* _isInCleanup.store(true) *)
| C_testTask       (* if (_task != nullptr) *)
| C_setHandler     (* _task->setHandler(_handler) *)
| C_clearHandler   (* _handler = nullptr *)
| C_signal         (* _task->signal() *)
| C_clearFlag      (* _isInCleanup.store(false, std::memory_order_relaxed) *)
| C_removeJob      (* queue->removeJob(this) *)
| C_release        (* if (--_refCount == 0) delete this *)
| C_returned
| C_nullTask       (* called a method through a null _task *)
| C_freed.         (* touched the job after it was deleted *)

Inductive ShutdownPC :=
| S_wait           (* while (_isInCleanup.load()) usleep(1000) *)
| S_clearTask      (* _task = nullptr *)
| S_release        (* if (--_refCount == 0) delete this *)
| S_returned
| S_freed
| S_never.         (* a detached job has no CommTask that could call it *)

#[export] Instance CleanupPC_eq_dec : EqDecision CleanupPC.
Proof. solve_decision. Defined.
#[export] Instance ShutdownPC_eq_dec : EqDecision ShutdownPC.
Proof. solve_decision. Defined.

Record System := mkSystem {
  job : Job;
  cpc : CleanupPC;
  spc : ShutdownPC;
  trace : list Event;
  freed : bool
}.

Definition with_job (f : Job -> Job) (s : System) : System :=
  mkSystem (f (job s)) (cpc s) (spc s) (trace s) (freed s).
Definition at_cpc (pc : CleanupPC) (s : System) : System :=
  mkSystem (job s) pc (spc s) (trace s) (freed s).
Definition at_spc (pc : ShutdownPC) (s : System) : System :=
  mkSystem (job s) (cpc s) pc (trace s) (freed s).
Definition emit (e : list Event) (s : System) : System :=
  mkSystem (job s) (cpc s) (spc s) (trace s ++ e) (freed s).

(** The atomic decrement and the test of its result are one step; the
    delete that follows a zero runs the destructor. *)
Definition release_step (s : System) : System :=
  let s1 := with_job (fun j => set_refCount (_refCount j - 1)%Z j) s in
  if (_refCount (job s1) =? 0)%Z
  then mkSystem (job s1) (cpc s1) (spc s1)
                (trace s1 ++ EDeleteThis :: destructor (job s1)) true
  else s1.

Definition cleanup_step (s : System) : option System :=
  match cpc s with
  | C_returned | C_nullTask | C_freed => None
  | pc =>
      if freed s then Some (at_cpc C_freed s)
      else
        match pc with
        | C_entry =>
            Some (at_cpc (if isDetached (job s) then C_finishAsync else C_setFlag) s)
        | C_finishAsync =>
            Some (at_cpc C_removeJob (emit [EFinishAsyncJob] s))
        | C_setFlag =>
            Some (at_cpc C_testTask (with_job (set_isInCleanup true) s))
        | C_testTask =>
            Some (at_cpc (if is_null (_task (job s)) then C_clearFlag else C_setHandler) s)
        | C_setHandler =>
            match _task (job s) with
            | Some t => Some (at_cpc C_clearHandler (emit [ESetHandler t (_handler (job s))] s))
            | None => Some (at_cpc C_nullTask s)
            end
        | C_clearHandler =>
            Some (at_cpc C_signal (with_job (set_handler None) s))
        | C_signal =>
            match _task (job s) with
            | Some t => Some (at_cpc C_clearFlag (emit [ESignal t] s))
            | None => Some (at_cpc C_nullTask s)
            end
        | C_clearFlag =>
            Some (at_cpc C_removeJob (with_job (set_isInCleanup false) s))
        | C_removeJob =>
            Some (at_cpc C_release (emit [ERemoveJob] s))
        | C_release =>
            Some (at_cpc C_returned (release_step s))
        | C_returned | C_nullTask | C_freed => None
        end
  end.

Definition shutdown_step (s : System) : option System :=
  match spc s with
  | S_returned | S_freed | S_never => None
  | pc =>
      if freed s then Some (at_spc S_freed s)
      else
        match pc with
        | S_wait =>
            if _isInCleanup (job s) then Some (emit [EUsleep] s)
            else Some (at_spc S_clearTask s)
        | S_clearTask =>
            Some (at_spc S_release (with_job (set_task None) s))
        | S_release =>
            Some (at_spc S_returned (release_step s))
        | S_returned | S_freed | S_never => None
        end
  end.

Inductive Thread := Dispatcher | Scheduler.

Definition thread_step (t : Thread) (s : System) : option System :=
  match t with
  | Dispatcher => cleanup_step s
  | Scheduler => shutdown_step s
  end.

(** One step of either thread. *)
Definition step (s s' : System) : Prop :=
  exists t, thread_step t s = Some s'.

(** The steps of a schedule, one thread after the other. *)
Fixpoint run (schedule : list Thread) (s : System) : option System :=
  match schedule with
  | [] => Some s
  | t :: rest =>
      match thread_step t s with
      | Some s' => run rest s'
      | None => None
      end
  end.

(** A job as the constructor leaves it, with [cleanup] about to be called by
    the dispatcher thread.  Only a job that was given a task has a CommTask
    that can call [beginShutdown]. *)
Definition start (j : Job) : System :=
  mkSystem j C_entry (if isDetached j then S_never else S_wait) [] false.

(** *** The state of the reference count along a run *)

(** How many of the two calls have given up their reference. *)
Definition released (s : System) : Z :=
  ((if decide (cpc s = C_returned) then 1 else 0) +
   (if decide (spc s = S_returned) then 1 else 0))%Z.

Definition counted (j : Job) (s : System) : Prop :=
  _refCount (job s) = (_refCount j - released s)%Z /\
  (freed s = true <-> _refCount (job s) = 0%Z) /\
  cpc s <> C_freed /\
  spc s <> S_freed /\
  _isDetached (job s) = _isDetached j /\
  (_isDetached j = true -> spc s = S_never) /\
  (_isDetached j = false -> spc s <> S_never).

End HttpServerJob.

(** ** SchedulerThread (Scheduler/SchedulerThread.cpp) *)

Module SchedulerThread.

(** The kind of a queued command ([SchedulerThread::work_e]). *)
Inductive work_e := INVALID | CLEANUP | SETUP | DESTROY.

Record Work := mkWork {
  work : work_e;
  scheduler : pointer;
  task : pointer
}.

Definition EventLoop := nat.

Record SchedulerThread := mkThread {
  _scheduler : pointer;
  _defaultLoop : bool;
  _loop : EventLoop;
  _stopping : bool;
  _stopped : bool;
  _open : bool;
  _hasWork : bool;
  _queue : list Work;
  _numberTasks : Z;
  threadId : nat
}.

Definition set_stopping (b : bool) (t : SchedulerThread) : SchedulerThread :=
  mkThread (_scheduler t) (_defaultLoop t) (_loop t) b (_stopped t) (_open t)
           (_hasWork t) (_queue t) (_numberTasks t) (threadId t).
Definition set_stopped (b : bool) (t : SchedulerThread) : SchedulerThread :=
  mkThread (_scheduler t) (_defaultLoop t) (_loop t) (_stopping t) b (_open t)
           (_hasWork t) (_queue t) (_numberTasks t) (threadId t).
Definition set_open (b : bool) (t : SchedulerThread) : SchedulerThread :=
  mkThread (_scheduler t) (_defaultLoop t) (_loop t) (_stopping t) (_stopped t) b
           (_hasWork t) (_queue t) (_numberTasks t) (threadId t).
Definition set_hasWork (b : bool) (t : SchedulerThread) : SchedulerThread :=
  mkThread (_scheduler t) (_defaultLoop t) (_loop t) (_stopping t) (_stopped t)
           (_open t) b (_queue t) (_numberTasks t) (threadId t).
Definition set_queue (q : list Work) (t : SchedulerThread) : SchedulerThread :=
  mkThread (_scheduler t) (_defaultLoop t) (_loop t) (_stopping t) (_stopped t)
           (_open t) (_hasWork t) q (_numberTasks t) (threadId t).
Definition set_numberTasks (n : Z) (t : SchedulerThread) : SchedulerThread :=
  mkThread (_scheduler t) (_defaultLoop t) (_loop t) (_stopping t) (_stopped t)
           (_open t) (_hasWork t) (_queue t) n (threadId t).

Inductive Event :=
| ESetupTask (task scheduler : pointer) (loop : EventLoop)
| ECleanupTask (task : pointer)
| EDeleteTask (task : pointer)
| EWakeupLoop (scheduler : pointer) (loop : EventLoop)
| EEventLoop (scheduler : pointer) (loop : EventLoop)
| ELock                     (* SCHEDULER_LOCKER(_queueLock) *)
| EPushBack (w : Work)      (* _queue.push_back(w) *)
| EPopFront (w : Work)      (* w = _queue.front(); _queue.pop_front() *)
| EUnlock                   (* end of the locker's scope *)
| ELogWarning (msg : string)
| ELogError (msg : string)
| ESigmask
| EUsleep.

(** The constructor. *)
Definition SchedulerThread_new (sched : pointer) (loop : EventLoop)
    (defaultLoop : bool) (tid : nat) : SchedulerThread :=
  mkThread sched defaultLoop loop false false false false [] 0%Z tid.

Definition open (t : SchedulerThread) : SchedulerThread * bool :=
  (set_open true t, true).

Definition beginShutdown (t : SchedulerThread) : SchedulerThread * list Event :=
  (set_stopping true t, [EWakeupLoop (_scheduler t) (_loop t)]).

Section Methods.

(** The result of [setupTask] is the task's own answer. *)
Variable setupTask : pointer -> pointer -> EventLoop -> bool.

(** Whether the build defines [TRI_HAVE_POSIX_THREADS]. *)
Variable TRI_HAVE_POSIX_THREADS : bool.

Record Registered := mkRegistered {
  thread_after : SchedulerThread;
  reg_events : list Event;
  returned : bool
}.

(** [currentThreadId] is the id of the calling thread. *)
Definition registerTask (t : SchedulerThread) (currentThreadId : nat)
    (sched tsk : pointer) : result Registered :=
  if _stopped t then Ok (mkRegistered t [] false)
  else if is_null sched then AssertionFailed
  else if is_null tsk then AssertionFailed
  else if Nat.eqb (threadId t) currentThreadId then
    let ok := setupTask tsk sched (_loop t) in
    if ok then
      Ok (mkRegistered (set_numberTasks (_numberTasks t + 1)%Z t)
                       [ESetupTask tsk sched (_loop t)] ok)
    else
      Ok (mkRegistered t
            [ESetupTask tsk sched (_loop t);
             ELogWarning "In SchedulerThread::registerTask setupTask has failed";
             ECleanupTask tsk; EDeleteTask tsk] ok)
  else
    let w := mkWork SETUP sched tsk in
    Ok (mkRegistered (set_hasWork true (set_queue (_queue t ++ [w]) t))
                     [ELock; EPushBack w; EWakeupLoop sched (_loop t); EUnlock]
                     true).

Definition unregisterTask (t : SchedulerThread) (currentThreadId : nat)
    (tsk : pointer) : SchedulerThread * list Event :=
  if _stopped t then (t, [])
  else if Nat.eqb (threadId t) currentThreadId then
    (set_numberTasks (_numberTasks t - 1)%Z t, [ECleanupTask tsk])
  else
    let w := mkWork CLEANUP None tsk in
    (set_hasWork true (set_queue (_queue t ++ [w]) t),
     [ELock; EPushBack w; EWakeupLoop (_scheduler t) (_loop t); EUnlock]).

Definition destroyTask (t : SchedulerThread) (currentThreadId : nat)
    (tsk : pointer) : SchedulerThread * list Event :=
  if _stopped t then (t, [EDeleteTask tsk])
  else if Nat.eqb (threadId t) currentThreadId then
    (set_numberTasks (_numberTasks t - 1)%Z t, [ECleanupTask tsk; EDeleteTask tsk])
  else
    let w := mkWork DESTROY None tsk in
    (set_hasWork true (set_queue (_queue t ++ [w]) t),
     [ELock; EPushBack w; EWakeupLoop (_scheduler t) (_loop t); EUnlock]).

(** *** run *)

(** The [switch (w.work)] of the command loop. *)
Definition execute_work (w : Work) (t : SchedulerThread)
    : SchedulerThread * list Event :=
  match work w with
  | CLEANUP =>
      (set_numberTasks (_numberTasks t - 1)%Z t, [ECleanupTask (task w)])
  | SETUP =>
      if setupTask (task w) (scheduler w) (_loop t) then
        (set_numberTasks (_numberTasks t + 1)%Z t,
         [ESetupTask (task w) (scheduler w) (_loop t)])
      else
        (t, [ESetupTask (task w) (scheduler w) (_loop t);
             ECleanupTask (task w); EDeleteTask (task w)])
  | DESTROY =>
      (set_numberTasks (_numberTasks t - 1)%Z t,
       [ECleanupTask (task w); EDeleteTask (task w)])
  | INVALID =>
      (t, [ELogError "logic error. got invalid Work item"])
  end.

(** The inner [while (true)] with the queue [q] still to be taken: each
    round locks, leaves when the queue is empty, and runs the front command
    after the lock is released.  No command touches the queue. *)
Fixpoint drain (q : list Work) (t : SchedulerThread)
    : SchedulerThread * list Event :=
  match q with
  | [] => (set_queue [] t, [ELock; EUnlock])
  | w :: rest =>
      let '(t1, ev1) := execute_work w (set_queue rest t) in
      let '(t2, ev2) := drain rest t1 in
      (t2, ELock :: EPopFront w :: EUnlock :: ev1 ++ ev2)
  end.

Definition drain_commands (t : SchedulerThread) : SchedulerThread * list Event :=
  if _hasWork t then drain (_queue t) t else (t, [ELock; EUnlock]).

(** After the loop: [_stopped = true], and what is still queued is dropped;
    only a DESTROY still deletes its task. *)
Definition discard_work (w : Work) : list Event :=
  match work w with
  | CLEANUP => []
  | SETUP => []
  | DESTROY => [EDeleteTask (task w)]
  | INVALID => [ELogError "logic error. got invalid Work item"]
  end.

Fixpoint discard (q : list Work) : list Event :=
  match q with
  | [] => [ELock; EUnlock]
  | w :: rest => ELock :: EPopFront w :: EUnlock :: discard_work w ++ discard rest
  end.

Definition stop (t : SchedulerThread) : SchedulerThread * list Event :=
  let t1 := set_stopped true t in
  (set_queue [] t1, discard (_queue t1)).

(** What happens around one call of [_scheduler->eventLoop(_loop)]: the poll
    returns or throws, and meanwhile other threads may have called
    [beginShutdown] and may have queued commands.  A round has the calls
    that reach the thread while it polls; calls at any other statement of
    [run] are followed in [SchedulerThreadSteps]. *)
Inductive PollOutcome :=
| PollReturns
| PollThrows (e : exn).

Record Round := mkRound {
  poll : PollOutcome;
  shutdown_requested : bool;
  arrivals : list Work
}.

Definition during_poll (r : Round) (t : SchedulerThread) : SchedulerThread :=
  let t1 := if shutdown_requested r then set_stopping true t else t in
  match arrivals r with
  | [] => t1
  | ws => set_hasWork true (set_queue (_queue t1 ++ ws) t1)
  end.

Inductive RunResult :=
| Returned (t : SchedulerThread) (ev : list Event)
| Propagated (e : exn) (t : SchedulerThread) (ev : list Event)
| Polling (t : SchedulerThread) (ev : list Event)
| WaitingForOpen (t : SchedulerThread) (ev : list Event).

Definition prepend (ev : list Event) (r : RunResult) : RunResult :=
  match r with
  | Returned t ev' => Returned t (ev ++ ev')
  | Propagated e t ev' => Propagated e t (ev ++ ev')
  | Polling t ev' => Polling t (ev ++ ev')
  | WaitingForOpen t ev' => WaitingForOpen t (ev ++ ev')
  end.

(** What one pass through the body of [while (! _stopping.load())] leaves
    behind: either the exception goes on, or the pass ends at the bottom of
    the loop body. *)
Inductive PassResult :=
| PassDone (t : SchedulerThread) (ev : list Event)
| PassThrows (e : exn) (t : SchedulerThread) (ev : list Event).

Definition pass (r : Round) (t : SchedulerThread) : PassResult :=
  let t1 := during_poll r t in
  let polled := [EEventLoop (_scheduler t) (_loop t)] in
  match poll r with
  | PollThrows e =>
      if TRI_HAVE_POSIX_THREADS && _stopping t1 then
        PassThrows e t1
          (polled ++ [ELogWarning "caught cancelation exception during work"])
      else
        let '(t2, ev) := drain_commands t1 in
        PassDone t2 (polled ++ ELogWarning "caught exception from ev_loop" :: ev)
  | PollReturns =>
      let '(t2, ev) := drain_commands t1 in
      PassDone t2 (polled ++ ev)
  end.

(** The main loop over the rounds the environment provides; when they are
    used up the thread sits in the next poll. *)
Fixpoint loop (rounds : list Round) (t : SchedulerThread) : RunResult :=
  if _stopping t then
    let '(t', ev) := stop t in Returned t' ev
  else
    match rounds with
    | [] => Polling t []
    | r :: rest =>
        match pass r t with
        | PassThrows e t' ev => Propagated e t' ev
        | PassDone t' ev => prepend ev (loop rest t')
        end
    end.

Definition run (rounds : list Round) (t : SchedulerThread) : RunResult :=
  let started :=
    if _defaultLoop t && TRI_HAVE_POSIX_THREADS then [ESigmask] else [] in
  if negb (_stopping t) && negb (_open t) then WaitingForOpen t (started ++ [EUsleep])
  else prepend started (loop rounds t).

End Methods.

End SchedulerThread.

(** ** WorkMonitor (lib/Basics/WorkMonitor.cpp, WorkMonitorArangod.cpp) *)

Module WorkMonitor.

Inductive WorkType := THREAD | HANDLER.

(** [_data] is a union of the thread pointer and the handler pointer: one
    stored address, read through whichever member the code names. *)
Record WorkDescription := mkDesc {
  _type : WorkType;
  _destroy : bool;
  _prev : pointer;
  _data : pointer
}.

Definition set_destroy (b : bool) (d : WorkDescription) : WorkDescription :=
  mkDesc (_type d) b (_prev d) (_data d).
Definition set_data (p : pointer) (d : WorkDescription) : WorkDescription :=
  mkDesc (_type d) (_destroy d) (_prev d) p.

(** The memory the monitor works on, as one thread sees it: the allocated
    descriptions by address, the [_workDescription] member of each Thread
    object, the thread-local [CURRENT_THREAD], the set [THREADS] and the two
    queues (front of the queue first). *)
Record State := mkState {
  descriptions : gmap addr WorkDescription;
  threads : gmap addr pointer;
  CURRENT_THREAD : pointer;
  THREADS : gset addr;
  EMPTY_WORK_DESCRIPTION : list addr;
  FREEABLE_WORK_DESCRIPTION : list addr
}.

Definition set_descriptions (m : gmap addr WorkDescription) (s : State) : State :=
  mkState m (threads s) (CURRENT_THREAD s) (THREADS s)
          (EMPTY_WORK_DESCRIPTION s) (FREEABLE_WORK_DESCRIPTION s).
Definition set_threads (m : gmap addr pointer) (s : State) : State :=
  mkState (descriptions s) m (CURRENT_THREAD s) (THREADS s)
          (EMPTY_WORK_DESCRIPTION s) (FREEABLE_WORK_DESCRIPTION s).
Definition set_CURRENT_THREAD (p : pointer) (s : State) : State :=
  mkState (descriptions s) (threads s) p (THREADS s)
          (EMPTY_WORK_DESCRIPTION s) (FREEABLE_WORK_DESCRIPTION s).
Definition set_THREADS (ts : gset addr) (s : State) : State :=
  mkState (descriptions s) (threads s) (CURRENT_THREAD s) ts
          (EMPTY_WORK_DESCRIPTION s) (FREEABLE_WORK_DESCRIPTION s).
Definition set_EMPTY (q : list addr) (s : State) : State :=
  mkState (descriptions s) (threads s) (CURRENT_THREAD s) (THREADS s)
          q (FREEABLE_WORK_DESCRIPTION s).
Definition set_FREEABLE (q : list addr) (s : State) : State :=
  mkState (descriptions s) (threads s) (CURRENT_THREAD s) (THREADS s)
          (EMPTY_WORK_DESCRIPTION s) q.

(** [DELETE_HANDLER]: the deleter of WorkItem is applied to
    [desc->_data.handler]. *)
Inductive Event :=
| EDeleteHandler (h : pointer).

#[export] Instance Event_eq_dec : EqDecision Event.
Proof. solve_decision. Defined.

(** *** The accessors of Thread (Basics/Thread.h) *)

(** [CURRENT_THREAD->workDescription()] *)
Definition workDescription (s : State) : result pointer :=
  match CURRENT_THREAD s with
  | None => NullDereference
  | Some t =>
      match threads s !! t with
      | None => NullDereference
      | Some d => Ok d
      end
  end.

(** [CURRENT_THREAD->setWorkDescription(desc)] *)
Definition setWorkDescription (desc : pointer) (s : State) : result State :=
  match CURRENT_THREAD s with
  | None => NullDereference
  | Some t =>
      match threads s !! t with
      | None => NullDereference
      | Some _ => Ok (set_threads (<[t := desc]> (threads s)) s)
      end
  end.

(** Modelled from the spec: [Thread::setPrevWorkDescription] belongs to
    Basics/Thread.h and Thread.cpp, which are not among the sources.  The
    descriptions of a thread form a linked stack through [_prev], and
    deactivating takes the top off: the thread's description becomes the
    [_prev] of the one it had, and the one it had is returned.  With no
    description there is nothing to take off and null is returned. *)
Definition setPrevWorkDescription (s : State) : result (pointer * State) :=
  match CURRENT_THREAD s with
  | None => NullDereference
  | Some t =>
      match threads s !! t with
      | None => NullDereference
      | Some None => Ok (None, s)
      | Some (Some d) =>
          match descriptions s !! d with
          | None => NullDereference
          | Some desc =>
              Ok (Some d, set_threads (<[t := _prev desc]> (threads s)) s)
          end
      end
  end.

(** *** The static methods of WorkMonitor *)

(** A description comes from the queue of empty ones when there is one, and
    from [new] otherwise; a new one has an address no description has. *)
Definition createWorkDescription (type : WorkType) (s : State)
    : result (addr * State) :=
  match EMPTY_WORK_DESCRIPTION s with
  | d :: rest =>
      match descriptions s !! d with
      | None => NullDereference
      | Some old =>
          bind_result (workDescription s) (fun cur =>
            Ok (d, set_descriptions
                     (<[d := mkDesc type true cur (_data old)]> (descriptions s))
                     (set_EMPTY rest s)))
      end
  | [] =>
      bind_result (workDescription s) (fun cur =>
        let d := fresh (dom (descriptions s)) in
        Ok (d, set_descriptions
                 (<[d := mkDesc type true cur None]> (descriptions s)) s))
  end.

Definition activateWorkDescription (desc : addr) (s : State) : result State :=
  setWorkDescription (Some desc) s.

Definition deactivateWorkDescription (s : State) : result (pointer * State) :=
  setPrevWorkDescription s.

Definition freeWorkDescription (desc : addr) (s : State) : State :=
  set_FREEABLE (FREEABLE_WORK_DESCRIPTION s ++ [desc]) s.

(** Writes through [desc->]. *)
Definition write_desc (d : addr) (f : WorkDescription -> WorkDescription)
    (s : State) : result State :=
  match descriptions s !! d with
  | None => NullDereference
  | Some desc => Ok (set_descriptions (<[d := f desc]> (descriptions s)) s)
  end.

Definition pushThread (thread : addr) (s : State) : result State :=
  let s0 := set_CURRENT_THREAD (Some thread) s in
  bind_result (createWorkDescription THREAD s0) (fun '(desc, s1) =>
  bind_result (write_desc desc (set_data (Some thread)) s1) (fun s2 =>
  bind_result (activateWorkDescription desc s2) (fun s3 =>
  Ok (set_THREADS ({[thread]} ∪ THREADS s3) s3)))).

Definition popThread (thread : addr) (s : State) : result State :=
  bind_result (deactivateWorkDescription s) (fun '(p, s1) =>
  match p with
  | None => NullDereference
  | Some desc =>
      match descriptions s1 !! desc with
      | None => NullDereference
      | Some d =>
          match _type d with
          | HANDLER => AssertionFailed
          | THREAD =>
              if decide (_data d = Some thread) then
                let s2 := freeWorkDescription desc s1 in
                Ok (set_THREADS (THREADS s2 ∖ {[thread]}) s2)
              else AssertionFailed
          end
      end
  end).

Definition pushHandler (handler : pointer) (s : State) : result State :=
  bind_result (createWorkDescription HANDLER s) (fun '(desc, s1) =>
  bind_result (write_desc desc (set_data handler) s1) (fun s2 =>
  activateWorkDescription desc s2)).

Definition popHandler (handler : pointer) (s : State) : result State :=
  bind_result (deactivateWorkDescription s) (fun '(p, s1) =>
  match p with
  | None => AssertionFailed
  | Some desc =>
      match descriptions s1 !! desc with
      | None => NullDereference
      | Some d =>
          if decide (_data d = handler) then
            bind_result (write_desc desc (set_destroy false) s1) (fun s2 =>
            Ok (freeWorkDescription desc s2))
          else AssertionFailed
      end
  end).

Definition destroyHandler (handler : pointer) (s : State) : result State :=
  bind_result (deactivateWorkDescription s) (fun '(p, s1) =>
  match p with
  | None => AssertionFailed
  | Some desc =>
      match descriptions s1 !! desc with
      | None => NullDereference
      | Some d =>
          if decide (_data d = handler) then Ok (freeWorkDescription desc s1)
          else AssertionFailed
      end
  end).

Definition releaseHandler (handler : pointer) (s : State) : result State :=
  bind_result (createWorkDescription HANDLER s) (fun '(desc, s1) =>
  bind_result (write_desc desc (set_data handler) s1) (fun s2 =>
  Ok (freeWorkDescription desc s2))).

(** *** The monitor thread *)

(** What [deleteWorkDescription] deletes for a description. *)
Definition deleted_by (d : WorkDescription) : list Event :=
  if _destroy d then
    match _type d with
    | THREAD => []
    | HANDLER => [EDeleteHandler (_data d)]
    end
  else [].

Definition deleteWorkDescription (desc : addr) (s : State)
    : result (State * list Event) :=
  match descriptions s !! desc with
  | None => NullDereference
  | Some d =>
      Ok (set_EMPTY (EMPTY_WORK_DESCRIPTION s ++ [desc]) s, deleted_by d)
  end.

(** [while (FREEABLE_WORK_DESCRIPTION.pop(desc)) deleteWorkDescription(desc)],
    with [q] what the queue still holds. *)
Fixpoint sweep_from (q : list addr) (s : State) : result (State * list Event) :=
  match q with
  | [] => Ok (set_FREEABLE [] s, [])
  | desc :: rest =>
      bind_result (deleteWorkDescription desc (set_FREEABLE rest s)) (fun '(s1, ev1) =>
      bind_result (sweep_from rest s1) (fun '(s2, ev2) =>
      Ok (s2, ev1 ++ ev2)))
  end.

Definition sweep (s : State) : result (State * list Event) :=
  sweep_from (FREEABLE_WORK_DESCRIPTION s) s.

(** *** The stack of a thread and the states the operations keep *)

(** The descriptions linked through [_prev], from the newest on. *)
Inductive chain (m : gmap addr WorkDescription) : pointer -> list addr -> Prop :=
| chain_nil : chain m None []
| chain_cons d desc rest :
    m !! d = Some desc ->
    chain m (_prev desc) rest ->
    chain m (Some d) (d :: rest).

(** The memory of a thread [t] whose stack is [stk]: every description is in
    one place only (on the stack, in the queue of empty ones or in the queue
    of freeable ones), the queued ones are allocated, and the ones on the
    stack still have their destroy flag. *)
Definition wf_stack (s : State) (t : addr) (stk : list addr) : Prop :=
  CURRENT_THREAD s = Some t /\
  (exists cur, threads s = {[t := cur]} /\ chain (descriptions s) cur stk) /\
  NoDup (stk ++ EMPTY_WORK_DESCRIPTION s ++ FREEABLE_WORK_DESCRIPTION s) /\
  (forall d, d ∈ EMPTY_WORK_DESCRIPTION s ++ FREEABLE_WORK_DESCRIPTION s ->
             is_Some (descriptions s !! d)) /\
  (forall d desc, d ∈ stk -> descriptions s !! d = Some desc ->
                  _destroy desc = true).

Definition wf (s : State) : Prop := exists t stk, wf_stack s t stk.

(** The memory of a thread whose Thread object [t] exists and has no
    description yet, before [pushThread]. *)
Definition boot (t : addr) : State :=
  mkState ∅ {[t := None]} None ∅ [] [].

(** What a thread and the monitor do to this memory once the thread has
    announced itself with [pushThread]. *)
Inductive Operation :=
| PopThread (thread : addr)
| PushHandler (handler : pointer)
| PopHandler (handler : pointer)
| DestroyHandler (handler : pointer)
| ReleaseHandler (handler : pointer)
| Sweep.

Definition perform (op : Operation) (s : State) : result State :=
  match op with
  | PopThread thread => popThread thread s
  | PushHandler h => pushHandler h s
  | PopHandler h => popHandler h s
  | DestroyHandler h => destroyHandler h s
  | ReleaseHandler h => releaseHandler h s
  | Sweep => bind_result (sweep s) (fun r => Ok r.1)
  end.

Inductive reachable (t : addr) : State -> Prop :=
| reachable_pushed s :
    pushThread t (boot t) = Ok s -> reachable t s
| reachable_step s op s' :
    reachable t s -> perform op s = Ok s' -> reachable t s'.

(** What a sweep deletes for the descriptions of a queue. *)
Definition deletions (m : gmap addr WorkDescription) (q : list addr)
    : list Event :=
  flat_map (fun d => match m !! d with
                     | Some desc => deleted_by desc
                     | None => []
                     end) q.

(** Nested scopes of [HandlerWorkStack (handler, false)]: the constructors
    push in the order of the scopes, the destructors pop in the order the
    scopes end. *)
Fixpoint push_all (hs : list pointer) (s : State) : result State :=
  match hs with
  | [] => Ok s
  | h :: rest => bind_result (pushHandler h s) (push_all rest)
  end.

Fixpoint pop_all (hs : list pointer) (s : State) : result State :=
  match hs with
  | [] => Ok s
  | h :: rest => bind_result (popHandler h s) (pop_all rest)
  end.

End WorkMonitor.

(** ** The velocypack Builder (3rdParty/velocypack/include/velocypack/Builder.h) *)

Module VPack.

#[local] Set Warnings "-register-all".

(** A finished value.  [VNone] is what a buffer holds before anything was
    written to it. *)
Inductive Slice :=
| VNone
| VString (s : string)
| VDouble (d : float)
| VBool (b : bool)
| VObject (members : list (string * Slice))
| VArray (items : list Slice).

(** The argument of [add]: a value, or the type of a compound to open. *)
Inductive Value :=
| OfObject            (* Value(ValueType::Object) *)
| OfArray             (* Value(ValueType::Array) *)
| OfString (s : string)
| OfDouble (d : float)
| OfBool (b : bool).

Inductive Exception :=
| BuilderNeedOpenObject
| BuilderNeedOpenArray
| BuilderNeedOpenCompound
| BuilderNotSealed.

(** An open compound on [_stack]: the attribute name it was added under, if
    any, and what was added to it so far. *)
Inductive Frame :=
| ObjectFrame (attr : option string) (members : list (string * Slice))
| ArrayFrame (attr : option string) (items : list Slice).

(** [_stack] with the innermost compound first, and the finished values of
    the buffer in the order they were written. *)
Record Builder := mkBuilder {
  _stack : list Frame;
  written : list Slice
}.

Definition Builder_new : Builder := mkBuilder [] [].

Definition isClosed (b : Builder) : bool :=
  match _stack b with
  | [] => true
  | _ => false
  end.

Definition scalar (v : Value) : option Slice :=
  match v with
  | OfObject | OfArray => None
  | OfString s => Some (VString s)
  | OfDouble d => Some (VDouble d)
  | OfBool b => Some (VBool b)
  end.

(** Modelled from the spec: the body of [set] is in Builder.cpp, which is
    not among the sources.  The debug helper's answer is the JSON object of
    the members it adds, so a compound type opens a compound (as
    [addCompoundValue] in Builder.h does) and anything else becomes the next
    member of the innermost open compound, or the next value of the buffer
    when nothing is open. *)
Definition set (attr : option string) (v : Value) (b : Builder) : Builder :=
  match v with
  | OfObject => mkBuilder (ObjectFrame attr [] :: _stack b) (written b)
  | OfArray => mkBuilder (ArrayFrame attr [] :: _stack b) (written b)
  | _ =>
      let s := default VNone (scalar v) in
      match _stack b, attr with
      | ObjectFrame a ms :: rest, Some k =>
          mkBuilder (ObjectFrame a (ms ++ [(k, s)]) :: rest) (written b)
      | ArrayFrame a items :: rest, _ =>
          mkBuilder (ArrayFrame a (items ++ [s]) :: rest) (written b)
      | ObjectFrame a ms :: rest, None => b
      | [], Some k => mkBuilder [] (written b ++ [VString k; s])
      | [], None => mkBuilder [] (written b ++ [s])
      end
  end.

(** [add (Value const& sub)]: [addInternal] without a name. *)
Definition add (v : Value) (b : Builder) : Exception + Builder :=
  match _stack b with
  | ObjectFrame _ _ :: _ => inl BuilderNeedOpenArray
  | _ => inr (set None v b)
  end.

(** [add (std::string const& attrName, Value const& sub)] *)
Definition add_attr (attrName : string) (v : Value) (b : Builder)
    : Exception + Builder :=
  match _stack b with
  | ArrayFrame _ _ :: _ => inl BuilderNeedOpenObject
  | _ => inr (set (Some attrName) v b)
  end.

(** Modelled from the spec: the body of [close] is in Builder.cpp, which
    is not among the sources; Builder.h declares it to seal the innermost
    array or object.  The sealed compound becomes a member of the compound
    around it, or a finished value of the buffer. *)
Definition close (b : Builder) : Exception + Builder :=
  match _stack b with
  | [] => inl BuilderNeedOpenCompound
  | f :: rest =>
      let '(attr, v) :=
        match f with
        | ObjectFrame a ms => (a, VObject ms)
        | ArrayFrame a items => (a, VArray items)
        end in
      match rest, attr with
      | ObjectFrame a ms :: outer, Some k =>
          inr (mkBuilder (ObjectFrame a (ms ++ [(k, v)]) :: outer) (written b))
      | ObjectFrame a ms :: outer, None => inr (mkBuilder rest (written b))
      | ArrayFrame a items :: outer, _ =>
          inr (mkBuilder (ArrayFrame a (items ++ [v]) :: outer) (written b))
      | [], Some k => inr (mkBuilder [] (written b ++ [VString k; v]))
      | [], None => inr (mkBuilder [] (written b ++ [v]))
      end
  end.

(** [start]: the value at the start of the buffer, once everything is
    sealed. *)
Definition start (b : Builder) : Exception + Slice :=
  if isClosed b then inr (default VNone (head (written b)))
  else inl BuilderNotSealed.

Definition and_then {A B} (r : Exception + A) (k : A -> Exception + B)
    : Exception + B :=
  match r with
  | inl e => inl e
  | inr a => k a
  end.

End VPack.

(** ** RestDebugHelperHandler (arangod/RestHandler/RestDebugHelperHandler.cpp) *)

Module RestDebugHelperHandler.

Import VPack.

Inductive status_t := HANDLER_DONE | HANDLER_REQUEUE | HANDLER_FAILED.

(** The parameters of the request URL by name. *)
Record HttpRequest := mkRequest {
  _values : gmap string string
}.

(** Modelled from the spec: [HttpRequest::value] (Rest/HttpRequest.h) is
    not among the sources.  [_request->value(key, found)] gives the value of
    the URL parameter, as [sleep=0] in [GET /debug?sleep=0], and sets [found]
    to whether the request has it. *)
Definition value (r : HttpRequest) (key : string) : string * bool :=
  match _values r !! key with
  | Some v => (v, true)
  | None => (EmptyString, false)
  end.

Record HttpResponse := mkResponse {
  responseCode : Z;
  body : Slice
}.

Inductive Event :=
| ESetIgnore                       (* RequestStatisticsAgentSetIgnore(this) *)
| EBlock (thread : addr)           (* _dispatcherThread->block() *)
| EUsleep (useconds : Z)            (* usleep(useconds) *)
| EUnblock (thread : addr).

(** The conversions of C++ between [double] and [unsigned long] (64 bits).
    Converting to the integer drops the fraction; a value that does not fit
    after that has no defined result. *)
Definition double_to_unsigned_long (d : float) : option Z :=
  match FloatOps.Prim2SF d with
  | SpecFloat.S754_zero _ => Some 0%Z
  | SpecFloat.S754_finite neg m e =>
      let magnitude :=
        if (0 <=? e)%Z then Z.shiftl (Z.pos m) e else Z.shiftr (Z.pos m) (- e) in
      if (magnitude =? 0)%Z then Some 0%Z
      else if neg then None
      else if (magnitude <? 2 ^ 64)%Z then Some magnitude
      else None
  | SpecFloat.S754_infinity _ | SpecFloat.S754_nan => None
  end.

(** [usleep] takes a [useconds_t], an unsigned integer of 32 bits on Linux
    and macOS: the [unsigned long] is reduced to it on the call. *)
Definition useconds_t (n : Z) : Z := (n mod 2 ^ 32)%Z.

Definition unsigned_long_to_double (n : Z) : float :=
  FloatOps.SF2Prim
    (SpecFloat.binary_normalize FloatOps.prec FloatOps.emax n 0 false).

(** Modelled from the spec: [RestBaseHandler::generateResult] is not among
    the sources.  The answer of the debug helper is a 200 whose JSON body is
    the object the handler built, so the response gets the code 200 and the
    slice as its body. *)
Definition generateResult (slice : Slice) : HttpResponse :=
  mkResponse 200 slice.

Record Executed := mkExecuted {
  _response : option HttpResponse;
  status : status_t;
  events : list Event
}.

Section Execute.

(** [StringUtils::doubleDecimal] and [StringUtils::boolean] (Basics/StringUtils.h)
    and the version string [TRI_VERSION] (Rest/Version.h). *)
Variable doubleDecimal : string -> float.
Variable boolean : string -> bool.
Variable TRI_VERSION : string.

(** The body of the [try] block. *)
Definition build_result (s : Z) (block : bool) : Exception + HttpResponse :=
  let result := Builder_new in
  and_then (add OfObject result) (fun result =>
  and_then (add_attr "server" (OfString "arango") result) (fun result =>
  and_then (add_attr "version" (OfString TRI_VERSION) result) (fun result =>
  and_then (add_attr "sleep"
              (OfDouble (PrimFloat.div (unsigned_long_to_double s) 1000000%float))
              result) (fun result =>
  and_then (add_attr "block" (OfBool block) result) (fun result =>
  and_then (close result) (fun result =>
  and_then (start result) (fun slice =>
  inr (generateResult slice)))))))).

(** [None] when the conversion of the sleep time to [unsigned long] has no
    defined result. *)
Definition execute (_request : HttpRequest) (_dispatcherThread : pointer)
    : option Executed :=
  let '(sleepStr, _) := value _request "sleep" in
  match double_to_unsigned_long
          (PrimFloat.mul (PrimFloat.mul (doubleDecimal sleepStr) 1000%float)
                         1000%float) with
  | None => None
  | Some s =>
      let '(blockStr, found) := value _request "block" in
      let block := found && boolean blockStr in
      let blocking :=
        match _dispatcherThread with
        | Some t => if block then [EBlock t] else []
        | None => []
        end in
      let sleeping := if (0 <? s)%Z then [EUsleep (useconds_t s)] else [] in
      let unblocking :=
        match _dispatcherThread with
        | Some t => if block then [EUnblock t] else []
        | None => []
        end in
      let response :=
        match build_result s block with
        | inr r => Some r
        | inl _ => None          (* catch (...) { } *)
        end in
      Some (mkExecuted response HANDLER_DONE
              (ESetIgnore :: blocking ++ sleeping ++ unblocking))
  end.

End Execute.

End RestDebugHelperHandler.

(** ** velocypack integers: velocypack-common.h, Builder.h and Slice.h *)

Module Velocypack.

(** Values of the fixed-width types as integers: a [uint8_t] or [uint64_t]
    is reduced modulo its width where the code stores or adds, and a cast of
    a [uint64_t] to [int64_t] takes the value in two's complement. *)
Definition uint8 (z : Z) : Z := z mod 256.
Definition uint64 (z : Z) : Z := z mod 2 ^ 64.
Definition int64_of_uint64 (u : Z) : Z :=
  if (u <? 2 ^ 63)%Z then u else (u - 2 ^ 64)%Z.

Definition INT64_MAX : Z := 2 ^ 63 - 1.

(** *** velocypack-common.h *)

Definition ToUInt64 (v : Z) : Z :=
  let shift2 := uint64 (Z.shiftl 1 63) in
  let shift := int64_of_uint64 (uint64 (shift2 - 1)) in
  if (0 <=? v)%Z then uint64 v
  else uint64 (uint64 ((v + shift) + 1) + shift2).

Definition ToInt64 (v : Z) : Z :=
  let shift2 := uint64 (Z.shiftl 1 63) in
  let shift := int64_of_uint64 (uint64 (shift2 - 1)) in
  if (shift2 <=? v)%Z
  then ((int64_of_uint64 (uint64 (v - shift2)) - shift) - 1)%Z
  else int64_of_uint64 v.

(** *** Builder.h: the bytes a Builder appends *)

(** The written part of the buffer, [_start[0 .. _pos)]. *)
Definition Buffer := list Z.

(** [_start[_pos++] = b] *)
Definition put (b : Z) (buf : Buffer) : Buffer := buf ++ [uint8 b].

(** [for (i = 0; i < n; ++i) { _start[_pos++] = v & 0xff; v >>= 8; }], the
    loop of [appendLength] and, counting [vSize] down, of [appendInt]. *)
Fixpoint store_bytes (n : nat) (v : Z) (buf : Buffer) : Buffer :=
  match n with
  | O => buf
  | S k => store_bytes k (Z.shiftr v 8) (put (Z.land v 255) buf)
  end.

Definition appendLength (v : Z) (n : nat) (buf : Buffer) : Buffer :=
  store_bytes n v buf.

(** A [uint64_t] is zero after eight shifts by eight bits, so eight rounds
    are all a loop that shifts until zero can make. *)
Definition rounds_of_uint64 : nat := 8.

(** [do { vSize++; _start[_pos++] = v & 0xff; v >>= 8; } while (v != 0)];
    [None] when the rounds run out before the loop ends. *)
Fixpoint appendUInt_loop (rounds : nat) (v vSize : Z) (buf : Buffer)
    : option (Z * Buffer) :=
  match rounds with
  | O => None
  | S k =>
      let vSize := uint8 (vSize + 1) in
      let buf := put (Z.land v 255) buf in
      let v := Z.shiftr v 8 in
      if (v =? 0)%Z then Some (vSize, buf)
      else appendUInt_loop k v vSize buf
  end.

(** The head byte at [save] is written after the value bytes. *)
Definition appendUInt (v base : Z) (buf : Buffer) : option Buffer :=
  let save := length buf in
  let buf := buf ++ [0%Z] in
  match appendUInt_loop rounds_of_uint64 v 0 buf with
  | Some (vSize, buf) => Some (<[save := uint8 (base + vSize)]> buf)
  | None => None
  end.

(** [do { xSize++; x >>= 8; } while (x >= 0x80)] *)
Fixpoint intLength_loop (rounds : nat) (x xSize : Z) : option Z :=
  match rounds with
  | O => None
  | S k =>
      let xSize := uint8 (xSize + 1) in
      let x := Z.shiftr x 8 in
      if (128 <=? x)%Z then intLength_loop k x xSize else Some xSize
  end.

Definition intLength (value : Z) : option Z :=
  if ((-128 <=? value) && (value <=? 127))%Z then Some 1%Z
  else
    let x := if (0 <=? value)%Z then uint64 value
             else uint64 (- (value + 1)) in
    match intLength_loop rounds_of_uint64 x 0 with
    | Some xSize => Some (uint8 (xSize + 1))
    | None => None
    end.

Definition appendInt (v base : Z) (buf : Buffer) : option Buffer :=
  match intLength v with
  | None => None
  | Some vSize =>
      let x :=
        if (vSize =? 8)%Z then ToUInt64 v
        else
          let shift := Z.shiftl 1 (vSize * 8 - 1) in
          if (0 <=? v)%Z then uint64 v
          else uint64 (uint64 (v + shift) + shift) in
      Some (store_bytes (Z.to_nat vSize) x (put (base + vSize) buf))
  end.

Definition addNull (buf : Buffer) : Buffer := put 24 buf.
Definition addFalse (buf : Buffer) : Buffer := put 25 buf.
Definition addTrue (buf : Buffer) : Buffer := put 26 buf.

Definition addInt (v : Z) (buf : Buffer) : option Buffer :=
  if ((0 <=? v) && (v <=? 9))%Z then Some (put (48 + v) buf)
  else if ((v <? 0) && (-6 <=? v))%Z then Some (put (64 + v) buf)
  else appendInt v 31 buf.

Definition addUInt (v : Z) (buf : Buffer) : option Buffer :=
  if (v <=? 9)%Z then Some (put (48 + v) buf)
  else appendUInt v 39 buf.

Definition addUTCDate (v : Z) (buf : Buffer) : Buffer :=
  let x := ToUInt64 v in
  appendLength x 8 (put 28 buf).

(** The [n] low bytes of [v], lowest first. *)
Fixpoint le_bytes (n : nat) (v : Z) : list Z :=
  match n with
  | O => []
  | S k => (v mod 256)%Z :: le_bytes k (v / 256)%Z
  end.

(** *** Slice.h: reading a value back *)

Inductive Exception :=
| NumberOutOfRange
| InvalidValueType.

(** What a getter of Slice gives: the value, an exception, or a read past
    the bytes the slice points to. *)
Inductive Read (A : Type) :=
| Got (a : A)
| Thrown (e : Exception)
| OutOfBounds.

Arguments Got {A} a.
Arguments Thrown {A} e.
Arguments OutOfBounds {A}.

(** The loop of [readInteger] over the bytes from [p] to [e], with
    [T = uint64_t]: each byte, shifted left by [digit * 8], is added to
    [value], and [digit] and [p] go up by one. *)
Fixpoint readInteger_loop (bytes : list Z) (digit value : Z) : Z :=
  match bytes with
  | [] => value
  | b :: rest =>
      readInteger_loop rest (digit + 1)
        (uint64 (value + uint64 (Z.shiftl b (digit * 8))))
  end.

(** [readInteger<uint64_t>(_start + start, numBytes)] on the slice at the
    beginning of [s]. *)
Definition readInteger (s : list Z) (start numBytes : nat) : Read Z :=
  let region := take numBytes (drop start s) in
  if Nat.eqb (length region) numBytes
  then Got (readInteger_loop region 0 0)
  else OutOfBounds.

Definition between (lo h hi : Z) : bool := ((lo <=? h) && (h <=? hi))%Z.

(** The branch of [getUInt] for a UInt head, 0x28 to 0x2f. *)
Definition getUInt_of_UInt (s : list Z) (h : Z) : Read Z :=
  readInteger s 1 (Z.to_nat (h - 39)).

(** The branches of [getSmallInt] for a SmallInt head, 0x30 to 0x3f. *)
Definition getSmallInt_of_SmallInt (h : Z) : Z :=
  if between 48 h 57 then (h - 48)%Z else ((h - 58) - 6)%Z.

Definition getInt (s : list Z) : Read Z :=
  match head s with
  | None => OutOfBounds
  | Some h =>
      if between 32 h 39 then
        match readInteger s 1 (Z.to_nat (h - 31)) with
        | Got v =>
            if (h =? 39)%Z then Got (ToInt64 v)
            else
              let vv := int64_of_uint64 v in
              let shift := Z.shiftl 1 ((h - 31) * 8 - 1) in
              Got (if (vv <? shift)%Z then vv else (vv - Z.shiftl shift 1)%Z)
        | Thrown e => Thrown e
        | OutOfBounds => OutOfBounds
        end
      else if between 40 h 47 then
        match getUInt_of_UInt s h with
        | Got v =>
            if (INT64_MAX <? v)%Z then Thrown NumberOutOfRange
            else Got (int64_of_uint64 v)
        | Thrown e => Thrown e
        | OutOfBounds => OutOfBounds
        end
      else if between 48 h 63 then Got (getSmallInt_of_SmallInt h)
      else Thrown InvalidValueType
  end.

Definition getUInt (s : list Z) : Read Z :=
  match head s with
  | None => OutOfBounds
  | Some h =>
      if between 40 h 47 then getUInt_of_UInt s h
      else if between 32 h 39 then
        match getInt s with
        | Got v =>
            if (v <? 0)%Z then Thrown NumberOutOfRange else Got (uint64 v)
        | Thrown e => Thrown e
        | OutOfBounds => OutOfBounds
        end
      else if between 48 h 57 then Got (h - 48)%Z
      else if between 58 h 63 then Thrown NumberOutOfRange
      else Thrown InvalidValueType
  end.

Definition getSmallInt (s : list Z) : Read Z :=
  match head s with
  | None => OutOfBounds
  | Some h =>
      if between 48 h 63 then Got (getSmallInt_of_SmallInt h)
      else if between 32 h 39 || between 40 h 47 then getInt s
      else Thrown InvalidValueType
  end.

(** [getUTCDate]; [assertType] has an empty body wherever the macro
    VELOCYPACK_ASSERT is defined, which velocypack-common.h does in every
    build, so the bytes are read whatever the head is. *)
Definition getUTCDate (s : list Z) : Read Z :=
  match readInteger s 1 8 with
  | Got v => Got (ToInt64 v)
  | Thrown e => Thrown e
  | OutOfBounds => OutOfBounds
  end.

(** [getString]: the length of the string and where its characters start,
    counted from the head byte.  [CheckValueLength] does nothing on a 64 bit
    platform. *)
Definition getString (s : list Z) : Read (Z * nat) :=
  match head s with
  | None => OutOfBounds
  | Some h =>
      if between 64 h 190 then Got ((h - 64)%Z, 1%nat)
      else if (h =? 191)%Z then
        match readInteger s 1 8 with
        | Got length => Got (length, 9%nat)
        | Thrown e => Thrown e
        | OutOfBounds => OutOfBounds
        end
      else Thrown InvalidValueType
  end.

(** [copyString]: the characters themselves. *)
Definition copyString (s : list Z) : Read (list Z) :=
  match getString s with
  | Got (length, first) =>
      let chars := take (Z.to_nat length) (drop first s) in
      if Nat.eqb (List.length chars) (Z.to_nat length) then Got chars
      else OutOfBounds
  | Thrown e => Thrown e
  | OutOfBounds => OutOfBounds
  end.

End Velocypack.

(** ** velocypack Buffer: Buffer.h, and the Builder's use of it *)

Module VelocypackBuffer.

Definition uint64 (z : Z) : Z := z mod 2 ^ 64.

(** [sizeof(_local)] *)
Definition sizeof_local : Z := 192.

(** [_buffer] points either to [_local] or to a block of its own, which is
    [_heap]; [_local] stays part of the object in both cases.  A byte of a
    block is an [option Z], and [None] a byte that was never written. *)
Record Buffer := mkBuffer {
  _local : list (option Z);
  _heap : option (list (option Z));
  _alloc : Z;
  _pos : Z
}.

Inductive Run (A : Type) : Type :=
| Done (a : A)
| AssertionFailed
| OutOfBounds
| Inexact.

Arguments Done {A} a.
Arguments AssertionFailed {A}.
Arguments OutOfBounds {A}.
Arguments Inexact {A}.

Definition and_then {A B : Type} (r : Run A) (k : A -> Run B) : Run B :=
  match r with
  | Done a => k a
  | AssertionFailed => AssertionFailed
  | OutOfBounds => OutOfBounds
  | Inexact => Inexact
  end.

(** [data()]: the block [_buffer] points to. *)
Definition data (b : Buffer) : list (option Z) :=
  match _heap b with
  | Some block => block
  | None => _local b
  end.

Definition size (b : Buffer) : Z := _pos b.

Definition capacity (b : Buffer) : Z := _alloc b.

Definition with_data (block : list (option Z)) (b : Buffer) : Buffer :=
  match _heap b with
  | Some _ => mkBuffer (_local b) (Some block) (_alloc b) (_pos b)
  | None => mkBuffer block None (_alloc b) (_pos b)
  end.

Definition with_pos (pos : Z) (b : Buffer) : Buffer :=
  mkBuffer (_local b) (_heap b) (_alloc b) pos.

(** [memcpy(dst + at, src, n)]: the first [n] bytes of [src] over [dst]
    from index [at] on; [None] when either block is too short. *)
Definition memcpy (dst : list (option Z)) (at_ : nat) (src : list (option Z)) (n : nat)
  : option (list (option Z)) :=
  if (n <=? length src)%nat && (at_ + n <=? length dst)%nat
  then Some (take at_ dst ++ take n src ++ drop (at_ + n) dst)
  else None.

(** The bytes [data()[0 .. size())]. *)
Definition contents (b : Buffer) : list (option Z) :=
  take (Z.to_nat (_pos b)) (data b).

Section Build.

(** The build: with VELOCYPACK_DEBUG, VELOCYPACK_ASSERT is [assert] and new
    memory is filled with 0xa5; without it, assertions are empty and new
    memory is left as it is. *)
Variable VELOCYPACK_DEBUG : bool.

Definition fresh (n : Z) : list (option Z) :=
  replicate (Z.to_nat n) (if VELOCYPACK_DEBUG then Some 165%Z else None).

(** [Buffer ()] *)
Definition Buffer_new : Buffer :=
  mkBuffer (fresh sizeof_local) None sizeof_local 0.

(** [GrowthFactor * _pos] is a product of doubles and [newLen] is compared
    with it as a double.  Below these bounds [_pos], [newLen] and the
    product are doubles without rounding, and the comparison and the cast
    back are those of the integers; beyond them [reserve] is [Inexact]. *)
Definition exact (pos newLen : Z) : bool :=
  ((pos <? 2 ^ 50) && (newLen <? 2 ^ 53))%Z.

(** [reserve]; [new T[newLen]] is taken to succeed. *)
Definition reserve (len : Z) (b : Buffer) : Run Buffer :=
  if (uint64 (_pos b + len) <? _alloc b)%Z then Done b
  else if VELOCYPACK_DEBUG && negb (sizeof_local <=? uint64 (_pos b + len))%Z
  then AssertionFailed
  else
    let MinLength := sizeof_local in
    let newLen := uint64 (_pos b + len) in
    let newLen := if (newLen <? MinLength)%Z then MinLength else newLen in
    if negb (exact (_pos b) newLen) then Inexact
    else
      let newLen :=
        if ((0 <? _pos b) && (4 * newLen <? 5 * _pos b))%Z
        then (5 * _pos b / 4)%Z
        else newLen in
      if VELOCYPACK_DEBUG && negb (_pos b <? newLen)%Z then AssertionFailed
      else
        match memcpy (fresh newLen) 0 (data b) (Z.to_nat (_pos b)) with
        | None => OutOfBounds
        | Some p => Done (mkBuffer (_local b) (Some p) newLen (_pos b))
        end.

(** [explicit Buffer (ValueLength expectedLength)] *)
Definition Buffer_of_length (expectedLength : Z) : Run Buffer :=
  reserve expectedLength Buffer_new.

(** [reset]: the block is given back and [_local] is used again. *)
Definition reset (b : Buffer) : Buffer :=
  match _heap b with
  | Some _ =>
      mkBuffer (if VELOCYPACK_DEBUG then fresh sizeof_local else _local b)
               None sizeof_local 0
  | None => with_pos 0 b
  end.

Definition clear (b : Buffer) : Buffer := reset b.

(** [_buffer[_pos++] = c] *)
Definition store (c : Z) (b : Buffer) : Run Buffer :=
  if (Z.to_nat (_pos b) <? length (data b))%nat
  then Done (with_pos (uint64 (_pos b + 1))
               (with_data (<[Z.to_nat (_pos b) := Some c]> (data b)) b))
  else OutOfBounds.

Definition push_back (c : Z) (b : Buffer) : Run Buffer :=
  and_then (reserve 1 b) (store c).

(** [append (char c)] *)
Definition append_char (c : Z) (b : Buffer) : Run Buffer :=
  and_then (reserve 1 b) (store c).

(** [append (p, len)]: [p] points to the [len] bytes given here. *)
Definition append (p : list Z) (b : Buffer) : Run Buffer :=
  let len := Z.of_nat (length p) in
  and_then (reserve len b) (fun b =>
    match memcpy (data b) (Z.to_nat (_pos b)) (map Some p) (length p) with
    | None => OutOfBounds
    | Some block => Done (with_pos (uint64 (_pos b + len)) (with_data block b))
    end).

(** One [append] after the other. *)
Fixpoint appends (ps : list (list Z)) (b : Buffer) : Run Buffer :=
  match ps with
  | [] => Done b
  | p :: ps => and_then (append p b) (appends ps)
  end.

(** [prealloc]: the bytes are reserved and counted, and not written. *)
Definition prealloc (len : Z) (b : Buffer) : Run Buffer :=
  and_then (reserve len b) (fun b =>
    Done (with_pos (uint64 (_pos b + len)) b)).

(** What the copy constructor and the copy assignment do once [this] is
    empty and on [_local]; the block they take is not filled with 0xa5. *)
Definition copy_from (that this : Buffer) : Run Buffer :=
  if (0 <? _pos that)%Z then
    let heap :=
      if (sizeof_local <? _pos that)%Z
      then Some (replicate (Z.to_nat (_pos that)) None)
      else None in
    let this := mkBuffer (_local this) heap (_alloc this) (_pos this) in
    match memcpy (data this) 0 (data that) (Z.to_nat (_pos that)) with
    | None => OutOfBounds
    | Some block =>
        let this := with_data block this in
        Done (mkBuffer (_local this) (_heap this) (_pos that) (_pos that))
    end
  else Done this.

(** [Buffer (Buffer const& that)] *)
Definition Buffer_copy (that : Buffer) : Run Buffer :=
  copy_from that Buffer_new.

(** [operator= (Buffer const& that)] for another object than [this]. *)
Definition assign (that this : Buffer) : Run Buffer :=
  copy_from that (reset this).

(** [Buffer (Buffer&& that)]: the new object and what is left of [that]. *)
Definition Buffer_move (that : Buffer) : Run (Buffer * Buffer) :=
  let this := Buffer_new in
  match _heap that with
  | None =>
      match memcpy (data this) 0 (data that) (Z.to_nat (_pos that)) with
      | None => OutOfBounds
      | Some block =>
          Done (with_pos (_pos that) (with_data block this), with_pos 0 that)
      end
  | Some block =>
      Done (mkBuffer (_local this) (Some block) (_alloc that) (_pos that),
            mkBuffer (_local that) None sizeof_local 0)
  end.

(** The class invariant of [Buffer]: [_local] has its 192 bytes, [_pos] is
    at most [_alloc], and [_alloc] is the length of the block the buffer
    owns, or at most 192 while it uses [_local]. *)
Definition buffer_wf (b : Buffer) : Prop :=
  length (_local b) = 192%nat /\
  (0 <= _pos b <= _alloc b)%Z /\
  match _heap b with
  | Some block => Z.of_nat (length block) = _alloc b
  | None => (_alloc b <= 192)%Z
  end.

(** In a build with assertions, [reserve] needs [_alloc] to be at least
    [sizeof(_local)]. *)
Definition roomy (b : Buffer) : Prop :=
  VELOCYPACK_DEBUG = true -> (192 <= _alloc b)%Z.

(** *** Builder.h: [reserveSpace] and the writes through [_start]

    [_start] is set to [_buffer.data()] by the constructor and again after
    every [prealloc], the one call that can move the buffer's block, so a
    write through [_start] is a write into the buffer's block. *)
Record Builder := mkBuilder {
  _buffer : Buffer;
  _size : Z;
  _builder_pos : Z
}.

(** [Builder ()] *)
Definition Builder_new : Run Builder :=
  and_then (Buffer_of_length 0) (fun buffer =>
    Done (mkBuilder buffer (size buffer) 0)).

(** [reserveSpace]; [CheckValueLength] does nothing on a 64 bit platform. *)
Definition reserveSpace (len : Z) (b : Builder) : Run Builder :=
  if (uint64 (_builder_pos b + len) <=? _size b)%Z then Done b
  else
    and_then (prealloc len (_buffer b)) (fun buffer =>
      Done (mkBuilder buffer (size buffer) (_builder_pos b))).

(** [_start[_pos++] = v] with a [uint8_t] value *)
Definition write (v : Z) (b : Builder) : Run Builder :=
  let block := data (_buffer b) in
  if (Z.to_nat (_builder_pos b) <? length block)%nat
  then Done (mkBuilder
               (with_data (<[Z.to_nat (_builder_pos b) := Some (v mod 256)%Z]> block)
                          (_buffer b))
               (_size b) (uint64 (_builder_pos b + 1)))
  else OutOfBounds.

Fixpoint writes (vs : list Z) (b : Builder) : Run Builder :=
  match vs with
  | [] => Done b
  | v :: vs => and_then (write v b) (writes vs)
  end.

(** The loop of [appendLength]:
    [for (i = 0; i < n; ++i) { _start[_pos++] = v & 0xff; v >>= 8; }] *)
Fixpoint appendLength_loop (n : nat) (v : Z) (b : Builder) : Run Builder :=
  match n with
  | O => Done b
  | S k =>
      and_then (write (Z.land v 255) b) (appendLength_loop k (Z.shiftr v 8))
  end.

(** [appendLength (v, n)] *)
Definition appendLength (v : Z) (n : nat) (b : Builder) : Run Builder :=
  and_then (reserveSpace (Z.of_nat n) b) (appendLength_loop n v).

(** [addString (strLen)]: the head byte goes to [_start[_pos++]] with no
    [reserveSpace] before it; only [appendLength] reserves, and only the
    eight bytes of the length.  [target] is given as the index of
    [_start + _pos] behind the head, and [_pos] moves over the place of the
    characters, which the caller fills. *)
Definition addString (strLen : Z) (b : Builder) : Run (Builder * Z) :=
  and_then
    (if (126 <? strLen)%Z
     then and_then (write 191 b) (appendLength strLen 8)
     else write (64 + strLen) b)
    (fun b =>
       let target := _builder_pos b in
       Done (mkBuilder (_buffer b) (_size b) (uint64 (_builder_pos b + strLen)),
             target)).

(** The bytes [_start[0 .. _pos)]. *)
Definition written (b : Builder) : list (option Z) :=
  take (Z.to_nat (_builder_pos b)) (data (_buffer b)).

(** What the Builder keeps true of its buffer: [_size] is the buffer's
    size and [_pos] is at most [_size]. *)
Definition builder_wf (b : Builder) : Prop :=
  buffer_wf (_buffer b) /\ roomy (_buffer b) /\
  _size b = _pos (_buffer b) /\
  (0 <= _builder_pos b <= _size b)%Z.

End Build.

End VelocypackBuffer.

(** ** BenchmarkCounter: BenchmarkCounter.h *)

Module BenchmarkCounter.

Section Counter.

(** [T] is an unsigned integer type of [bits] bits that is at least as wide
    as [int], so that sums and differences are taken in [T] and wrap. *)
Variable bits : Z.

Definition T (z : Z) : Z := z mod 2 ^ bits.

Definition size_t (z : Z) : Z := z mod 2 ^ 64.

(** Every method holds [_mutex] from its first access to a member to its
    return, so a method is one step on the members. *)
Record BenchmarkCounter := mkCounter {
  _value : Z;
  _maxValue : Z;
  _failures : Z
}.

Definition BenchmarkCounter_new (initialValue maxValue : Z) : BenchmarkCounter :=
  mkCounter initialValue maxValue 0.

Definition getValue (c : BenchmarkCounter) : Z := _value c.

Definition failures (c : BenchmarkCounter) : Z := _failures c.

Definition next (value : Z) (c : BenchmarkCounter) : Z * BenchmarkCounter :=
  let realValue := if (value =? 0)%Z then 1%Z else value in
  let oldValue := _value c in
  if (_maxValue c <? T (oldValue + realValue))%Z
  then (T (_maxValue c - oldValue),
        mkCounter (_maxValue c) (_maxValue c) (_failures c))
  else (realValue,
        mkCounter (T (_value c + realValue)) (_maxValue c) (_failures c)).

Definition incFailures (value : Z) (c : BenchmarkCounter) : BenchmarkCounter :=
  mkCounter (_value c) (_maxValue c) (size_t (_failures c + value)).

(** The results of one call of [next] after the other, whichever threads
    make them. *)
Fixpoint nexts (values : list Z) (c : BenchmarkCounter)
  : list Z * BenchmarkCounter :=
  match values with
  | [] => ([], c)
  | value :: values =>
      let (r, c) := next value c in
      let (rs, c) := nexts values c in
      (r :: rs, c)
  end.

Definition total (rs : list Z) : Z := fold_right Z.add 0%Z rs.

End Counter.

End BenchmarkCounter.

(** ** What a trace of the scheduler thread shows *)

Module SchedulerThreadLog.

Import SchedulerThread.

(** The commands taken from the queue, the tasks handed to [deleteTask],
    [setupTask] and [cleanupTask], and the calls of [eventLoop], each in the
    order of the trace. *)
Definition popped (ev : list Event) : list Work :=
  omap (fun e => match e with EPopFront w => Some w | _ => None end) ev.

Definition deleted (ev : list Event) : list pointer :=
  omap (fun e => match e with EDeleteTask tsk => Some tsk | _ => None end) ev.

Definition set_up (ev : list Event) : list pointer :=
  omap (fun e => match e with ESetupTask tsk _ _ => Some tsk | _ => None end) ev.

Definition cleaned_up (ev : list Event) : list pointer :=
  omap (fun e => match e with ECleanupTask tsk => Some tsk | _ => None end) ev.

Definition polls (ev : list Event) : nat :=
  length (omap (fun e => match e with EEventLoop _ loop => Some loop | _ => None end) ev).

(** The tasks of the DESTROY commands among [ws]. *)
Definition destroy_tasks (ws : list Work) : list pointer :=
  omap (fun w => match work w with DESTROY => Some (task w) | _ => None end) ws.

Section Commands.

Variable setupTask : pointer -> pointer -> EventLoop -> bool.

(** A SETUP command whose setup fails on [loop]. *)
Definition setup_fails (loop : EventLoop) (w : Work) : bool :=
  match work w with
  | SETUP => negb (setupTask (task w) (scheduler w) loop)
  | _ => false
  end.

(** The tasks a running loop has to delete for the commands [ws]: those of
    the DESTROY commands and of the SETUP commands whose setup fails. *)
Definition tasks_to_delete (loop : EventLoop) (ws : list Work) : list pointer :=
  omap (fun w =>
          match work w with
          | DESTROY => Some (task w)
          | SETUP => if setup_fails loop w then Some (task w) else None
          | _ => None
          end) ws.

(** The tasks the command loop hands to [setupTask] and to [cleanupTask]
    for the commands [ws]. *)
Definition tasks_to_set_up (ws : list Work) : list pointer :=
  omap (fun w => match work w with SETUP => Some (task w) | _ => None end) ws.

Definition tasks_to_clean_up (loop : EventLoop) (ws : list Work)
    : list pointer :=
  omap (fun w =>
          match work w with
          | CLEANUP | DESTROY => Some (task w)
          | SETUP => if setup_fails loop w then Some (task w) else None
          | INVALID => None
          end) ws.

(** Tasks that come by a successful SETUP less those that go by a CLEANUP
    or a DESTROY. *)
Definition net_tasks (loop : EventLoop) (ws : list Work) : Z :=
  fold_right
    (fun w n =>
       (match work w with
        | SETUP => if setup_fails loop w then 0 else 1
        | CLEANUP => -1
        | DESTROY => -1
        | INVALID => 0
        end + n)%Z) 0%Z ws.

End Commands.

End SchedulerThreadLog.

(** ** SchedulerThread: [run] beside the calls of other threads

    [run] and the calls that other threads make on the same object, one
    statement at a time.  A step of [run] is one statement that reads or
    writes what the threads share: the flags, which are atomic, and the
    queue, which is only touched under [_queueLock].  A call of another
    thread is two steps: its test of [_stopped], and, when the thread is not
    stopped, its push under the lock; between the two the call waits, and
    anything can happen.  What the tasks do inside the event loop, their own
    calls on this thread included, is not part of the machine. *)

Module SchedulerThreadSteps.

Import SchedulerThread SchedulerThreadLog.

(** Where [run] is. *)
Inductive Location :=
| AtStart                    (* the signal mask of the default loop *)
| AtOpenTest                 (* while (! _stopping.load() && ! _open.load()) *)
| AtStoppingTest             (* while (! _stopping.load()) *)
| InEventLoop                (* _scheduler->eventLoop(_loop) *)
| AtQueueLock                (* the lock and the test of the command loop *)
| AtSwitch (w : Work)        (* switch (w.work) of the command loop *)
| AtStopped                  (* _stopped = true *)
| AtDiscardLock              (* the lock and the test of the last loop *)
| AtDiscardSwitch (w : Work) (* switch (w.work) of the last loop *)
| RunReturned
| RunThrown (e : exn).

(** The object, where [run] is, the commands of the calls that wait for the
    lock, and three traces: what [run] did up to [_stopped = true], what it
    did after it, and what the other threads did. *)
Record Machine := mkMachine {
  thread : SchedulerThread;
  location : Location;
  waiting : list Work;
  log : list Event;
  after : list Event;
  calls : list Event
}.

Definition start (t : SchedulerThread) : Machine :=
  mkMachine t AtStart [] [] [] [].

Definition logs (ev : list Event) (l : Location) (t : SchedulerThread)
    (m : Machine) : Machine :=
  mkMachine t l (waiting m) (log m ++ ev) (after m) (calls m).

Definition logs_after (ev : list Event) (l : Location) (t : SchedulerThread)
    (m : Machine) : Machine :=
  mkMachine t l (waiting m) (log m) (after m ++ ev) (calls m).

Definition called (ev : list Event) (t : SchedulerThread) (ws : list Work)
    (m : Machine) : Machine :=
  mkMachine t (location m) ws (log m) (after m) (calls m ++ ev).

(** The calls of another thread than the scheduler thread.  [registerTask]
    is called with a scheduler and a task, as its assertions ask. *)
Inductive Call :=
| CallRegisterTask (sched tsk : addr)
| CallUnregisterTask (tsk : pointer)
| CallDestroyTask (tsk : pointer).

(** What the call does on a thread that is not stopped once it has the
    lock. *)
Definition command (c : Call) : Work :=
  match c with
  | CallRegisterTask sched tsk => mkWork SETUP (Some sched) (Some tsk)
  | CallUnregisterTask tsk => mkWork CLEANUP None tsk
  | CallDestroyTask tsk => mkWork DESTROY None tsk
  end.

(** The first step of a call: on a stopped thread it returns at once,
    [destroyTask] after deleting the task; otherwise it goes on to wait for
    the lock with its command. *)
Definition enters (c : Call) (m : Machine) : Machine :=
  if _stopped (thread m) then
    match c with
    | CallDestroyTask tsk => called [EDeleteTask tsk] (thread m) (waiting m) m
    | _ => m
    end
  else called [] (thread m) (waiting m ++ [command c]) m.

(** The second step: under the lock the command goes to the end of the
    queue, the has-work flag is set and the loop is woken, [registerTask]
    through the scheduler it was given and the others through
    [_scheduler]. *)
Definition push (w : Work) (t : SchedulerThread)
    : SchedulerThread * list Event :=
  (set_hasWork true (set_queue (_queue t ++ [w]) t),
   [ELock; EPushBack w;
    EWakeupLoop (match work w with
                 | SETUP => scheduler w
                 | _ => _scheduler t
                 end) (_loop t);
    EUnlock]).

Definition pushes (i : nat) (m : Machine) : option Machine :=
  match waiting m !! i with
  | None => None
  | Some w =>
      let '(t, ev) := push w (thread m) in
      Some (called ev t (delete i (waiting m)) m)
  end.

Inductive Action :=
| RunStep                         (* the next statement of [run] *)
| PollEnds (p : PollOutcome)      (* [eventLoop] returns or throws *)
| Enters (c : Call)               (* another thread begins a call *)
| Pushes (i : nat)                (* the waiting call number [i] gets the lock *)
| BeginShutdown
| Open.

(** The commands pushed by other threads, in the order of the pushes. *)
Definition pushed (ev : list Event) : list Work :=
  omap (fun e => match e with EPushBack w => Some w | _ => None end) ev.

(** The command [run] has taken from the queue and not yet looked at. *)
Definition held_by_loop (l : Location) : list Work :=
  match l with
  | AtSwitch w => [w]
  | _ => []
  end.

Definition held_by_discard (l : Location) : list Work :=
  match l with
  | AtDiscardSwitch w => [w]
  | _ => []
  end.

(** The locations behind [_stopped = true]. *)
Definition behind_stopped (l : Location) : bool :=
  match l with
  | AtDiscardLock | AtDiscardSwitch _ | RunReturned => true
  | _ => false
  end.

Section Steps.

Variable setupTask : pointer -> pointer -> EventLoop -> bool.
Variable TRI_HAVE_POSIX_THREADS : bool.

(** One statement of [run]; there is none while the event loop runs and
    after [run] has ended. *)
Definition run_step (m : Machine) : option Machine :=
  let t := thread m in
  match location m with
  | AtStart =>
      Some (logs (if _defaultLoop t && TRI_HAVE_POSIX_THREADS
                  then [ESigmask] else [])
                 AtOpenTest t m)
  | AtOpenTest =>
      if negb (_stopping t) && negb (_open t)
      then Some (logs [EUsleep] AtOpenTest t m)
      else Some (logs [] AtStoppingTest t m)
  | AtStoppingTest =>
      if negb (_stopping t)
      then Some (logs [EEventLoop (_scheduler t) (_loop t)] InEventLoop t m)
      else Some (logs [] AtStopped t m)
  | InEventLoop => None
  | AtQueueLock =>
      if negb (_hasWork t) then Some (logs [ELock; EUnlock] AtStoppingTest t m)
      else
        match _queue t with
        | [] => Some (logs [ELock; EUnlock] AtStoppingTest t m)
        | w :: rest =>
            Some (logs [ELock; EPopFront w; EUnlock] (AtSwitch w)
                       (set_queue rest t) m)
        end
  | AtSwitch w =>
      let '(t', ev) := execute_work setupTask w t in
      Some (logs ev AtQueueLock t' m)
  | AtStopped => Some (logs [] AtDiscardLock (set_stopped true t) m)
  | AtDiscardLock =>
      match _queue t with
      | [] => Some (logs_after [ELock; EUnlock] RunReturned t m)
      | w :: rest =>
          Some (logs_after [ELock; EPopFront w; EUnlock] (AtDiscardSwitch w)
                           (set_queue rest t) m)
      end
  | AtDiscardSwitch w => Some (logs_after (discard_work w) AtDiscardLock t m)
  | RunReturned => None
  | RunThrown _ => None
  end.

(** The end of a poll.  The handler of the exception reads the stopping
    flag. *)
Definition poll_step (p : PollOutcome) (m : Machine) : option Machine :=
  let t := thread m in
  match location m with
  | InEventLoop =>
      match p with
      | PollReturns => Some (logs [] AtQueueLock t m)
      | PollThrows e =>
          if TRI_HAVE_POSIX_THREADS && _stopping t
          then Some (logs [ELogWarning "caught cancelation exception during work"]
                          (RunThrown e) t m)
          else Some (logs [ELogWarning "caught exception from ev_loop"]
                          AtQueueLock t m)
      end
  | _ => None
  end.

Definition step (a : Action) (m : Machine) : option Machine :=
  match a with
  | RunStep => run_step m
  | PollEnds p => poll_step p m
  | Enters c => Some (enters c m)
  | Pushes i => pushes i m
  | BeginShutdown =>
      let '(t, ev) := beginShutdown (thread m) in
      Some (called ev t (waiting m) m)
  | Open => Some (called [] (open (thread m)).1 (waiting m) m)
  end.

(** The steps of an interleaving, one after the other; [None] when one of
    them is not possible where it is asked for. *)
Fixpoint exec (acts : list Action) (m : Machine) : option Machine :=
  match acts with
  | [] => Some m
  | a :: rest =>
      match step a m with
      | Some m' => exec rest m'
      | None => None
      end
  end.

(** What holds in every state of the machine that starts from the thread
    [t0]. *)
Definition in_order (t0 : SchedulerThread) (m : Machine) : Prop :=
  _loop (thread m) = _loop t0 /\
  _stopped (thread m) = behind_stopped (location m) /\
  (_stopped (thread m) = false -> after m = []) /\
  pushed (calls m) = popped (log m) ++ popped (after m) ++ _queue (thread m) /\
  (exists ran,
     popped (log m) = ran ++ held_by_loop (location m) /\
     set_up (log m) = tasks_to_set_up ran /\
     cleaned_up (log m) = tasks_to_clean_up setupTask (_loop t0) ran /\
     deleted (log m) = tasks_to_delete setupTask (_loop t0) ran /\
     _numberTasks (thread m)
       = (_numberTasks t0 + net_tasks setupTask (_loop t0) ran)%Z) /\
  (exists dropped,
     popped (after m) = dropped ++ held_by_discard (location m) /\
     set_up (after m) = [] /\ cleaned_up (after m) = [] /\
     deleted (after m) = destroy_tasks dropped).

End Steps.

End SchedulerThreadSteps.

(** ** What a trace of a job shows *)

Module HttpServerJobLog.

Import HttpServerJob.

(** The handlers given to a task with [setHandler], the handlers given to
    the work monitor by the destructor, and the number of [delete this],
    along a trace. *)
Definition handed_over (tr : list Event) : list pointer :=
  omap (fun e => match e with ESetHandler _ h => Some h | _ => None end) tr.

Definition released_handlers (tr : list Event) : list pointer :=
  omap (fun e => match e with EReleaseHandler h => Some (Some h) | _ => None end) tr.

Definition deletions (tr : list Event) : nat :=
  length (omap (fun e => match e with EDeleteThis => Some tt | _ => None end) tr).

(** Where the handler [h] of a job is while [cleanup] and [beginShutdown]
    run: with the job until [cleanup] has handed it over, then with the
    task; and the destructor has released what the job still had. *)
Definition disposal (h : addr) (s : System) : Prop :=
  deletions (trace s) = (if freed s then 1 else 0)%nat /\
  released_handlers (trace s)
    = (if freed s then
         match _handler (job s) with Some h' => [Some h'] | None => [] end
       else []) /\
  match cpc s with
  | C_entry | C_finishAsync | C_setFlag | C_testTask | C_setHandler =>
      handed_over (trace s) = [] /\ _handler (job s) = Some h
  | C_clearHandler =>
      handed_over (trace s) = [Some h] /\ _handler (job s) = Some h
  | C_signal =>
      handed_over (trace s) = [Some h] /\ _handler (job s) = None
  | C_clearFlag | C_removeJob | C_release | C_returned =>
      (handed_over (trace s) = [Some h] /\ _handler (job s) = None) \/
      (handed_over (trace s) = [] /\ _handler (job s) = Some h)
  | C_nullTask | C_freed => True
  end.

(** [cleanup] is between its test of [_task] and its last call through
    [_task], and [beginShutdown] is held in its loop by the flag. *)
Definition guarded (s : System) : Prop :=
  match cpc s with
  | C_testTask =>
      spc s = S_wait /\ _isInCleanup (job s) = true /\ freed s = false
  | C_setHandler | C_clearHandler | C_signal =>
      spc s = S_wait /\ _isInCleanup (job s) = true /\ freed s = false /\
      _task (job s) <> None
  | C_clearFlag | C_removeJob | C_release | C_returned | C_freed => True
  | C_entry | C_finishAsync | C_setFlag | C_nullTask => False
  end.

End HttpServerJobLog.

(** ** Where the descriptions of the work monitor are *)

Module WorkMonitorMemory.

Import WorkMonitor.

(** Every allocated description is on the stack of the thread or in one of
    the two queues. *)
Definition accounted (s : State) (stk : list addr) : Prop :=
  dom (descriptions s)
  = list_to_set (stk ++ EMPTY_WORK_DESCRIPTION s ++ FREEABLE_WORK_DESCRIPTION s).

End WorkMonitorMemory.

(** ** HandlerWorkStack (WorkMonitorArangod.cpp) *)

Module HandlerWorkStack.

Record HandlerWorkStack := mkHandlerWorkStack {
  _handler : pointer;
  _destroy : bool
}.

(** [HandlerWorkStack (HttpHandler* handler, bool destroy)] *)
Definition HandlerWorkStack_new (handler : pointer) (destroy : bool)
    (s : WorkMonitor.State)
    : result (HandlerWorkStack * WorkMonitor.State) :=
  bind_result (WorkMonitor.pushHandler handler s) (fun s' =>
    Ok (mkHandlerWorkStack handler destroy, s')).

(** [HandlerWorkStack (WorkItem::uptr<HttpHandler>& handler, bool destroy)]:
    [handler.release ()] leaves the caller's uptr empty and [handler.get ()]
    leaves it as it is.  The result holds what the uptr holds afterwards. *)
Definition HandlerWorkStack_of_uptr (handler : pointer) (destroy : bool)
    (s : WorkMonitor.State)
    : result (HandlerWorkStack * pointer * WorkMonitor.State) :=
  let uptr := if destroy then None else handler in
  bind_result (WorkMonitor.pushHandler handler s) (fun s' =>
    Ok (mkHandlerWorkStack handler destroy, uptr, s')).

(** [~HandlerWorkStack ()] *)
Definition destructor (w : HandlerWorkStack) (s : WorkMonitor.State)
    : result WorkMonitor.State :=
  if _destroy w then WorkMonitor.destroyHandler (_handler w) s
  else WorkMonitor.popHandler (_handler w) s.

End HandlerWorkStack.

(** ** The monitor thread: [WorkMonitor::run] (lib/Basics/WorkMonitor.cpp) *)

Module WorkMonitorThread.

Definition uint32 (z : Z) : Z := z mod 2 ^ 32.

Definition maxSleep : Z := 100 * 1000.
Definition minSleep : Z := 100.

(** The locals [s] and [x] of [run]. *)
Record Monitor := mkMonitor {
  s : Z;
  x : float
}.

(** What a pass does outside the monitor's memory: the deletions of the
    sweep, the status written to [std::cout], and the sleep. *)
Inductive Output :=
| Deleted (e : WorkMonitor.Event)
| PrintStatus
| Usleep (s : Z).

(** One pass through the body of [while (! _stopping)], with [y] what
    [TRI_microtime ()] returns in it: [found] is set when the queue of
    freeable descriptions gives at least one. *)
Definition pass (y : float) (m : Monitor) (st : WorkMonitor.State)
    : result (Monitor * WorkMonitor.State * list Output) :=
  let found :=
    match WorkMonitor.FREEABLE_WORK_DESCRIPTION st with
    | [] => false
    | _ :: _ => true
    end in
  bind_result (WorkMonitor.sweep st) (fun '(st', ev) =>
    let s' :=
      if found then minSleep
      else if (s m <? maxSleep)%Z then uint32 (s m * 2)
      else s m in
    let late := PrimFloat.ltb (PrimFloat.add (x m) 10%float) y in
    Ok (mkMonitor s' (if late then y else x m), st',
        map Deleted ev ++ (if late then [PrintStatus] else []) ++ [Usleep s'])).

(** The passes of the monitor between what the thread does. *)
Inductive Action :=
| MonitorPass (y : float)
| ThreadDoes (op : WorkMonitor.Operation).

Fixpoint run (actions : list Action) (m : Monitor) (st : WorkMonitor.State)
    : result (Monitor * WorkMonitor.State * list Output) :=
  match actions with
  | [] => Ok (m, st, [])
  | MonitorPass y :: rest =>
      bind_result (pass y m st) (fun '(m1, st1, out1) =>
      bind_result (run rest m1 st1) (fun '(m2, st2, out2) =>
      Ok (m2, st2, out1 ++ out2)))
  | ThreadDoes op :: rest =>
      bind_result (WorkMonitor.perform op st) (fun st1 => run rest m st1)
  end.

(** The sleeps of a trace. *)
Definition sleeps (out : list Output) : list Z :=
  omap (fun o => match o with Usleep u => Some u | _ => None end) out.

(** The passes among the actions, each with its reading of the clock. *)
Definition passes (actions : list Action) : list float :=
  omap (fun a => match a with MonitorPass y => Some y | _ => None end) actions.

(** The sleeps the loop can reach: 100 microseconds doubled up to ten
    times. *)
Definition backoff (u : Z) : Prop :=
  exists k : Z, (0 <= k <= 10)%Z /\ u = (100 * 2 ^ k)%Z.

End WorkMonitorThread.

(** ** RestSimpleHandler: the query a request is running
       (arangod/RestHandler/RestSimpleHandler.cpp) *)

Module RestSimpleHandler.

(** The members behind [_queryLock].  Every method below holds the lock
    from its first statement to its return, so a call is one step. *)
Record RestSimpleHandler := mkHandler {
  _query : pointer;
  _queryKilled : bool
}.

(** [_query->killed (true)] *)
Inductive Event :=
| EKilled (query : addr).

(** The constructor. *)
Definition RestSimpleHandler_new : RestSimpleHandler := mkHandler None false.

Definition registerQuery (query : pointer) (h : RestSimpleHandler)
    : result RestSimpleHandler :=
  if is_null (_query h) then Ok (mkHandler query (_queryKilled h))
  else AssertionFailed.

Definition unregisterQuery (h : RestSimpleHandler) : RestSimpleHandler :=
  mkHandler None (_queryKilled h).

Definition cancelQuery (h : RestSimpleHandler)
    : RestSimpleHandler * list Event * bool :=
  match _query h with
  | Some q => (mkHandler (_query h) true, [EKilled q], true)
  | None => (h, [], false)
  end.

Definition cancel (h : RestSimpleHandler)
    : RestSimpleHandler * list Event * bool :=
  cancelQuery h.

Definition wasCanceled (h : RestSimpleHandler) : bool := _queryKilled h.

(** The calls the thread of the request and the thread that cancels make,
    in the order the lock lets them in, and what an observer sees of them. *)
Inductive Call :=
| CallRegisterQuery (query : pointer)
| CallUnregisterQuery
| CallCancel.

Inductive Entry :=
| Registered (query : pointer)
| Unregistered
| Killed (query : addr)
| CancelReturned (r : bool).

Definition call (c : Call) (h : RestSimpleHandler)
    : result (RestSimpleHandler * list Entry) :=
  match c with
  | CallRegisterQuery q =>
      bind_result (registerQuery q h) (fun h' => Ok (h', [Registered q]))
  | CallUnregisterQuery => Ok (unregisterQuery h, [Unregistered])
  | CallCancel =>
      let '(h', ev, r) := cancel h in
      Ok (h', map (fun e => match e with EKilled q => Killed q end) ev
              ++ [CancelReturned r])
  end.

Fixpoint calls (cs : list Call) (h : RestSimpleHandler)
    : result (RestSimpleHandler * list Entry) :=
  match cs with
  | [] => Ok (h, [])
  | c :: cs =>
      bind_result (call c h) (fun '(h1, log1) =>
      bind_result (calls cs h1) (fun '(h2, log2) =>
      Ok (h2, log1 ++ log2)))
  end.

(** The query that is registered at the end of a log, read off the log
    alone: the one of the last [registerQuery] if no [unregisterQuery]
    came after it. *)
Definition registered_by (now : pointer) (e : Entry) : pointer :=
  match e with
  | Registered q => q
  | Unregistered => None
  | Killed _ | CancelReturned _ => now
  end.

Definition registered (log : list Entry) : pointer :=
  fold_left registered_by log None.

End RestSimpleHandler.

(** ** velocypack Collection: Collection.cpp *)

Module Collection.

#[local] Set Warnings "-register-all".

(** A Slice as far as Collection looks at it: the empty [Slice ()], an
    Array with its members, an Object with its attributes, or another
    value.  ArrayIterator and ObjectIterator (velocypack/Iterator.h) give
    the members of an Array and the attributes of an Object one after the
    other, which are the lists here, and a Builder that is given an Array
    or an Object, then values, then [close ()] holds these values in the
    order they were added. *)
Inductive Slice :=
| SNone
| SValue (v : Z)
| SArray (members : list Slice)
| SObject (attributes : list (string * Slice)).

Definition isNone (s : Slice) : bool :=
  match s with SNone => true | _ => false end.

Definition isObject (s : Slice) : bool :=
  match s with SObject _ => true | _ => false end.

(** *** Arrays: the loops over [it.valid ()], with [index] counted as the
        code counts it *)

Section Callback.

Variable cb : Slice -> Z -> bool.

(** [forEach]: the calls of [cb], up to the first that returns false. *)
Fixpoint forEach_from (members : list Slice) (index : Z) : list (Slice * Z) :=
  match members with
  | [] => []
  | s :: rest =>
      if cb s index then (s, index) :: forEach_from rest (index + 1)
      else [(s, index)]
  end.

Definition forEach (members : list Slice) : list (Slice * Z) :=
  forEach_from members 0.

Fixpoint filter_from (members : list Slice) (index : Z) : list Slice :=
  match members with
  | [] => []
  | s :: rest =>
      if cb s index then s :: filter_from rest (index + 1)
      else filter_from rest (index + 1)
  end.

Definition filter (members : list Slice) : Slice :=
  SArray (filter_from members 0).

Fixpoint find_from (members : list Slice) (index : Z) : Slice :=
  match members with
  | [] => SNone
  | s :: rest => if cb s index then s else find_from rest (index + 1)
  end.

Definition find (members : list Slice) : Slice := find_from members 0.

Fixpoint contains_from (members : list Slice) (index : Z) : bool :=
  match members with
  | [] => false
  | s :: rest => if cb s index then true else contains_from rest (index + 1)
  end.

Definition contains (members : list Slice) : bool := contains_from members 0.

Fixpoint all_from (members : list Slice) (index : Z) : bool :=
  match members with
  | [] => true
  | s :: rest => if negb (cb s index) then false else all_from rest (index + 1)
  end.

Definition all (members : list Slice) : bool := all_from members 0.

Fixpoint any_from (members : list Slice) (index : Z) : bool :=
  match members with
  | [] => false
  | s :: rest => if cb s index then true else any_from rest (index + 1)
  end.

Definition any (members : list Slice) : bool := any_from members 0.

End Callback.

(** [map]: the callback gives the value to add. *)
Fixpoint map_from (cb : Slice -> Z -> Slice) (members : list Slice) (index : Z)
    : list Slice :=
  match members with
  | [] => []
  | s :: rest => cb s index :: map_from cb rest (index + 1)
  end.

Definition map (cb : Slice -> Z -> Slice) (members : list Slice) : Slice :=
  SArray (map_from cb members 0).

(** *** Objects *)

Definition keys (attributes : list (string * Slice)) : list string :=
  List.map fst attributes.

Definition values (attributes : list (string * Slice)) : Slice :=
  SArray (List.map snd attributes).

(** [ToSet] *)
Definition ToSet (keys : list string) : gset string := list_to_set keys.

(** [keep (slice, std::unordered_set<std::string> const&)] *)
Definition keep_set (attributes : list (string * Slice)) (keys : gset string)
    : Slice :=
  SObject (List.filter (fun kv => bool_decide (kv.1 ∈ keys)) attributes).

(** [keep (slice, std::vector<std::string> const&)]; [std::find] goes
    through the vector. *)
Definition keep (attributes : list (string * Slice)) (keys : list string)
    : Slice :=
  if ((4 <=? Z.of_nat (length keys)) && (10 <? Z.of_nat (length attributes)))%Z
  then keep_set attributes (ToSet keys)
  else SObject (List.filter (fun kv => bool_decide (kv.1 ∈ keys)) attributes).

Definition remove_set (attributes : list (string * Slice)) (keys : gset string)
    : Slice :=
  SObject (List.filter (fun kv => negb (bool_decide (kv.1 ∈ keys))) attributes).

Definition remove (attributes : list (string * Slice)) (keys : list string)
    : Slice :=
  if ((4 <=? Z.of_nat (length keys)) && (10 <? Z.of_nat (length attributes)))%Z
  then remove_set attributes (ToSet keys)
  else SObject
         (List.filter (fun kv => negb (bool_decide (kv.1 ∈ keys))) attributes).

(** *** merge *)

(** [rightValues.emplace (key, value)] leaves a key that is there alone. *)
Definition emplace (kv : string * Slice) (m : gmap string Slice)
    : gmap string Slice :=
  match m !! kv.1 with
  | Some _ => m
  | None => <[kv.1 := kv.2]> m
  end.

Definition rightValues_of (attributes : list (string * Slice))
    : gmap string Slice :=
  fold_left (fun m kv => emplace kv m) attributes ∅.

(** The loop over the attributes of [left]: [rightValues] is the map and
    [b] what the Builder holds; [submerge] is the call of [merge] for two
    values that are objects.  [None] is a thrown exception. *)
Definition left_loop (submerge : Slice -> Slice -> option Slice)
    (mergeValues : bool)
    : list (string * Slice) -> gmap string Slice -> list (string * Slice) ->
      option (gmap string Slice * list (string * Slice)) :=
  fix loop attributes rightValues b :=
    match attributes with
    | [] => Some (rightValues, b)
    | (key, value) :: rest =>
        match rightValues !! key with
        | None => loop rest rightValues (b ++ [(key, value)])
        | Some found =>
            if mergeValues && isObject value && isObject found then
              match submerge value found with
              | Some sub => loop rest rightValues (b ++ [(key, sub)])
              | None => None
              end
            else
              loop rest (<[key := SNone]> rightValues) (b ++ [(key, found)])
        end
    end.

(** The value the loop adds for an attribute of [left] when values are not
    merged: the one of [right] if [right] has the key; and what the loop
    leaves in [rightValues] for a key it has used. *)
Definition override (rightValues : gmap string Slice) (kv : string * Slice)
    : string * Slice :=
  (kv.1, default kv.2 (rightValues !! kv.1)).

Definition cleared (found : option Slice) : option Slice :=
  match found with
  | Some _ => Some SNone
  | None => None
  end.

(** [submerge] returns for the values of [ls] that are Objects. *)
Definition returns_on (submerge : Slice -> Slice -> option Slice)
    (ls : list (string * Slice)) : Prop :=
  Forall (fun kv => forall found, isObject kv.2 = true -> isObject found = true ->
                                  is_Some (submerge kv.2 found)) ls.

Section Merge.

(** The order in which the [for] loop goes through the unordered map. *)
Variable iteration : gmap string Slice -> list (string * Slice).

(** [merge]; [None] is the exception InvalidValueType. *)
Fixpoint merge (left right : Slice) (mergeValues : bool) {struct left}
    : option Slice :=
  match left, right with
  | SObject ls, SObject rs =>
      match left_loop (fun value found => merge value found true)
                      mergeValues ls (rightValues_of rs) [] with
      | Some (rightValues, b) =>
          Some (SObject
                  (b ++ List.filter (fun kv => negb (isNone kv.2))
                                    (iteration rightValues)))
      | None => None
      end
  | _, _ => None
  end.

End Merge.

End Collection.

(** * Properties *)

(** ** HttpServerJob *)

Section HttpServerJobFacts.

Import HttpServerJob.

(** Membership of an event in an explicit trace that holds no such event. *)
Ltac not_in_trace :=
  let H := fresh "H" in
  simpl; intros H;
  repeat (apply elem_of_cons in H as [H | H]; [discriminate H |]);
  now apply elem_of_nil in H.

(** C1.  A job that is not detached publishes nothing to the
    AsyncJobManager in [cleanup]; with a task it hands the handler to the task
    ([setHandler], then the job's handler is null) and then signals it, once
    each, and when the statement that signals is reached the handler has been
    handed over and the job's handler is null; without a task it neither hands over nor signals, keeps its handler,
    and the destructor releases that handler (inside [cleanup] when this call
    deletes the job).  A detached job publishes itself with [finishAsyncJob],
    once, and calls nothing on a task. *)
Theorem cleanup_decides_handoff (j : Job) :
  (isDetached j = false ->
     (EFinishAsyncJob ∉ events (cleanup j)) /\
     (forall t, _task j = Some t ->
        exists rest,
          events (cleanup j) = ESetHandler t (_handler j) :: ESignal t :: rest /\
          (forall t' h', (ESetHandler t' h' ∉ rest) /\ (ESignal t' ∉ rest)) /\
          _handler (job_after (cleanup j)) = None /\
          exists s,
            run (repeat Dispatcher 5) (start j) = Some s /\
            cpc s = C_signal /\
            trace s = [ESetHandler t (_handler j)] /\
            _handler (job s) = None) /\
     (_task j = None ->
        (forall t h, (ESetHandler t h ∉ events (cleanup j)) /\
                     (ESignal t ∉ events (cleanup j))) /\
        _handler (job_after (cleanup j)) = _handler j /\
        (forall h, _handler j = Some h ->
           destructor (job_after (cleanup j)) = [EReleaseHandler h] /\
           (deleted (cleanup j) = true ->
              exists before, events (cleanup j) =
                             before ++ [EDeleteThis; EReleaseHandler h])))) /\
  (isDetached j = true ->
     (exists rest, events (cleanup j) = EFinishAsyncJob :: rest /\
                   (EFinishAsyncJob ∉ rest)) /\
     (forall t h, (ESetHandler t h ∉ events (cleanup j)) /\
                  (ESignal t ∉ events (cleanup j))) /\
     _task (job_after (cleanup j)) = _task j /\
     _handler (job_after (cleanup j)) = _handler j).
Proof.
  destruct j as [srv h t rc fl det].
  unfold cleanup, release_reference, destructor, isDetached. simpl.
  split; intros ->; simpl.
  - split; [| split].
    + destruct t, (rc - 1 =? 0)%Z, h; not_in_trace.
    + intros t' [= ->]. destruct (rc - 1 =? 0)%Z; simpl;
        (eexists; split; [reflexivity |];
         split; [| split; [reflexivity | eexists; repeat split]]);
        intros; split; not_in_trace.
    + intros ->. split; [| split].
      * intros; split; destruct (rc - 1 =? 0)%Z, h; not_in_trace.
      * now destruct (rc - 1 =? 0)%Z.
      * intros h' [= ->]. destruct (rc - 1 =? 0)%Z; simpl.
        -- split; [reflexivity |]. intros _. now exists [ERemoveJob].
        -- split; [reflexivity |]. discriminate.
  - split; [| split; [| split]].
    + destruct (rc - 1 =? 0)%Z, h; simpl;
        (eexists; split; [reflexivity |]); not_in_trace.
    + intros; split; destruct (rc - 1 =? 0)%Z, h; not_in_trace.
    + now destruct (rc - 1 =? 0)%Z.
    + now destruct (rc - 1 =? 0)%Z.
Qed.

(** C1 at a job with a task (handed over, then signalled), and at a
    detached job (published). *)
Lemma cleanup_decides_handoff_witness :
  (exists rest,
     events (cleanup (mkJob (Some 1) (Some 2) (Some 3) 2 false false))
       = ESetHandler 3 (Some 2) :: ESignal 3 :: rest) /\
  (exists rest,
     events (cleanup (mkJob (Some 1) (Some 2) None 1 false true))
       = EFinishAsyncJob :: rest).
Proof.
  split.
  - destruct (proj1 (cleanup_decides_handoff
                       (mkJob (Some 1) (Some 2) (Some 3) 2 false false)) eq_refl)
      as (_ & Ht & _).
    destruct (Ht 3 eq_refl) as (rest & Hev & _). now exists rest.
  - destruct (proj2 (cleanup_decides_handoff
                       (mkJob (Some 1) (Some 2) None 1 false true)) eq_refl)
      as ((rest & Hev & _) & _).
    now exists rest.
Defined.

(** *** The statement-by-statement run agrees with the method run alone *)

Lemma cleanup_alone (j : Job) :
  exists n s,
    run (repeat Dispatcher n) (start j) = Some s /\
    cpc s = C_returned /\
    job s = job_after (cleanup j) /\
    trace s = events (cleanup j) /\
    freed s = deleted (cleanup j).
Proof.
  destruct j as [srv h t rc fl det].
  destruct det; [exists 4 | destruct t; [exists 9 | exists 6]];
    unfold cleanup, release_reference, isDetached; simpl;
    unfold release_step; simpl;
    destruct (rc - 1 =? 0)%Z; simpl; eexists; repeat split.
Qed.

(** *** Reference counting *)

Lemma constructed_counts srv h t j :
  HttpServerJob srv h t = Ok j ->
  _refCount j = (if _isDetached j then 1 else 2)%Z /\
  _isInCleanup j = false /\
  _isDetached j = is_null t /\
  _task j = t /\ _handler j = h /\ _server j = srv /\
  h <> None /\ srv <> None.
Proof.
  unfold HttpServerJob. simpl.
  destruct srv; simpl; [| discriminate].
  destruct h; simpl; [| discriminate].
  intros [= <-]. simpl. destruct t; simpl; repeat split; discriminate.
Qed.

Lemma counted_start j :
  _refCount j = (if _isDetached j then 1 else 2)%Z -> counted j (start j).
Proof.
  intros Hrc. unfold counted, start, released, isDetached. simpl.
  destruct (_isDetached j); simpl; rewrite Hrc;
    repeat split; try discriminate; try lia; auto.
Qed.

Lemma counted_step j s s' :
  _refCount j = (if _isDetached j then 1 else 2)%Z ->
  counted j s -> step s s' -> counted j s'.
Proof.
  intros Hrc (Hc & Hf & Hcf & Hsf & Hd & Hn & Hn') [th Hstep].
  destruct s as [[srv h t rc fl det] c p tr fr].
  unfold released in Hc. simpl in *. subst det.
  destruct th; simpl in Hstep.
  - unfold cleanup_step in Hstep. simpl in Hstep.
    destruct c; try discriminate; try congruence;
      destruct fr;
      try (exfalso; destruct (_isDetached j);
           [ specialize (Hn eq_refl); subst p
           | destruct p; try congruence ];
           repeat case_decide; try congruence;
           destruct Hf as [Hf _]; specialize (Hf eq_refl); lia);
      simpl in Hstep;
      try (destruct t; simpl in Hstep);
      try (destruct (_isDetached j) eqn:Hdj; simpl in Hstep);
      injection Hstep as <-;
      unfold counted, released, release_step; simpl;
      try (destruct (rc - 1 =? 0)%Z eqn:Hz;
           [apply Z.eqb_eq in Hz | apply Z.eqb_neq in Hz]; simpl);
      repeat case_decide; try congruence;
      repeat split; auto; try congruence; try lia;
      try (intros; lia); try (intros; congruence);
      try (rewrite Hdj; auto); try (intros; discriminate);
      try (intros Hx; apply Hf in Hx; lia).
  - unfold shutdown_step in Hstep. simpl in Hstep.
    destruct p; try discriminate; try congruence;
      destruct fr;
      try (exfalso; destruct (_isDetached j);
           [ specialize (Hn eq_refl); congruence |];
           repeat case_decide; try congruence;
           destruct Hf as [Hf _]; specialize (Hf eq_refl); lia);
      simpl in Hstep;
      try (destruct fl; simpl in Hstep);
      injection Hstep as <-;
      unfold counted, released, release_step; simpl;
      try (destruct (rc - 1 =? 0)%Z eqn:Hz;
           [apply Z.eqb_eq in Hz | apply Z.eqb_neq in Hz]; simpl);
      repeat case_decide; try congruence;
      repeat split; auto; try congruence; try lia;
      try (intros; lia); try (intros; congruence);
      try (intros; discriminate);
      try (intros Hx; apply Hf in Hx; lia);
      try (intros Hx; specialize (Hn Hx); discriminate).
Qed.

Lemma counted_reachable j s :
  _refCount j = (if _isDetached j then 1 else 2)%Z ->
  rtc step (start j) s -> counted j s.
Proof.
  intros Hrc Hs. revert s Hs. apply rtc_ind_r.
  - now apply counted_start.
  - intros s s' _ Hstep IH. eapply counted_step; eauto.
Qed.

Lemma run_reachable sched s s' :
  run sched s = Some s' -> rtc step s s'.
Proof.
  revert s. induction sched as [| th sched IH]; intros s; simpl.
  - intros [= ->]. apply rtc_refl.
  - destruct (thread_step th s) as [s1 |] eqn:Hth; [| discriminate].
    intros Hrun. eapply rtc_l; [exists th; exact Hth | now apply IH].
Qed.

(** C2.  [cleanup] and [beginShutdown] each take one off the reference
    count, and a call deletes the job exactly when it leaves the count at
    zero.  A job with a task starts at 2 and is deleted by the second of the
    two calls, whichever comes first; a detached job starts at 1 and is
    deleted by [cleanup].  However the statements of the two calls
    interleave, the count is the initial one less the calls that have
    returned, the job is freed exactly when the count is zero, and no call
    touches a freed job. *)
Theorem reference_count_deletes_job :
  (forall j,
     _refCount (job_after (cleanup j)) = (_refCount j - 1)%Z /\
     (deleted (cleanup j) = true <-> _refCount (job_after (cleanup j)) = 0%Z)) /\
  (forall j, _isInCleanup j = false ->
     exists o, beginShutdown j = ShutdownReturns o /\
       _refCount (job_after o) = (_refCount j - 1)%Z /\
       (deleted o = true <-> _refCount (job_after o) = 0%Z)) /\
  (forall srv h t,
     exists j, HttpServerJob (Some srv) (Some h) (Some t) = Ok j /\
       _refCount j = 2%Z /\
       deleted (cleanup j) = false /\
       (exists o, beginShutdown (job_after (cleanup j)) = ShutdownReturns o /\
                  deleted o = true) /\
       (exists o, beginShutdown j = ShutdownReturns o /\
                  deleted o = false /\
                  deleted (cleanup (job_after o)) = true)) /\
  (forall srv h,
     exists j, HttpServerJob (Some srv) (Some h) None = Ok j /\
       _refCount j = 1%Z /\
       deleted (cleanup j) = true) /\
  (forall srv h t j s,
     HttpServerJob srv h t = Ok j ->
     rtc step (start j) s ->
     _refCount (job s) = (_refCount j - released s)%Z /\
     (freed s = true <-> _refCount (job s) = 0%Z) /\
     cpc s <> C_freed /\ spc s <> S_freed).
Proof.
  split; [| split; [| split; [| split]]].
  - intros [srv h t rc fl det].
    unfold cleanup, release_reference, isDetached. simpl.
    destruct det, t; simpl;
      (destruct (rc - 1 =? 0)%Z eqn:Hz;
       [apply Z.eqb_eq in Hz | apply Z.eqb_neq in Hz]; simpl;
       (split; [reflexivity | split; congruence])).
  - intros [srv h t rc fl det]. simpl. intros ->.
    unfold beginShutdown, release_reference. simpl.
    destruct (rc - 1 =? 0)%Z eqn:Hz;
      [apply Z.eqb_eq in Hz | apply Z.eqb_neq in Hz]; simpl;
      (eexists; (split; [reflexivity |]); simpl;
       (split; [reflexivity | split; congruence])).
  - intros srv h t. eexists. split; [reflexivity |]. simpl.
    repeat split; eexists; repeat split; reflexivity.
  - intros srv h. eexists. split; [reflexivity |]. now simpl.
  - intros srv h t j s Hj Hs.
    apply constructed_counts in Hj as (Hrc & _).
    destruct (counted_reachable j s Hrc Hs) as (H1 & H2 & H3 & H4 & _).
    auto.
Qed.

(** C2 for the job built for server 1, handler 2 and task 3, with
    [beginShutdown] running to its end between two statements of
    [cleanup]. *)
Lemma reference_count_deletes_job_witness :
  exists s,
    run [Dispatcher; Scheduler; Scheduler; Scheduler;
         Dispatcher; Dispatcher; Dispatcher; Dispatcher; Dispatcher]
        (start (mkJob (Some 1) (Some 2) (Some 3) 2 false false)) = Some s /\
    _refCount (job s) = (2 - released s)%Z /\
    (freed s = true <-> _refCount (job s) = 0%Z).
Proof.
  eexists. split; [reflexivity |].
  match goal with
  | |- _refCount (job ?s) = _ /\ _ =>
      destruct (proj2 (proj2 (proj2 (proj2 reference_count_deletes_job)))
                  (Some 1) (Some 2) (Some 3)
                  (mkJob (Some 1) (Some 2) (Some 3) 2 false false) s eq_refl
                  (run_reachable
                     [Dispatcher; Scheduler; Scheduler; Scheduler;
                      Dispatcher; Dispatcher; Dispatcher; Dispatcher; Dispatcher]
                     (start (mkJob (Some 1) (Some 2) (Some 3) 2 false false))
                     s eq_refl)) as (H1 & H2 & _)
  end.
  split; [exact H1 | exact H2].
Defined.

(** C3.  The wait of [beginShutdown] and its write to [_task] are two
    statements.  For the job built for server 1, handler 2 and task 3:
    [beginShutdown] reads the flag while it is still false and leaves its
    loop; [cleanup] then sets the flag and finds [_task] non-null; now
    [beginShutdown] nulls [_task] although the flag is set, and the hand-over
    of [cleanup] goes through a null [_task]. *)
Theorem beginShutdown_nulls_task_during_cleanup :
  exists j s s' s'',
    HttpServerJob (Some 1) (Some 2) (Some 3) = Ok j /\
    run [Scheduler; Dispatcher; Dispatcher; Dispatcher] (start j) = Some s /\
    rtc step (start j) s /\
    _isInCleanup (job s) = true /\
    cpc s = C_setHandler /\
    _task (job s) = Some 3 /\
    shutdown_step s = Some s' /\
    _isInCleanup (job s') = true /\
    _task (job s') = None /\
    cleanup_step s' = Some s'' /\
    cpc s'' = C_nullTask.
Proof.
  do 4 eexists.
  split; [reflexivity |].
  split; [reflexivity |].
  split; [apply (run_reachable [Scheduler; Dispatcher; Dispatcher; Dispatcher]);
          reflexivity |].
  repeat split.
Qed.

(** What the wait does guarantee: while the flag is set, a [beginShutdown]
    that is still in its loop stays there and leaves [_task] alone; and
    [_task] is only written by the statement behind the loop. *)
Lemma beginShutdown_waits_while_flag_set s :
  spc s = S_wait -> freed s = false -> _isInCleanup (job s) = true ->
  shutdown_step s = Some (emit [EUsleep] s).
Proof.
  intros Hp Hf Hc. unfold shutdown_step. now rewrite Hp, Hf, Hc.
Qed.

Lemma beginShutdown_writes_task_after_loop s s' :
  shutdown_step s = Some s' -> _task (job s') <> _task (job s) ->
  spc s = S_clearTask.
Proof.
  unfold shutdown_step.
  destruct s as [[srv h t rc fl det] c p tr fr]. simpl.
  destruct p, fr; try discriminate; simpl; try (intros [= <-]; simpl; congruence).
  - destruct fl; intros [= <-]; simpl; congruence.
  - intros [= <-]. unfold release_step. simpl.
    destruct (rc - 1 =? 0)%Z; simpl; congruence.
Qed.

Lemma call_keeps_detached m j : _isDetached (call m j) = _isDetached j.
Proof.
  destruct j as [srv h t rc fl det].
  destruct m; simpl; auto.
  - unfold cleanup, release_reference, isDetached. simpl.
    destruct det, t; simpl; now destruct (rc - 1 =? 0)%Z.
  - unfold beginShutdown, release_reference. simpl.
    destruct fl; simpl; auto. now destruct (rc - 1 =? 0)%Z.
Qed.

Lemma calls_keep_detached ms j : _isDetached (calls ms j) = _isDetached j.
Proof.
  revert j. induction ms as [| m ms IH]; intros j; simpl; auto.
  unfold calls in IH. rewrite IH. apply call_keeps_detached.
Qed.

(** C4.  The constructor fixes the detached flag and the first reference
    count from its task argument: detached and 1 for a null task, not
    detached and 2 otherwise.  No sequence of calls of the job's methods and
    no interleaving of the statements of [cleanup] and [beginShutdown]
    changes the flag. *)
Theorem detached_flag_is_fixed (server handler task : pointer) (j : Job) :
  HttpServerJob server handler task = Ok j ->
  (isDetached j = true <-> task = None) /\
  (_refCount j = 1%Z <-> task = None) /\
  (task <> None -> isDetached j = false /\ _refCount j = 2%Z) /\
  (forall ms, isDetached (calls ms j) = isDetached j) /\
  (forall s, rtc step (start j) s -> isDetached (job s) = isDetached j).
Proof.
  intros Hj.
  pose proof (constructed_counts _ _ _ _ Hj) as (Hrc & _ & Hd & _).
  unfold isDetached. rewrite Hrc, Hd.
  split; [| split; [| split; [| split]]].
  - destruct task; simpl; split; congruence.
  - destruct task; simpl; split; congruence.
  - destruct task; simpl; [auto | congruence].
  - intros ms. rewrite <- Hd. apply calls_keep_detached.
  - intros s Hs. rewrite <- Hd.
    now destruct (counted_reachable j s Hrc Hs) as (_ & _ & _ & _ & H & _).
Qed.

(** C4 for a job built with task 3 and for one built without a task, each
    after [work], [cleanup] and [beginShutdown]. *)
Lemma detached_flag_is_fixed_witness :
  isDetached (calls [MWork; MCleanup; MBeginShutdown]
                (mkJob (Some 1) (Some 2) (Some 3) 2 false false)) = false /\
  isDetached (calls [MWork; MCleanup]
                (mkJob (Some 1) (Some 2) None 1 false true)) = true.
Proof.
  split.
  - destruct (detached_flag_is_fixed (Some 1) (Some 2) (Some 3) _ eq_refl)
      as (_ & _ & _ & H & _).
    exact (H [MWork; MCleanup; MBeginShutdown]).
  - destruct (detached_flag_is_fixed (Some 1) (Some 2) None _ eq_refl)
      as (_ & _ & _ & H & _).
    exact (H [MWork; MCleanup]).
Defined.

(** C5.  Once [work] gets as far as calling [execute], [finalizeExecute] is
    called exactly once, directly after [execute]: when [execute] throws, the
    call is made and [work] then ends with an exception (the one of
    [execute], unless [finalizeExecute] throws one of its own); when
    [execute] returns, the call is made and [work] returns the job status of
    the handler's status.  A job that is not detached and whose task is
    already null returns [JOB_DONE] with neither [prepareExecute] nor
    [execute] called. *)
Theorem work_finalizes_execute (jobStatus : HandlerStatus -> JobStatus)
    (j : Job) (hb : HandlerBehaviour) (h : addr) :
  _handler j = Some h ->
  (negb (isDetached j) && is_null (_task j) = false ->
   prepare_throws hb = None ->
     (exists before after,
        (work jobStatus j hb).1 =
          before ++ EExecute h :: EFinalizeExecute h :: after /\
        (EFinalizeExecute h ∉ before) /\ (EFinalizeExecute h ∉ after)) /\
     (forall e, execute_result hb = inr e ->
        exists e', (work jobStatus j hb).2 = WorkThrows e' /\
                   (finalize_throws hb = None -> e' = e)) /\
     (forall st, execute_result hb = inl st ->
        finalize_throws hb = None ->
        (work jobStatus j hb).2 = WorkReturns (jobStatus st))) /\
  (isDetached j = false -> _task j = None ->
     (work jobStatus j hb).2 = WorkReturns JOB_DONE /\
     (EPrepareExecute h ∉ (work jobStatus j hb).1) /\
     (EExecute h ∉ (work jobStatus j hb).1)).
Proof.
  intros Hh. unfold work. rewrite Hh. split.
  - intros -> ->. split; [| split].
    + destruct (execute_result hb) as [st | e], (finalize_throws hb); simpl;
        (exists [EPushHandler h; ETransfer h; ESetRequestStart h; EPrepareExecute h]);
        eexists; (split; [reflexivity |]); split; not_in_trace.
    + intros e ->. destruct (finalize_throws hb); simpl;
        eexists; (split; [reflexivity |]); congruence.
    + now intros st -> ->.
  - unfold isDetached. intros -> ->. simpl. repeat split; not_in_trace.
Qed.

(** C5 at a handler whose [execute] throws exception 7, in a job with a
    task. *)
Lemma work_finalizes_execute_witness :
  exists e', (work (fun _ => JOB_DONE)
                (mkJob (Some 1) (Some 2) (Some 3) 2 false false)
                (Build_HandlerBehaviour None (inr 7) None)).2 = WorkThrows e' /\
             e' = 7.
Proof.
  destruct (work_finalizes_execute (fun _ => JOB_DONE)
              (mkJob (Some 1) (Some 2) (Some 3) 2 false false)
              (Build_HandlerBehaviour None (inr 7) None) 2 eq_refl)
    as (H & _).
  destruct (H eq_refl eq_refl) as (_ & Hthrow & _).
  destruct (Hthrow 7 eq_refl) as (e' & He & Heq).
  exists e'. split; [exact He | exact (Heq eq_refl)].
Defined.

End HttpServerJobFacts.

(** ** SchedulerThread *)

Section SchedulerThreadFacts.

Import SchedulerThread.

Variable setupTask : pointer -> pointer -> EventLoop -> bool.

Lemma execute_work_keeps w t :
  let t' := (execute_work setupTask w t).1 in
  _stopping t' = _stopping t /\ _loop t' = _loop t /\ _queue t' = _queue t /\
  _hasWork t' = _hasWork t /\ _stopped t' = _stopped t.
Proof.
  unfold execute_work.
  destruct (work w); simpl; auto.
  destruct (setupTask _ _ _); simpl; auto.
Qed.

Lemma drain_keeps q t :
  let t' := (drain setupTask q t).1 in
  _stopping t' = _stopping t /\ _loop t' = _loop t /\ _queue t' = [] /\
  _hasWork t' = _hasWork t /\ _stopped t' = _stopped t.
Proof.
  revert t. induction q as [| w q IH]; intros t; simpl; auto.
  destruct (execute_work setupTask w (set_queue q t)) as [t1 ev1] eqn:Hw.
  pose proof (execute_work_keeps w (set_queue q t)) as Hk.
  rewrite Hw in Hk. simpl in Hk. destruct Hk as (K1 & K2 & K3 & K4 & K5).
  specialize (IH t1).
  destruct (drain setupTask q t1) as [t2 ev2]. simpl in *.
  destruct IH as (I1 & I2 & I3 & I4 & I5).
  repeat split; congruence.
Qed.

(** Every queued SETUP command is run by the command loop. *)
Lemma drain_runs_setup q t w :
  w ∈ q -> work w = SETUP ->
  ESetupTask (task w) (scheduler w) (_loop t) ∈ (drain setupTask q t).2.
Proof.
  revert t. induction q as [| w' q IH]; intros t Hin Hw.
  - now apply elem_of_nil in Hin.
  - simpl.
    destruct (execute_work setupTask w' (set_queue q t)) as [t1 ev1] eqn:Hx.
    pose proof (execute_work_keeps w' (set_queue q t)) as Hk.
    rewrite Hx in Hk. simpl in Hk. destruct Hk as (_ & K2 & _).
    specialize (IH t1).
    destruct (drain setupTask q t1) as [t2 ev2]. simpl in *.
    do 3 apply list_elem_of_further. apply elem_of_app.
    apply elem_of_cons in Hin as [<- | Hin].
    + left. unfold execute_work in Hx. rewrite Hw in Hx.
      destruct (setupTask _ _ _); injection Hx as <- <-; apply list_elem_of_here.
    + right. rewrite <- K2. now apply IH.
Qed.

(** C6.  [registerTask] on a stopped thread returns false and leaves
    everything as it is.  Called on the loop's own thread it sets the task up
    on the spot and returns what the setup returned: one more task on
    success, the task cleaned up and deleted on failure.  Called from another
    thread it takes the queue lock, appends the command
    [{SETUP, scheduler, task}] behind what is queued, sets the has-work flag,
    wakes the loop and returns true; the command loop of [run] then empties
    the queue and runs that setup. *)
Theorem registerTask_mounts_or_enqueues (t : SchedulerThread)
    (currentThreadId : nat) (sched tsk : addr) :
  (_stopped t = true ->
     registerTask setupTask t currentThreadId (Some sched) (Some tsk)
       = Ok (mkRegistered t [] false)) /\
  (_stopped t = false -> threadId t = currentThreadId ->
     (setupTask (Some tsk) (Some sched) (_loop t) = true ->
        registerTask setupTask t currentThreadId (Some sched) (Some tsk)
          = Ok (mkRegistered (set_numberTasks (_numberTasks t + 1)%Z t)
                  [ESetupTask (Some tsk) (Some sched) (_loop t)] true)) /\
     (setupTask (Some tsk) (Some sched) (_loop t) = false ->
        registerTask setupTask t currentThreadId (Some sched) (Some tsk)
          = Ok (mkRegistered t
                  [ESetupTask (Some tsk) (Some sched) (_loop t);
                   ELogWarning "In SchedulerThread::registerTask setupTask has failed";
                   ECleanupTask (Some tsk); EDeleteTask (Some tsk)] false))) /\
  (_stopped t = false -> threadId t <> currentThreadId ->
     let w := mkWork SETUP (Some sched) (Some tsk) in
     let t' := set_hasWork true (set_queue (_queue t ++ [w]) t) in
     registerTask setupTask t currentThreadId (Some sched) (Some tsk)
       = Ok (mkRegistered t'
               [ELock; EPushBack w; EWakeupLoop (Some sched) (_loop t); EUnlock]
               true) /\
     _queue (drain_commands setupTask t').1 = [] /\
     ESetupTask (Some tsk) (Some sched) (_loop t)
       ∈ (drain_commands setupTask t').2).
Proof.
  unfold registerTask. split; [| split].
  - now intros ->.
  - intros -> <-. simpl. rewrite Nat.eqb_refl.
    split; now intros ->.
  - intros -> Hne. simpl.
    apply Nat.eqb_neq in Hne. rewrite Hne.
    split; [reflexivity |].
    unfold drain_commands. simpl. split.
    + apply drain_keeps.
    + pose proof (drain_runs_setup
                    (_queue t ++ [mkWork SETUP (Some sched) (Some tsk)])
                    (set_hasWork true
                       (set_queue
                          (_queue t ++ [mkWork SETUP (Some sched) (Some tsk)]) t))
                    (mkWork SETUP (Some sched) (Some tsk))) as Hrun.
      simpl in Hrun. apply Hrun; [| reflexivity].
      apply elem_of_app. right. apply list_elem_of_here.
Qed.



End SchedulerThreadFacts.

Section SchedulerThreadExamples.

Import SchedulerThread.

(** C6 on the thread of id 5 with loop 0: called by thread 5 itself with a
    setup that succeeds, and called by thread 6. *)
Lemma registerTask_mounts_or_enqueues_witness :
  registerTask (fun _ _ _ => true)
      (SchedulerThread_new (Some 1) 0 false 5) 5 (Some 1) (Some 8)
    = Ok (mkRegistered
            (set_numberTasks 1
               (SchedulerThread_new (Some 1) 0 false 5))
            [ESetupTask (Some 8) (Some 1) 0] true) /\
  (exists r,
     registerTask (fun _ _ _ => true)
       (SchedulerThread_new (Some 1) 0 false 5) 6 (Some 1) (Some 8) = Ok r /\
     returned r = true /\
     _queue (thread_after r) = [mkWork SETUP (Some 1) (Some 8)]).
Proof.
  destruct (registerTask_mounts_or_enqueues (fun _ _ _ => true)
              (SchedulerThread_new (Some 1) 0 false 5) 5 1 8)
    as (_ & Hsame & _).
  destruct (registerTask_mounts_or_enqueues (fun _ _ _ => true)
              (SchedulerThread_new (Some 1) 0 false 5) 6 1 8)
    as (_ & _ & Hother).
  split.
  - exact (proj1 (Hsame eq_refl eq_refl) eq_refl).
  - destruct (Hother eq_refl ltac:(discriminate)) as (Hreg & _).
    eexists. split; [exact Hreg |]. split; reflexivity.
Defined.



End SchedulerThreadExamples.

(** ** WorkMonitor *)

Section WorkMonitorFacts.
Import WorkMonitor.

Lemma createWorkDescription_inv ty s d s1 :
  createWorkDescription ty s = Ok (d, s1) ->
  exists t cur data rest,
    CURRENT_THREAD s = Some t /\
    threads s !! t = Some cur /\
    s1 = mkState (<[d := mkDesc ty true cur data]> (descriptions s))
                 (threads s) (CURRENT_THREAD s) (THREADS s)
                 rest (FREEABLE_WORK_DESCRIPTION s) /\
    ((EMPTY_WORK_DESCRIPTION s = d :: rest /\ is_Some (descriptions s !! d)) \/
     (EMPTY_WORK_DESCRIPTION s = [] /\ rest = [] /\ descriptions s !! d = None)).
Proof.
  unfold createWorkDescription, workDescription.
  destruct s as [m ths ct TS em fr]. simpl.
  destruct em as [| d0 rest].
  - destruct ct as [t |]; simpl; [| discriminate].
    destruct (ths !! t) as [cur |] eqn:Ht; simpl; [| discriminate].
    intros [= <- <-]. exists t, cur, None, [].
    split; [reflexivity |]. split; [exact Ht |]. split; [reflexivity |].
    right. split; [reflexivity |]. split; [reflexivity |].
    apply not_elem_of_dom. apply is_fresh.
  - destruct (m !! d0) as [old |] eqn:Hd; [| discriminate].
    destruct ct as [t |]; simpl; [| discriminate].
    destruct (ths !! t) as [cur |] eqn:Ht; simpl; [| discriminate].
    intros [= <- <-]. exists t, cur, (_data old), rest.
    split; [reflexivity |]. split; [exact Ht |]. split; [reflexivity |].
    left. split; [reflexivity |]. rewrite Hd. eauto.
Qed.

Lemma pushHandler_inv h s s' :
  pushHandler h s = Ok s' ->
  exists t cur d rest,
    CURRENT_THREAD s = Some t /\
    threads s !! t = Some cur /\
    s' = mkState (<[d := mkDesc HANDLER true cur h]> (descriptions s))
                 (<[t := Some d]> (threads s)) (Some t) (THREADS s)
                 rest (FREEABLE_WORK_DESCRIPTION s) /\
    ((EMPTY_WORK_DESCRIPTION s = d :: rest /\ is_Some (descriptions s !! d)) \/
     (EMPTY_WORK_DESCRIPTION s = [] /\ rest = [] /\ descriptions s !! d = None)).
Proof.
  unfold pushHandler.
  destruct (createWorkDescription HANDLER s) as [[d s1] | |] eqn:Hc;
    simpl; try discriminate.
  apply createWorkDescription_inv in Hc as (t & cur & data & rest & Hct & Ht & -> & Hq).
  unfold write_desc. simpl. rewrite lookup_insert_eq. simpl.
  unfold activateWorkDescription, setWorkDescription, set_descriptions. simpl.
  rewrite Hct, Ht. intros [= <-].
  exists t, cur, d, rest.
  split; [reflexivity |]. split; [exact Ht |]. split; [| exact Hq].
  unfold set_threads, set_data. simpl. now rewrite insert_insert_eq.
Qed.

(** A pop directly after a push, in any memory in which the push went
    through. *)
Lemma pop_after_push (handler : pointer) (s s1 : State) :
  pushHandler handler s = Ok s1 ->
  exists s2,
    popHandler handler s1 = Ok s2 /\
    workDescription s2 = workDescription s /\
    threads s2 = threads s /\
    CURRENT_THREAD s2 = CURRENT_THREAD s.
Proof.
  intros Hp.
  apply pushHandler_inv in Hp as (t & cur & d & rest & Hct & Ht & -> & _).
  unfold popHandler, deactivateWorkDescription, setPrevWorkDescription. simpl.
  rewrite !lookup_insert_eq. simpl. rewrite lookup_insert_eq.
  rewrite decide_True by reflexivity.
  unfold write_desc. simpl. rewrite lookup_insert_eq. simpl.
  eexists. split; [reflexivity |].
  unfold workDescription. simpl. rewrite Hct.
  rewrite insert_insert_eq, insert_id by exact Ht.
  rewrite Ht. auto.
Qed.


(** *** Chains *)

Lemma chain_insert m cur stk d x :
  chain m cur stk -> d ∉ stk -> chain (<[d := x]> m) cur stk.
Proof.
  induction 1 as [| d0 desc rest Hd Hc IH]; intros Hn.
  - constructor.
  - apply not_elem_of_cons in Hn as [Hne Hn].
    econstructor; [| now apply IH].
    now rewrite lookup_insert_ne.
Qed.

Lemma chain_allocated m cur stk d :
  chain m cur stk -> d ∈ stk -> is_Some (m !! d).
Proof.
  induction 1 as [| d0 desc rest Hd Hc IH]; intros Hin.
  - now apply elem_of_nil in Hin.
  - apply elem_of_cons in Hin as [-> | Hin]; eauto.
Qed.

(** *** What the operations do to a memory in good order *)

Lemma createWorkDescription_wf ty s t stk d s1 :
  wf_stack s t stk ->
  createWorkDescription ty s = Ok (d, s1) ->
  exists cur data,
    threads s = {[t := cur]} /\
    chain (descriptions s) cur stk /\
    s1 = mkState (<[d := mkDesc ty true cur data]> (descriptions s))
                 (threads s) (Some t) (THREADS s)
                 (EMPTY_WORK_DESCRIPTION s1) (FREEABLE_WORK_DESCRIPTION s) /\
    NoDup (d :: stk ++ EMPTY_WORK_DESCRIPTION s1 ++ FREEABLE_WORK_DESCRIPTION s) /\
    (forall x, x ∈ EMPTY_WORK_DESCRIPTION s1 ++ FREEABLE_WORK_DESCRIPTION s ->
               is_Some (descriptions s !! x)).
Proof.
  intros (Hct & (cur & Hths & Hch) & Hnd & Hq & Hdes) Hc.
  apply createWorkDescription_inv in Hc
    as (t' & cur' & data & rest & Hct' & Ht' & -> & Hcase).
  rewrite Hct in Hct'. injection Hct' as <-.
  rewrite Hths, lookup_singleton_eq in Ht'. injection Ht' as <-.
  exists cur, data. simpl. rewrite Hct.
  split; [exact Hths |]. split; [exact Hch |]. split; [reflexivity |].
  destruct Hcase as [(Hem & _) | (Hem & -> & Hnone)]; rewrite Hem in Hnd, Hq.
  - split.
    + eapply NoDup_Permutation_proper; [| exact Hnd].
      rewrite (Permutation_middle stk). reflexivity.
    + intros x Hx. apply Hq. now apply list_elem_of_further.
  - split; [| exact Hq].
    apply NoDup_cons. split; [| exact Hnd].
    intros Hin. apply elem_of_app in Hin as [Hin | Hin].
    + destruct (chain_allocated _ _ _ _ Hch Hin) as [? Hsome]. congruence.
    + destruct (Hq d Hin) as [? Hsome]. congruence.
Qed.

Lemma createWorkDescription_total ty s t stk :
  wf_stack s t stk -> exists d s1, createWorkDescription ty s = Ok (d, s1).
Proof.
  intros (Hct & (cur & Hths & Hch) & Hnd & Hq & Hdes).
  unfold createWorkDescription, workDescription.
  rewrite Hct, Hths, lookup_singleton_eq. simpl.
  destruct (EMPTY_WORK_DESCRIPTION s) as [| d rest] eqn:Hem; [eauto |].
  destruct (Hq d) as [old Hold]; [apply list_elem_of_here |].
  rewrite Hold. eauto.
Qed.

Lemma pushHandler_wf h s t stk s' :
  wf_stack s t stk ->
  pushHandler h s = Ok s' ->
  exists d cur,
    threads s = {[t := cur]} /\
    (d ∉ stk) /\
    descriptions s' = <[d := mkDesc HANDLER true cur h]> (descriptions s) /\
    threads s' = {[t := Some d]} /\
    FREEABLE_WORK_DESCRIPTION s' = FREEABLE_WORK_DESCRIPTION s /\
    (d ∉ FREEABLE_WORK_DESCRIPTION s) /\
    wf_stack s' t (d :: stk).
Proof.
  intros Hwf Hp.
  pose proof Hwf as (Hct & _ & _ & _ & Hdes).
  unfold pushHandler in Hp.
  destruct (createWorkDescription HANDLER s) as [[d s1] | |] eqn:Hc;
    simpl in Hp; try discriminate.
  destruct (createWorkDescription_wf _ _ _ _ _ _ Hwf Hc)
    as (cur & data & Hths & Hch & Hs1 & Hnd & Hq).
  rewrite Hs1 in Hp. unfold write_desc in Hp. simpl in Hp.
  rewrite lookup_insert_eq in Hp. simpl in Hp.
  unfold activateWorkDescription, setWorkDescription in Hp. simpl in Hp.
  rewrite Hths, lookup_singleton_eq in Hp. injection Hp as <-.
  unfold set_threads, set_descriptions, set_data. simpl.
  rewrite insert_insert_eq, insert_singleton_eq.
  apply NoDup_cons in Hnd as [Hnin Hnd].
  exists d, cur.
  split; [exact Hths |].
  split; [intros Hin; apply Hnin, elem_of_app; now left |].
  split; [reflexivity |]. split; [reflexivity |]. split; [reflexivity |].
  split; [intros Hin; apply Hnin; rewrite !elem_of_app; auto |].
  unfold wf_stack. simpl.
  split; [reflexivity |]. split; [| split; [| split]].
  - exists (Some d). split; [reflexivity |].
    econstructor; [apply lookup_insert_eq |]. simpl.
    apply chain_insert; [exact Hch |].
    intros Hin. apply Hnin, elem_of_app. now left.
  - apply NoDup_cons. split; [exact Hnin | exact Hnd].
  - intros x Hx. destruct (decide (d = x)) as [<- | Hne].
    + rewrite lookup_insert_eq. eauto.
    + rewrite lookup_insert_ne by exact Hne. now apply Hq.
  - intros x desc Hx. destruct (decide (d = x)) as [<- | Hne].
    + rewrite lookup_insert_eq. now intros [= <-].
    + rewrite lookup_insert_ne by exact Hne.
      apply elem_of_cons in Hx as [-> | Hx]; [congruence |]. now apply Hdes.
Qed.

Lemma pushHandler_total h s t stk :
  wf_stack s t stk -> exists s', pushHandler h s = Ok s'.
Proof.
  intros Hwf. unfold pushHandler.
  destruct (createWorkDescription_total HANDLER _ _ _ Hwf) as (d & s1 & Hc).
  rewrite Hc. simpl.
  destruct (createWorkDescription_wf _ _ _ _ _ _ Hwf Hc)
    as (cur & data & Hths & _ & Hs1 & _).
  rewrite Hs1. unfold write_desc. simpl. rewrite lookup_insert_eq. simpl.
  unfold activateWorkDescription, setWorkDescription. simpl.
  rewrite Hths, lookup_singleton_eq. eauto.
Qed.

(** The state [popHandler] and [destroyHandler] leave when the description
    [d] with contents [desc] is taken off the stack of thread [t]. *)
Lemma deactivate_wf s t d rest :
  wf_stack s t (d :: rest) ->
  exists desc,
    descriptions s !! d = Some desc /\
    _destroy desc = true /\
    (d ∉ rest) /\
    (d ∉ FREEABLE_WORK_DESCRIPTION s) /\
    deactivateWorkDescription s =
      Ok (Some d, set_threads {[t := _prev desc]} s) /\
    chain (descriptions s) (_prev desc) rest.
Proof.
  intros (Hct & (cur & Hths & Hch) & Hnd & Hq & Hdes).
  inversion Hch as [| d0 desc rest0 Hd Hrest]; subst.
  exists desc. split; [exact Hd |].
  split; [eapply Hdes; [apply list_elem_of_here | exact Hd] |].
  simpl in Hnd. apply NoDup_cons in Hnd as [Hnin Hnd].
  split; [intros Hin; apply Hnin, elem_of_app; now left |].
  split; [intros Hin; apply Hnin; rewrite !elem_of_app; auto |].
  split; [| exact Hrest].
  unfold deactivateWorkDescription, setPrevWorkDescription.
  rewrite Hct, Hths, lookup_singleton_eq, Hd.
  now rewrite insert_singleton_eq.
Qed.

Lemma freed_wf s t d rest (f : WorkDescription -> WorkDescription) desc :
  wf_stack s t (d :: rest) ->
  descriptions s !! d = Some desc ->
  wf_stack
    (freeWorkDescription d
       (set_descriptions (<[d := f desc]> (descriptions s))
          (set_threads {[t := _prev desc]} s))) t rest.
Proof.
  intros Hwf Hd.
  destruct (deactivate_wf _ _ _ _ Hwf) as (desc' & Hd' & _ & Hnr & Hnf & _ & Hrest).
  rewrite Hd in Hd'. injection Hd' as <-.
  destruct Hwf as (Hct & _ & Hnd & Hq & Hdes).
  unfold wf_stack. simpl.
  split; [exact Hct |]. split; [| split; [| split]].
  - exists (_prev desc). split; [reflexivity |]. now apply chain_insert.
  - eapply NoDup_Permutation_proper; [| exact Hnd].
    simpl. rewrite !app_assoc. rewrite <- Permutation_cons_append.
    now rewrite <- !app_assoc.
  - intros x Hx. destruct (decide (d = x)) as [<- | Hne].
    + rewrite lookup_insert_eq. eauto.
    + rewrite lookup_insert_ne by exact Hne. apply Hq.
      rewrite app_assoc in Hx. apply elem_of_app in Hx as [Hx | Hx]; [exact Hx |].
      apply list_elem_of_singleton in Hx. congruence.
  - intros x desc0 Hx. destruct (decide (d = x)) as [<- | Hne]; [contradiction |].
    rewrite lookup_insert_ne by exact Hne. apply Hdes. now apply list_elem_of_further.
Qed.

Lemma popHandler_wf h s t stk s' :
  wf_stack s t stk ->
  popHandler h s = Ok s' ->
  exists d rest desc,
    stk = d :: rest /\
    descriptions s !! d = Some desc /\
    _data desc = h /\
    (d ∉ FREEABLE_WORK_DESCRIPTION s) /\
    s' = freeWorkDescription d
           (set_descriptions (<[d := set_destroy false desc]> (descriptions s))
              (set_threads {[t := _prev desc]} s)) /\
    wf_stack s' t rest.
Proof.
  intros Hwf Hp.
  destruct stk as [| d rest].
  - destruct Hwf as (Hct & (cur & Hths & Hch) & _).
    inversion Hch; subst.
    unfold popHandler, deactivateWorkDescription, setPrevWorkDescription in Hp.
    rewrite Hct, Hths, lookup_singleton_eq in Hp. discriminate.
  - destruct (deactivate_wf _ _ _ _ Hwf) as (desc & Hd & _ & _ & Hnf & Hde & _).
    unfold popHandler in Hp. rewrite Hde in Hp. simpl in Hp.
    rewrite Hd in Hp.
    destruct (decide (_data desc = h)) as [Hh | Hh]; [| discriminate].
    unfold write_desc in Hp. simpl in Hp. rewrite Hd in Hp. simpl in Hp.
    injection Hp as <-.
    exists d, rest, desc.
    split; [reflexivity |]. split; [exact Hd |]. split; [exact Hh |].
    split; [exact Hnf |]. split; [reflexivity |].
    exact (freed_wf s t d rest (set_destroy false) desc Hwf Hd).
Qed.

Lemma destroyHandler_wf h s t stk s' :
  wf_stack s t stk ->
  destroyHandler h s = Ok s' ->
  exists d rest desc,
    stk = d :: rest /\
    descriptions s !! d = Some desc /\
    _data desc = h /\
    _destroy desc = true /\
    (d ∉ FREEABLE_WORK_DESCRIPTION s) /\
    s' = freeWorkDescription d (set_threads {[t := _prev desc]} s) /\
    wf_stack s' t rest.
Proof.
  intros Hwf Hp.
  destruct stk as [| d rest].
  - destruct Hwf as (Hct & (cur & Hths & Hch) & _).
    inversion Hch; subst.
    unfold destroyHandler, deactivateWorkDescription, setPrevWorkDescription in Hp.
    rewrite Hct, Hths, lookup_singleton_eq in Hp. discriminate.
  - destruct (deactivate_wf _ _ _ _ Hwf) as (desc & Hd & Hdy & _ & Hnf & Hde & _).
    unfold destroyHandler in Hp. rewrite Hde in Hp. simpl in Hp.
    rewrite Hd in Hp.
    destruct (decide (_data desc = h)) as [Hh | Hh]; [| discriminate].
    injection Hp as <-.
    exists d, rest, desc.
    split; [reflexivity |]. split; [exact Hd |]. split; [exact Hh |].
    split; [exact Hdy |]. split; [exact Hnf |]. split; [reflexivity |].
    pose proof (freed_wf s t d rest (fun x => x) desc Hwf Hd) as Hf.
    unfold set_descriptions in Hf. simpl in Hf.
    rewrite insert_id in Hf by exact Hd.
    destruct s. exact Hf.
Qed.

Lemma releaseHandler_wf h s t stk s' :
  wf_stack s t stk ->
  releaseHandler h s = Ok s' ->
  exists d cur,
    (d ∉ FREEABLE_WORK_DESCRIPTION s) /\
    descriptions s' = <[d := mkDesc HANDLER true cur h]> (descriptions s) /\
    FREEABLE_WORK_DESCRIPTION s' = FREEABLE_WORK_DESCRIPTION s ++ [d] /\
    threads s' = threads s /\
    wf_stack s' t stk.
Proof.
  intros Hwf Hp.
  pose proof Hwf as (Hct & _ & _ & _ & Hdes).
  unfold releaseHandler in Hp.
  destruct (createWorkDescription HANDLER s) as [[d s1] | |] eqn:Hc;
    simpl in Hp; try discriminate.
  destruct (createWorkDescription_wf _ _ _ _ _ _ Hwf Hc)
    as (cur & data & Hths & Hch & Hs1 & Hnd & Hq).
  rewrite Hs1 in Hp. unfold write_desc in Hp. simpl in Hp.
  rewrite lookup_insert_eq in Hp. simpl in Hp. injection Hp as <-.
  unfold set_descriptions, set_data, freeWorkDescription. simpl.
  rewrite insert_insert_eq.
  pose proof Hnd as Hnd'. apply NoDup_cons in Hnd' as [Hnin _].
  exists d, cur.
  split; [intros Hin; apply Hnin; rewrite !elem_of_app; auto |].
  split; [reflexivity |]. split; [reflexivity |]. split; [reflexivity |].
  unfold wf_stack. simpl.
  split; [reflexivity |]. split; [| split; [| split]].
  - exists cur. split; [exact Hths |].
    apply chain_insert; [exact Hch |].
    intros Hin. apply Hnin, elem_of_app. now left.
  - eapply NoDup_Permutation_proper; [| exact Hnd].
    rewrite !app_assoc. now rewrite <- Permutation_cons_append.
  - intros x Hx. destruct (decide (d = x)) as [<- | Hne].
    + rewrite lookup_insert_eq. eauto.
    + rewrite lookup_insert_ne by exact Hne. apply Hq.
      rewrite app_assoc in Hx. apply elem_of_app in Hx as [Hx | Hx]; [exact Hx |].
      apply list_elem_of_singleton in Hx. congruence.
  - intros x desc Hx. destruct (decide (d = x)) as [<- | Hne].
    + exfalso. apply Hnin, elem_of_app. now left.
    + rewrite lookup_insert_ne by exact Hne. now apply Hdes.
Qed.


Lemma popHandler_top h s t d rest desc :
  wf_stack s t (d :: rest) ->
  descriptions s !! d = Some desc ->
  _data desc = h ->
  popHandler h s =
    Ok (freeWorkDescription d
          (set_descriptions (<[d := set_destroy false desc]> (descriptions s))
             (set_threads {[t := _prev desc]} s))).
Proof.
  intros Hwf Hd Hh.
  destruct (deactivate_wf _ _ _ _ Hwf) as (desc' & Hd' & _ & _ & _ & Hde & _).
  rewrite Hd in Hd'. injection Hd' as <-.
  unfold popHandler. rewrite Hde. simpl. rewrite Hd.
  rewrite decide_True by exact Hh.
  unfold write_desc. simpl. now rewrite Hd.
Qed.

Lemma destroyHandler_top h s t d rest desc :
  wf_stack s t (d :: rest) ->
  descriptions s !! d = Some desc ->
  _data desc = h ->
  destroyHandler h s
  = Ok (freeWorkDescription d (set_threads {[t := _prev desc]} s)).
Proof.
  intros Hwf Hd Hh.
  destruct (deactivate_wf _ _ _ _ Hwf) as (desc' & Hd' & _ & _ & _ & Hde & _).
  rewrite Hd in Hd'. injection Hd' as <-.
  unfold destroyHandler. rewrite Hde. simpl. rewrite Hd.
  destruct (decide (_data desc = h)); [reflexivity | contradiction].
Qed.

(** *** The sweep of the monitor thread *)

Lemma deletions_app m q1 q2 :
  deletions m (q1 ++ q2) = deletions m q1 ++ deletions m q2.
Proof. unfold deletions. apply flat_map_app. Qed.

Lemma deletions_insert m q d x :
  d ∉ q -> deletions (<[d := x]> m) q = deletions m q.
Proof.
  induction q as [| d0 q IH]; intros Hn; simpl; [reflexivity |].
  apply not_elem_of_cons in Hn as [Hne Hn].
  rewrite lookup_insert_ne by exact Hne. now rewrite IH.
Qed.

Lemma sweep_from_allocated q s :
  (forall d, d ∈ q -> is_Some (descriptions s !! d)) ->
  sweep_from q s =
    Ok (set_EMPTY (EMPTY_WORK_DESCRIPTION s ++ q) (set_FREEABLE [] s),
        deletions (descriptions s) q).
Proof.
  revert s. induction q as [| d q IH]; intros s Hq; simpl.
  - now rewrite app_nil_r.
  - destruct (Hq d (list_elem_of_here _ _)) as [desc Hd].
    unfold deleteWorkDescription. simpl. rewrite Hd. simpl.
    rewrite IH; simpl.
    + destruct s. unfold set_EMPTY, set_FREEABLE. simpl.
      now rewrite <- app_assoc.
    + intros x Hx. apply Hq. now apply list_elem_of_further.
Qed.

Lemma sweep_wf s t stk :
  wf_stack s t stk ->
  exists s',
    sweep s = Ok (s', deletions (descriptions s) (FREEABLE_WORK_DESCRIPTION s)) /\
    FREEABLE_WORK_DESCRIPTION s' = [] /\
    wf_stack s' t stk.
Proof.
  intros (Hct & Hch & Hnd & Hq & Hdes).
  unfold sweep. rewrite sweep_from_allocated.
  - eexists. split; [reflexivity |]. split; [reflexivity |].
    unfold wf_stack. simpl. rewrite app_nil_r.
    split; [exact Hct |]. split; [exact Hch |]. split; [exact Hnd |].
    split; [exact Hq | exact Hdes].
  - intros d Hd. apply Hq, elem_of_app. now right.
Qed.

Lemma pushThread_boot t :
  exists s d, pushThread t (boot t) = Ok s /\ wf_stack s t [d].
Proof.
  unfold pushThread, createWorkDescription, workDescription, boot. simpl.
  rewrite lookup_singleton_eq. simpl.
  unfold write_desc. simpl. rewrite lookup_insert_eq. simpl.
  unfold activateWorkDescription, setWorkDescription. simpl.
  rewrite lookup_singleton_eq. simpl.
  do 2 eexists. split; [reflexivity |].
  unfold wf_stack. simpl.
  split; [reflexivity |]. split; [| split; [| split]].
  - eexists. split; [apply insert_singleton_eq |].
    econstructor; [apply lookup_insert_eq |]. simpl. constructor.
  - apply NoDup_singleton.
  - intros d Hd. now apply elem_of_nil in Hd.
  - intros d desc Hd. apply list_elem_of_singleton in Hd as ->.
    rewrite insert_insert_eq, lookup_insert_eq. now intros [= <-].
Qed.

Lemma popThread_wf thread s t stk s' :
  wf_stack s t stk ->
  popThread thread s = Ok s' ->
  exists d rest, stk = d :: rest /\ wf_stack s' t rest.
Proof.
  intros Hwf Hp.
  destruct stk as [| d rest].
  - destruct Hwf as (Hct & (cur & Hths & Hch) & _).
    inversion Hch; subst.
    unfold popThread, deactivateWorkDescription, setPrevWorkDescription in Hp.
    rewrite Hct, Hths, lookup_singleton_eq in Hp. discriminate.
  - destruct (deactivate_wf _ _ _ _ Hwf) as (desc & Hd & _ & _ & _ & Hde & _).
    unfold popThread in Hp. rewrite Hde in Hp. simpl in Hp.
    rewrite Hd in Hp.
    destruct (_type desc); [| discriminate].
    destruct (decide (_data desc = Some thread)); [| discriminate].
    injection Hp as <-.
    exists d, rest. split; [reflexivity |].
    pose proof (freed_wf s t d rest (fun x => x) desc Hwf Hd) as Hf.
    unfold set_descriptions in Hf. simpl in Hf.
    rewrite insert_id in Hf by exact Hd.
    destruct s. exact Hf.
Qed.

(** The good order is kept by everything a thread and the monitor do. *)
Lemma reachable_wf t s : reachable t s -> exists stk, wf_stack s t stk.
Proof.
  induction 1 as [s Hs | s op s' _ [stk Hwf] Hop].
  - destruct (pushThread_boot t) as (s0 & d & Hs0 & Hwf).
    rewrite Hs in Hs0. injection Hs0 as <-. eauto.
  - destruct op; simpl in Hop.
    + destruct (popThread_wf _ _ _ _ _ Hwf Hop) as (d & rest & _ & H'). eauto.
    + destruct (pushHandler_wf _ _ _ _ _ Hwf Hop)
        as (d & cur & _ & _ & _ & _ & _ & _ & H'). eauto.
    + destruct (popHandler_wf _ _ _ _ _ Hwf Hop)
        as (d & rest & desc & _ & _ & _ & _ & _ & H'). eauto.
    + destruct (destroyHandler_wf _ _ _ _ _ Hwf Hop)
        as (d & rest & desc & _ & _ & _ & _ & _ & _ & H'). eauto.
    + destruct (releaseHandler_wf _ _ _ _ _ Hwf Hop)
        as (d & cur & _ & _ & _ & _ & H'). eauto.
    + destruct (sweep_wf _ _ _ Hwf) as (s1 & Hsw & _ & H').
      rewrite Hsw in Hop. simpl in Hop. injection Hop as <-. eauto.
Qed.





Lemma pop_all_app hs1 hs2 s :
  pop_all (hs1 ++ hs2) s = bind_result (pop_all hs1 s) (pop_all hs2).
Proof.
  revert s. induction hs1 as [| h hs1 IH]; intros s; simpl; [reflexivity |].
  destruct (popHandler h s); simpl; auto.
Qed.

(** Scopes that end in the reverse order of their beginning leave the
    stack of the thread as it was. *)
Lemma nested_scopes hs s t stk :
  wf_stack s t stk ->
  exists s1 s2,
    push_all hs s = Ok s1 /\
    pop_all (reverse hs) s1 = Ok s2 /\
    threads s2 = threads s /\
    wf_stack s2 t stk /\
    (forall x, x ∈ stk -> descriptions s2 !! x = descriptions s !! x).
Proof.
  revert s stk. induction hs as [| h hs IH]; intros s stk Hwf.
  - exists s, s.
    split; [reflexivity |]. split; [reflexivity |]. split; [reflexivity |].
    split; [exact Hwf | reflexivity].
  - destruct (pushHandler_total h _ _ _ Hwf) as (sa & Hpush).
    destruct (pushHandler_wf _ _ _ _ _ Hwf Hpush)
      as (d & cur & Hths & Hnin & Hm & Hta & _ & _ & Hwfa).
    destruct (IH sa (d :: stk) Hwfa) as (s1 & sb & Hpa & Hpo & Htb & Hwfb & Hsame).
    assert (Hd : descriptions sb !! d = Some (mkDesc HANDLER true cur h)).
    { rewrite Hsame by apply list_elem_of_here.
      rewrite Hm. apply lookup_insert_eq. }
    exists s1. eexists.
    split; [simpl; rewrite Hpush; exact Hpa |].
    split.
    { rewrite reverse_cons, pop_all_app, Hpo. simpl.
      rewrite (popHandler_top h sb t d stk _ Hwfb Hd eq_refl). reflexivity. }
    split; [simpl; now rewrite Hths |].
    split; [exact (freed_wf sb t d stk (set_destroy false) _ Hwfb Hd) |].
    intros x Hx. simpl.
    assert (d <> x) by (intros ->; contradiction).
    rewrite lookup_insert_ne by assumption.
    rewrite Hsame by now apply list_elem_of_further.
    rewrite Hm. now rewrite lookup_insert_ne.
Qed.

(** C8.  A [popHandler] directly after the [pushHandler] of the same
    handler passes both assertions and puts back the description the thread
    had before the push; this holds in every memory in which the push went
    through.  In a memory in good order any number of nested pushes followed
    by the pops in reverse order go through and put back the description the
    thread had; and a pop out of order, for the handler pushed before the
    last one, fails its assertion. *)
Theorem pushHandler_popHandler_round_trip :
  (forall handler s s1,
     pushHandler handler s = Ok s1 ->
     exists s2,
       popHandler handler s1 = Ok s2 /\
       workDescription s2 = workDescription s /\
       threads s2 = threads s /\
       CURRENT_THREAD s2 = CURRENT_THREAD s) /\
  (forall hs s,
     wf s ->
     exists s1 s2,
       push_all hs s = Ok s1 /\
       pop_all (reverse hs) s1 = Ok s2 /\
       workDescription s2 = workDescription s /\
       threads s2 = threads s) /\
  (forall h1 h2 s s1,
     h1 <> h2 ->
     push_all [h1; h2] s = Ok s1 ->
     popHandler h1 s1 = AssertionFailed).
Proof.
  split; [exact pop_after_push | split].
  - intros hs s (t & stk & Hwf).
    destruct (nested_scopes hs _ _ _ Hwf) as (s1 & s2 & H1 & H2 & H3 & Hwf2 & _).
    exists s1, s2. split; [exact H1 |]. split; [exact H2 |]. split; [| exact H3].
    unfold workDescription. rewrite H3.
    destruct Hwf as (-> & _). now destruct Hwf2 as (-> & _).
  - intros h1 h2 s s1 Hne Hp. simpl in Hp.
    destruct (pushHandler h1 s) as [sa | |]; simpl in Hp; try discriminate.
    destruct (pushHandler h2 sa) as [sb | |] eqn:Hpush; simpl in Hp;
      try discriminate.
    injection Hp as <-.
    apply pushHandler_inv in Hpush as (t & cur & d & rest & _ & _ & -> & _).
    unfold popHandler, deactivateWorkDescription, setPrevWorkDescription. simpl.
    rewrite !lookup_insert_eq. simpl. rewrite lookup_insert_eq.
    case_decide; [simpl in *; congruence | reflexivity].
Qed.

End WorkMonitorFacts.

Section WorkMonitorExamples.

Import WorkMonitor.

(** C8 on the thread object 1 after [pushThread], for handler 7. *)
Lemma pushHandler_popHandler_round_trip_witness :
  exists s s1 s2,
    pushThread 1 (boot 1) = Ok s /\
    pushHandler (Some 7) s = Ok s1 /\
    popHandler (Some 7) s1 = Ok s2 /\
    workDescription s2 = workDescription s.
Proof.
  eexists. eexists.
  assert (Hpush : pushHandler (Some 7)
            (mkState {[0 := mkDesc THREAD true None (Some 1)]}
                     {[1 := Some 0]} (Some 1) {[1]} [] [])
          = Ok (mkState (<[1 := mkDesc HANDLER true (Some 0) (Some 7)]>
                           {[0 := mkDesc THREAD true None (Some 1)]})
                        {[1 := Some 1]} (Some 1) {[1]} [] []))
    by (vm_compute; reflexivity).
  destruct (proj1 pushHandler_popHandler_round_trip _ _ _ Hpush)
    as (s2 & Hpop & Hsame & _).
  exists s2.
  split; [vm_compute; reflexivity |].
  split; [exact Hpush |]. split; [exact Hpop | exact Hsame].
Defined.


End WorkMonitorExamples.

(** ** RestDebugHelperHandler *)

Section RestDebugHelperHandlerFacts.

Import VPack RestDebugHelperHandler.

Variable doubleDecimal : string -> float.
Variable boolean : string -> bool.
Variable TRI_VERSION : string.

(** The conversions on the values the handler meets for [sleep=0]. *)
Lemma sleep_zero_microseconds :
  double_to_unsigned_long (PrimFloat.mul (PrimFloat.mul 0%float 1000%float) 1000%float)
    = Some 0%Z /\
  PrimFloat.div (unsigned_long_to_double 0) 1000000%float = 0%float.
Proof. split; reflexivity. Qed.

(** C9.  For a request whose parameter [sleep] is "0" and which has no
    parameter [block], with "0" read as the double 0: [execute] sleeps not at
    all, blocks nothing, and answers 200 with the object of exactly the four
    members server = "arango", version = the version string, sleep = 0 and
    block = false; it returns HANDLER_DONE. *)
Theorem debug_helper_answers_sleep_zero (_request : HttpRequest)
    (_dispatcherThread : pointer) :
  doubleDecimal "0" = 0%float ->
  _values _request !! "sleep" = Some "0" ->
  _values _request !! "block" = None ->
  execute doubleDecimal boolean TRI_VERSION _request _dispatcherThread =
    Some (mkExecuted
            (Some (mkResponse 200
                     (VObject [("server", VString "arango");
                               ("version", VString TRI_VERSION);
                               ("sleep", VDouble 0%float);
                               ("block", VBool false)])))
            HANDLER_DONE
            [ESetIgnore]).
Proof.
  intros Hzero Hsleep Hblock.
  unfold execute, value. rewrite Hsleep, Hblock, Hzero.
  destruct sleep_zero_microseconds as [-> Hdiv].
  unfold build_result. rewrite Hdiv.
  destruct _dispatcherThread; reflexivity.
Qed.

End RestDebugHelperHandlerFacts.

Section RestDebugHelperHandlerExamples.

Import VPack RestDebugHelperHandler.

(** C9 for the request [GET /debug?sleep=0] on dispatcher thread 4 of
    version "2.8.0", with a reading of decimals that gives 0 for "0". *)
Lemma debug_helper_answers_sleep_zero_witness :
  _response <$>
    execute (fun s => if String.eqb s "0" then 0%float else 1%float)
            (fun _ => true) "2.8.0"
            (mkRequest {["sleep" := "0"]}) (Some 4)
  = Some (Some (mkResponse 200
                  (VObject [("server", VString "arango");
                            ("version", VString "2.8.0");
                            ("sleep", VDouble 0%float);
                            ("block", VBool false)]))).
Proof.
  rewrite (debug_helper_answers_sleep_zero
             (fun s => if String.eqb s "0" then 0%float else 1%float)
             (fun _ => true) "2.8.0"
             (mkRequest {["sleep" := "0"]}) (Some 4)
             eq_refl
             (lookup_singleton_eq "sleep" "0")
             (lookup_singleton_ne "sleep" "block" "0" ltac:(discriminate))).
  reflexivity.
Defined.

End RestDebugHelperHandlerExamples.

Section VelocypackFacts.

Import Velocypack.

Local Open Scope Z_scope.

Lemma land_255 v : Z.land v 255 = v mod 256.
Proof. change 255 with (Z.ones 8). now rewrite Z.land_ones by lia. Qed.

Lemma shiftr_8 v : Z.shiftr v 8 = v / 256.
Proof. now rewrite Z.shiftr_div_pow2 by lia. Qed.

Lemma uint8_byte v : uint8 (v mod 256) = v mod 256.
Proof. unfold uint8. apply Z.mod_mod. lia. Qed.

Lemma store_bytes_le n v buf : store_bytes n v buf = buf ++ le_bytes n v.
Proof.
  revert v buf. induction n as [| n IH]; intros v buf; simpl.
  - now rewrite app_nil_r.
  - rewrite IH. unfold put. rewrite land_255, uint8_byte, shiftr_8.
    now rewrite <- app_assoc.
Qed.

Lemma le_bytes_length n v : length (le_bytes n v) = n.
Proof. revert v. induction n; intros v; simpl; auto. Qed.

Lemma pow256 (n : nat) : 2 ^ (8 * Z.of_nat (S n)) = 256 * 2 ^ (8 * Z.of_nat n).
Proof.
  replace (8 * Z.of_nat (S n)) with (8 + 8 * Z.of_nat n) by lia.
  rewrite Z.pow_add_r by lia. reflexivity.
Qed.

(** Reading the low bytes of [v] behind [digit] digits adds their value
    at that place. *)
Lemma readInteger_loop_le n v digit value :
  0 <= digit -> 0 <= value ->
  value + 2 ^ (8 * digit) * (v mod 2 ^ (8 * Z.of_nat n)) < 2 ^ 64 ->
  readInteger_loop (le_bytes n v) digit value =
    value + 2 ^ (8 * digit) * (v mod 2 ^ (8 * Z.of_nat n)).
Proof.
  revert v digit value. induction n as [| n IH]; intros v digit value Hd Hv Hb.
  - simpl. rewrite Z.mod_1_r. lia.
  - simpl le_bytes. simpl readInteger_loop.
    assert (Hp : 0 < 2 ^ (8 * digit)) by (apply Z.pow_pos_nonneg; lia).
    assert (Hq : 0 < 2 ^ (8 * Z.of_nat n)) by (apply Z.pow_pos_nonneg; lia).
    rewrite pow256 in *.
    rewrite (Z.rem_mul_r v 256 (2 ^ (8 * Z.of_nat n))) in * by lia.
    pose proof (Z.mod_pos_bound v 256 ltac:(lia)) as Hb0.
    pose proof (Z.mod_pos_bound (v / 256) (2 ^ (8 * Z.of_nat n)) Hq) as Hb1.
    rewrite Z.shiftl_mul_pow2 by lia.
    replace (digit * 8) with (8 * digit) by lia.
    assert (Hsmall : 0 <= v mod 256 * 2 ^ (8 * digit) < 2 ^ 64) by nia.
    unfold uint64 at 2. rewrite (Z.mod_small _ _ Hsmall).
    assert (Hsum : 0 <= value + v mod 256 * 2 ^ (8 * digit) < 2 ^ 64) by nia.
    unfold uint64. rewrite (Z.mod_small _ _ Hsum).
    assert (Hnext : 2 ^ (8 * (digit + 1)) = 256 * 2 ^ (8 * digit)).
    { replace (8 * (digit + 1)) with (8 + 8 * digit) by lia.
      rewrite Z.pow_add_r by lia. reflexivity. }
    rewrite IH; rewrite ?Hnext; nia.
Qed.

Lemma readInteger_le h n v rest :
  (n <= 8)%nat ->
  readInteger (h :: le_bytes n v ++ rest) 1 n = Got (v mod 2 ^ (8 * Z.of_nat n)).
Proof.
  intros Hn. unfold readInteger.
  change (drop 1 (h :: le_bytes n v ++ rest)) with (le_bytes n v ++ rest).
  rewrite take_app_length' by (symmetry; apply le_bytes_length).
  rewrite le_bytes_length, Nat.eqb_refl.
  assert (Hq : 0 < 2 ^ (8 * Z.of_nat n)) by (apply Z.pow_pos_nonneg; lia).
  pose proof (Z.mod_pos_bound v _ Hq) as Hb.
  assert (2 ^ (8 * Z.of_nat n) <= 2 ^ 64) by (apply Z.pow_le_mono_r; lia).
  rewrite readInteger_loop_le; simpl; try lia.
  f_equal. lia.
Qed.

Lemma ToUInt64_ToInt64_both_ways :
  (forall v, - 2 ^ 63 <= v < 2 ^ 63 ->
     0 <= ToUInt64 v < 2 ^ 64 /\
     ToUInt64 v = v mod 2 ^ 64 /\
     ToInt64 (ToUInt64 v) = v) /\
  (forall u, 0 <= u < 2 ^ 64 ->
     - 2 ^ 63 <= ToInt64 u < 2 ^ 63 /\
     ToUInt64 (ToInt64 u) = u).
Proof.
  assert (Hs2 : uint64 (Z.shiftl 1 63) = 2 ^ 63) by reflexivity.
  assert (Hs : int64_of_uint64 (uint64 (2 ^ 63 - 1)) = 2 ^ 63 - 1) by reflexivity.
  split.
  - intros v Hv. unfold ToUInt64, ToInt64. rewrite Hs2, Hs.
    destruct (0 <=? v) eqn:Hsign.
    + apply Z.leb_le in Hsign.
      unfold uint64. rewrite (Z.mod_small v) by lia.
      split; [lia |]. split; [reflexivity |].
      destruct (2 ^ 63 <=? v) eqn:Hbig; [apply Z.leb_le in Hbig; lia |].
      unfold int64_of_uint64.
      destruct (v <? 2 ^ 63) eqn:Hlt; [reflexivity | apply Z.ltb_ge in Hlt; lia].
    + apply Z.leb_gt in Hsign.
      unfold uint64.
      rewrite (Z.mod_small (v + (2 ^ 63 - 1) + 1)) by lia.
      rewrite (Z.mod_small (v + (2 ^ 63 - 1) + 1 + 2 ^ 63)) by lia.
      split; [lia |]. split.
      * apply (Z.mod_unique v (2 ^ 64) (-1)); lia.
      * destruct (2 ^ 63 <=? v + (2 ^ 63 - 1) + 1 + 2 ^ 63) eqn:Hbig;
          [| apply Z.leb_gt in Hbig; lia].
        rewrite (Z.mod_small (v + (2 ^ 63 - 1) + 1 + 2 ^ 63 - 2 ^ 63)) by lia.
        unfold int64_of_uint64.
        destruct (_ <? 2 ^ 63) eqn:Hlt; [lia | apply Z.ltb_ge in Hlt; lia].
  - intros u Hu. unfold ToUInt64, ToInt64. rewrite Hs2, Hs.
    destruct (2 ^ 63 <=? u) eqn:Hbig.
    + apply Z.leb_le in Hbig.
      assert (Hc : int64_of_uint64 (uint64 (u - 2 ^ 63)) = u - 2 ^ 63).
      { unfold uint64. rewrite Z.mod_small by lia. unfold int64_of_uint64.
        destruct (u - 2 ^ 63 <? 2 ^ 63) eqn:Hlt;
          [reflexivity | apply Z.ltb_ge in Hlt; lia]. }
      rewrite !Hc.
      split; [lia |].
      destruct (0 <=? _) eqn:Hsign; [apply Z.leb_le in Hsign; lia |].
      unfold uint64.
      rewrite (Z.mod_small (u - 2 ^ 63 - (2 ^ 63 - 1) - 1 + (2 ^ 63 - 1) + 1)) by lia.
      rewrite Z.mod_small by lia. lia.
    + apply Z.leb_gt in Hbig.
      unfold int64_of_uint64.
      destruct (u <? 2 ^ 63) eqn:Hlt; [| apply Z.ltb_ge in Hlt; lia].
      split; [lia |].
      destruct (0 <=? u) eqn:Hsign; [| apply Z.leb_gt in Hsign; lia].
      unfold uint64. apply Z.mod_small. lia.
Qed.

Lemma ToUInt64_spec v :
  - 2 ^ 63 <= v < 2 ^ 63 ->
  0 <= ToUInt64 v < 2 ^ 64 /\
  ToUInt64 v = v mod 2 ^ 64 /\
  ToInt64 (ToUInt64 v) = v.
Proof. apply ToUInt64_ToInt64_both_ways. Qed.

(** X1.  [ToUInt64] is the two's complement reading of an [int64_t] and
    [ToInt64] undoes it, in both directions. *)
Theorem ToInt64_ToUInt64_round_trip (v u : Z) :
  - 2 ^ 63 <= v < 2 ^ 63 ->
  0 <= u < 2 ^ 64 ->
  (0 <= ToUInt64 v < 2 ^ 64 /\
   ToUInt64 v = v mod 2 ^ 64 /\
   ToInt64 (ToUInt64 v) = v) /\
  (- 2 ^ 63 <= ToInt64 u < 2 ^ 63 /\
   ToUInt64 (ToInt64 u) = u).
Proof.
  intros Hv Hu. destruct ToUInt64_ToInt64_both_ways as (H1 & H2). auto.
Qed.

(** X2.  [appendLength] appends exactly the [n] low bytes of the length,
    lowest first, and [readInteger] over these bytes gives the length back
    modulo [2^(8n)]: the length itself when it fits into [n] bytes. *)
Theorem appendLength_readInteger (v : Z) (n : nat) (buf : Buffer) :
  (n <= 8)%nat ->
  exists bytes,
    appendLength v n buf = buf ++ bytes /\
    length bytes = n /\
    (forall b, b ∈ bytes -> 0 <= b < 256) /\
    (forall h rest,
       readInteger (h :: bytes ++ rest) 1 n = Got (v mod 2 ^ (8 * Z.of_nat n))) /\
    (0 <= v < 2 ^ (8 * Z.of_nat n) ->
     forall h rest, readInteger (h :: bytes ++ rest) 1 n = Got v).
Proof.
  intros Hn. exists (le_bytes n v).
  split; [apply store_bytes_le |]. split; [apply le_bytes_length |].
  split; [| split].
  - revert v. induction n as [| n IH]; intros v b Hb; simpl in Hb.
    + now apply elem_of_nil in Hb.
    + apply elem_of_cons in Hb as [-> | Hb].
      * apply Z.mod_pos_bound. lia.
      * apply (IH ltac:(lia) _ _ Hb).
  - intros h rest. now apply readInteger_le.
  - intros Hv h rest. rewrite readInteger_le by exact Hn.
    now rewrite Z.mod_small.
Qed.

Lemma appendUInt_loop_spec rounds v vSize buf :
  (1 <= rounds)%nat ->
  0 <= v < 2 ^ (8 * Z.of_nat rounds) ->
  0 <= vSize -> vSize + Z.of_nat rounds <= 255 ->
  exists k,
    (1 <= k <= rounds)%nat /\
    appendUInt_loop rounds v vSize buf =
      Some (vSize + Z.of_nat k, buf ++ le_bytes k v) /\
    v < 2 ^ (8 * Z.of_nat k) /\
    ((1 < k)%nat -> 2 ^ (8 * Z.of_nat (k - 1)) <= v).
Proof.
  revert v vSize buf.
  induction rounds as [| rounds IH]; intros v vSize buf Hr Hv Hs Hsum; [lia |].
  simpl. rewrite land_255, shiftr_8. unfold put. rewrite uint8_byte.
  unfold uint8. rewrite (Z.mod_small (vSize + 1)) by lia.
  rewrite pow256 in Hv.
  assert (Hq : 0 < 2 ^ (8 * Z.of_nat rounds)) by (apply Z.pow_pos_nonneg; lia).
  destruct (v / 256 =? 0) eqn:Hz.
  - apply Z.eqb_eq in Hz. exists 1%nat.
    split; [lia |]. split; [| split; [| lia]].
    + reflexivity.
    + change (2 ^ (8 * Z.of_nat 1)) with 256.
      apply Z.div_small_iff in Hz; lia.
  - apply Z.eqb_neq in Hz.
    assert (Hdiv : 0 <= v / 256 < 2 ^ (8 * Z.of_nat rounds)).
    { split; [apply Z.div_pos; lia |].
      apply Z.div_lt_upper_bound; lia. }
    assert (Hr' : (1 <= rounds)%nat).
    { destruct rounds; [simpl in Hdiv; lia | lia]. }
    destruct (IH (v / 256) (vSize + 1) (buf ++ [v mod 256]) Hr' Hdiv
                ltac:(lia) ltac:(lia)) as (k & Hk & Hloop & Hlt & Hmin).
    exists (S k). split; [lia |]. split; [| split].
    + rewrite Hloop. simpl. rewrite <- app_assoc. simpl.
      do 2 f_equal. lia.
    + rewrite pow256.
      assert (0 < 2 ^ (8 * Z.of_nat k)) by (apply Z.pow_pos_nonneg; lia).
      pose proof (Z.mod_pos_bound v 256 ltac:(lia)).
      pose proof (Z.div_mod v 256 ltac:(lia)). nia.
    + intros _. replace (S k - 1)%nat with k by lia.
      destruct k as [| k']; [lia |].
      destruct k' as [| k''].
      * change (2 ^ (8 * Z.of_nat 1)) with 256.
        pose proof (Z.mod_pos_bound v 256 ltac:(lia)).
        pose proof (Z.div_mod v 256 ltac:(lia)). lia.
      * rewrite pow256.
        specialize (Hmin ltac:(lia)).
        replace (S (S k'') - 1)%nat with (S k'') in Hmin by lia.
        pose proof (Z.mod_pos_bound v 256 ltac:(lia)).
        pose proof (Z.div_mod v 256 ltac:(lia)). nia.
Qed.

Lemma insert_head_placeholder (buf : list Z) x l :
  <[length buf := x]> ((buf ++ [0]) ++ l) = buf ++ x :: l.
Proof.
  rewrite <- app_assoc. simpl.
  rewrite insert_app_r_alt by lia.
  now rewrite Nat.sub_diag.
Qed.

Lemma appendUInt_spec v base buf :
  0 <= v < 2 ^ 64 -> 0 <= base -> base + 8 <= 255 ->
  exists k,
    (1 <= k <= 8)%nat /\
    appendUInt v base buf = Some (buf ++ (base + Z.of_nat k) :: le_bytes k v) /\
    v < 2 ^ (8 * Z.of_nat k) /\
    ((1 < k)%nat -> 2 ^ (8 * Z.of_nat (k - 1)) <= v).
Proof.
  intros Hv Hb Hb'. unfold appendUInt, rounds_of_uint64.
  destruct (appendUInt_loop_spec 8 v 0 (buf ++ [0]) ltac:(lia) Hv ltac:(lia)
              ltac:(lia)) as (k & Hk & Hloop & Hlt & Hmin).
  rewrite Hloop. exists k. split; [exact Hk |]. split; [| auto].
  rewrite insert_head_placeholder. unfold uint8.
  rewrite Z.mod_small by lia. do 3 f_equal.
Qed.

(** X3.  [addUInt] followed by [getUInt] gives the number back, for every
    [uint64_t]: the number is written in one byte when it is at most 9 and
    else in a head byte 0x28..0x2f and as few value bytes as hold it, at
    most 9 bytes in all, and whatever follows in the buffer does not change
    what is read. *)
Theorem addUInt_getUInt_round_trip (v : Z) (buf : Buffer) :
  0 <= v < 2 ^ 64 ->
  exists enc,
    addUInt v buf = Some (buf ++ enc) /\
    (1 <= length enc <= 9)%nat /\
    (v <= 9 -> length enc = 1%nat) /\
    (forall rest, getUInt (enc ++ rest) = Got v).
Proof.
  intros Hv. unfold addUInt.
  destruct (v <=? 9) eqn:Hsmall.
  - apply Z.leb_le in Hsmall. exists [48 + v].
    unfold put, uint8. rewrite Z.mod_small by lia.
    split; [reflexivity |]. split; [simpl; lia |]. split; [reflexivity |].
    intros rest. unfold getUInt. simpl. unfold between.
    replace ((40 <=? 48 + v) && (48 + v <=? 47)) with false by lia.
    replace ((32 <=? 48 + v) && (48 + v <=? 39)) with false by lia.
    replace ((48 <=? 48 + v) && (48 + v <=? 57)) with true by lia.
    f_equal. lia.
  - apply Z.leb_gt in Hsmall.
    destruct (appendUInt_spec v 39 buf Hv ltac:(lia) ltac:(lia))
      as (k & Hk & Happ & Hlt & _).
    rewrite Happ. eexists. split; [reflexivity |].
    split; [simpl; rewrite le_bytes_length; lia |].
    split; [lia |].
    intros rest. unfold getUInt. simpl. unfold between.
    replace ((40 <=? 39 + Z.of_nat k) && (39 + Z.of_nat k <=? 47)) with true by lia.
    unfold getUInt_of_UInt.
    replace (Z.to_nat (39 + Z.of_nat k - 39)) with k by lia.
    rewrite readInteger_le by lia. now rewrite Z.mod_small by lia.
Qed.

Lemma pow_half (k : nat) :
  2 ^ (8 * Z.of_nat (S k) - 1) = 2 ^ (8 * Z.of_nat k + 7) /\
  2 ^ (8 * Z.of_nat (S k)) = 2 * 2 ^ (8 * Z.of_nat k + 7) /\
  2 ^ (8 * Z.of_nat (S k) + 7) = 256 * 2 ^ (8 * Z.of_nat k + 7) /\
  0 < 2 ^ (8 * Z.of_nat k + 7).
Proof.
  split; [f_equal; lia |]. split; [| split].
  - replace (8 * Z.of_nat (S k)) with (1 + (8 * Z.of_nat k + 7)) by lia.
    rewrite Z.pow_add_r by lia. reflexivity.
  - replace (8 * Z.of_nat (S k) + 7) with (8 + (8 * Z.of_nat k + 7)) by lia.
    rewrite Z.pow_add_r by lia. reflexivity.
  - apply Z.pow_pos_nonneg; lia.
Qed.

Lemma intLength_loop_spec rounds x xSize :
  (1 <= rounds)%nat ->
  0 <= x < 2 ^ (8 * Z.of_nat rounds + 7) ->
  0 <= xSize -> xSize + Z.of_nat rounds <= 255 ->
  exists k,
    (1 <= k <= rounds)%nat /\
    intLength_loop rounds x xSize = Some (xSize + Z.of_nat k) /\
    x < 2 ^ (8 * Z.of_nat k + 7) /\
    ((1 < k)%nat -> 2 ^ (8 * Z.of_nat (k - 1) + 7) <= x).
Proof.
  revert x xSize.
  induction rounds as [| rounds IH]; intros x xSize Hr Hx Hs Hsum; [lia |].
  simpl. rewrite shiftr_8. unfold uint8.
  rewrite (Z.mod_small (xSize + 1)) by lia.
  destruct (pow_half rounds) as (_ & _ & Hp & Hpos). rewrite Hp in Hx.
  pose proof (Z.mod_pos_bound x 256 ltac:(lia)) as Hm.
  pose proof (Z.div_mod x 256 ltac:(lia)) as Hdm.
  destruct (128 <=? x / 256) eqn:Hbig.
  - apply Z.leb_le in Hbig.
    assert (Hdiv : 0 <= x / 256 < 2 ^ (8 * Z.of_nat rounds + 7)).
    { split; [lia |]. apply Z.div_lt_upper_bound; lia. }
    assert (Hr' : (1 <= rounds)%nat).
    { destruct rounds; [simpl in Hdiv; lia | lia]. }
    destruct (IH (x / 256) (xSize + 1) Hr' Hdiv ltac:(lia) ltac:(lia))
      as (k & Hk & Hloop & Hlt & Hmin).
    exists (S k). split; [lia |]. split; [| split].
    + rewrite Hloop. f_equal. lia.
    + destruct (pow_half k) as (_ & _ & -> & _). lia.
    + intros _. replace (S k - 1)%nat with k by lia.
      destruct k as [| k']; [lia |].
      destruct k' as [| k''].
      * change (2 ^ (8 * Z.of_nat 1 + 7)) with 32768. lia.
      * destruct (pow_half (S k'')) as (_ & _ & -> & _).
        specialize (Hmin ltac:(lia)).
        replace (S (S k'') - 1)%nat with (S k'') in Hmin by lia. lia.
  - apply Z.leb_gt in Hbig. exists 1%nat.
    split; [lia |]. split; [reflexivity |]. split; [| lia].
    change (2 ^ (8 * Z.of_nat 1 + 7)) with 32768. lia.
Qed.

Lemma intLength_spec (value : Z) :
  - 2 ^ 63 <= value < 2 ^ 63 ->
  exists n : nat,
    (1 <= n <= 8)%nat /\
    intLength value = Some (Z.of_nat n) /\
    - 2 ^ (8 * Z.of_nat n - 1) <= value < 2 ^ (8 * Z.of_nat n - 1) /\
    forall m : nat, (1 <= m < n)%nat ->
      ~ (- 2 ^ (8 * Z.of_nat m - 1) <= value < 2 ^ (8 * Z.of_nat m - 1)).
Proof.
  intros Hv. unfold intLength.
  destruct ((-128 <=? value) && (value <=? 127)) eqn:Hone.
  - exists 1%nat. split; [lia |]. split; [reflexivity |].
    change (2 ^ (8 * Z.of_nat 1 - 1)) with 128.
    split; [lia |]. intros m Hm. lia.
  - set (x := if 0 <=? value then uint64 value else uint64 (- (value + 1))).
    assert (Hx : 0 <= x < 2 ^ 63 /\
                 (0 <= value -> x = value) /\
                 (value < 0 -> x = - (value + 1)) /\ 128 <= x).
    { unfold x, uint64. destruct (0 <=? value) eqn:Hs.
      - apply Z.leb_le in Hs. rewrite Z.mod_small by lia. lia.
      - apply Z.leb_gt in Hs. rewrite Z.mod_small by lia. lia. }
    destruct Hx as (Hxb & Hxp & Hxn & Hx128).
    destruct (intLength_loop_spec rounds_of_uint64 x 0 ltac:(unfold rounds_of_uint64; lia)
                ltac:(unfold rounds_of_uint64; simpl; lia) ltac:(lia)
                ltac:(unfold rounds_of_uint64; lia))
      as (k & Hk & Hloop & Hlt & Hmin).
    rewrite Hloop. unfold rounds_of_uint64 in Hk.
    assert (Hk7 : (k <= 7)%nat).
    { destruct (decide (k = 8%nat)) as [-> | Hne]; [| lia].
      specialize (Hmin ltac:(lia)). simpl in Hmin. lia. }
    exists (S k). split; [lia |]. split.
    { unfold uint8. rewrite Z.mod_small by lia. f_equal. lia. }
    destruct (pow_half k) as (-> & _ & _ & Hpos).
    split; [destruct (Z.le_gt_cases 0 value); lia |].
    intros m Hm Hfit.
    destruct m as [| m']; [lia |].
    destruct (pow_half m') as (Hpm & _ & _ & _). rewrite Hpm in Hfit.
    assert (Hmono : 2 ^ (8 * Z.of_nat m' + 7) <= 2 ^ (8 * Z.of_nat (k - 1) + 7))
      by (apply Z.pow_le_mono_r; lia).
    destruct (decide (k = 1%nat)) as [-> | Hk1].
    + assert (m' = 0%nat) by lia. subst m'.
      change (2 ^ (8 * Z.of_nat 0 + 7)) with 128 in Hfit. lia.
    + specialize (Hmin ltac:(lia)).
      destruct (Z.le_gt_cases 0 value); lia.
Qed.

(** X4.  [intLength] gives, for every [int64_t], the least number of
    bytes from 1 to 8 that hold the value in two's complement. *)
Theorem intLength_least_bytes (value : Z) :
  - 2 ^ 63 <= value < 2 ^ 63 ->
  exists n : nat,
    (1 <= n <= 8)%nat /\
    intLength value = Some (Z.of_nat n) /\
    - 2 ^ (8 * Z.of_nat n - 1) <= value < 2 ^ (8 * Z.of_nat n - 1) /\
    forall m : nat, (1 <= m < n)%nat ->
      ~ (- 2 ^ (8 * Z.of_nat m - 1) <= value < 2 ^ (8 * Z.of_nat m - 1)).
Proof. exact (intLength_spec value). Qed.

Lemma shiftl_1 k : 0 <= k -> Z.shiftl 1 k = 2 ^ k.
Proof. intros Hk. rewrite Z.shiftl_mul_pow2 by exact Hk. lia. Qed.

Lemma addInt_spec (v : Z) (buf : Buffer) :
  - 2 ^ 63 <= v < 2 ^ 63 ->
  exists enc,
    addInt v buf = Some (buf ++ enc) /\
    (1 <= length enc <= 9)%nat /\
    (-6 <= v <= 9 -> length enc = 1%nat) /\
    ((0 <= v <= 9 /\ enc = [48 + v]) \/ (-6 <= v < 0 /\ enc = [64 + v]) \/
     (exists h tl, enc = h :: tl /\ 32 <= h <= 39)) /\
    (forall rest, getInt (enc ++ rest) = Got v).
Proof.
  intros Hv. unfold addInt.
  destruct ((0 <=? v) && (v <=? 9)) eqn:Hdigit.
  { exists [48 + v]. unfold put, uint8. rewrite Z.mod_small by lia.
    split; [reflexivity |]. split; [simpl; lia |]. split; [reflexivity |].
    split; [left; split; [lia | reflexivity] |].
    intros rest. unfold getInt, getSmallInt_of_SmallInt, between. simpl.
    replace ((32 <=? 48 + v) && (48 + v <=? 39)) with false by lia.
    replace ((40 <=? 48 + v) && (48 + v <=? 47)) with false by lia.
    replace ((48 <=? 48 + v) && (48 + v <=? 63)) with true by lia.
    replace ((48 <=? 48 + v) && (48 + v <=? 57)) with true by lia.
    f_equal. lia. }
  destruct ((v <? 0) && (-6 <=? v)) eqn:Hneg.
  { exists [64 + v]. unfold put, uint8. rewrite Z.mod_small by lia.
    split; [reflexivity |]. split; [simpl; lia |]. split; [reflexivity |].
    split; [right; left; split; [lia | reflexivity] |].
    intros rest. unfold getInt, getSmallInt_of_SmallInt, between. simpl.
    replace ((32 <=? 64 + v) && (64 + v <=? 39)) with false by lia.
    replace ((40 <=? 64 + v) && (64 + v <=? 47)) with false by lia.
    replace ((48 <=? 64 + v) && (64 + v <=? 63)) with true by lia.
    replace ((48 <=? 64 + v) && (64 + v <=? 57)) with false by lia.
    f_equal. lia. }
  unfold appendInt.
  destruct (intLength_spec v Hv) as (n & Hn & Hlen & Hfit & _).
  rewrite Hlen. rewrite Nat2Z.id, store_bytes_le.
  unfold put, uint8. rewrite (Z.mod_small (31 + Z.of_nat n)) by lia.
  rewrite <- app_assoc. simpl.
  eexists. split; [reflexivity |].
  split; [simpl; rewrite le_bytes_length; lia |].
  split; [lia |].
  split; [right; right; eexists _, _; split; [reflexivity | lia] |].
  intros rest. unfold getInt, between. simpl.
  replace ((32 <=? 31 + Z.of_nat n) && (31 + Z.of_nat n <=? 39)) with true by lia.
  replace (Z.to_nat (31 + Z.of_nat n - 31)) with n by lia.
  rewrite readInteger_le by lia.
  destruct n as [| k]; [lia |].
  destruct (pow_half k) as (Hp1 & Hp2 & _ & Hpos).
  rewrite Hp1 in Hfit.
  destruct (Z.of_nat (S k) =? 8) eqn:H8.
  - apply Z.eqb_eq in H8. rewrite !H8.
    change (31 + 8 =? 39) with true. cbv iota.
    destruct (ToUInt64_spec v Hv) as (Hb & _ & Hback).
    change (8 * 8) with 64.
    rewrite Z.mod_small by exact Hb. now rewrite Hback.
  - apply Z.eqb_neq in H8.
    destruct (31 + Z.of_nat (S k) =? 39) eqn:H39;
      [apply Z.eqb_eq in H39; lia |].
    replace (31 + Z.of_nat (S k) - 31) with (Z.of_nat (S k)) by lia.
    replace (Z.of_nat (S k) * 8 - 1) with (8 * Z.of_nat k + 7) by lia.
    rewrite shiftl_1 by lia.
    rewrite (Z.shiftl_mul_pow2 _ 1) by lia. rewrite Hp2.
    set (P := 2 ^ (8 * Z.of_nat k + 7)) in *.
    assert (HP : 2 * P <= 2 ^ 56).
    { unfold P. replace (2 * 2 ^ (8 * Z.of_nat k + 7))
        with (2 ^ (1 + (8 * Z.of_nat k + 7)))
        by (rewrite Z.pow_add_r by lia; reflexivity).
      apply Z.pow_le_mono_r; lia. }
    f_equal. unfold uint64, int64_of_uint64.
    destruct (0 <=? v) eqn:Hs.
    + apply Z.leb_le in Hs.
      rewrite (Z.mod_small v (2 ^ 64)) by lia.
      rewrite (Z.mod_small v (2 * P)) by lia.
      replace (v <? 2 ^ 63) with true by lia.
      replace (v <? P) with true by lia. reflexivity.
    + apply Z.leb_gt in Hs.
      rewrite (Z.mod_small (v + P) (2 ^ 64)) by lia.
      rewrite (Z.mod_small (v + P + P) (2 ^ 64)) by lia.
      rewrite (Z.mod_small (v + P + P) (2 * P)) by lia.
      replace (v + P + P <? 2 ^ 63) with true by lia.
      replace (v + P + P <? P) with false by lia.
      replace (P * 2 ^ 1) with (2 * P) by lia. lia.
Qed.

(** X5.  [addInt] followed by [getInt] gives the number back, for every
    [int64_t]: in one byte for -6..9, and else in a head byte 0x20..0x27 and
    the least number of value bytes, whatever follows in the buffer. *)
Theorem addInt_getInt_round_trip (v : Z) (buf : Buffer) :
  - 2 ^ 63 <= v < 2 ^ 63 ->
  exists enc,
    addInt v buf = Some (buf ++ enc) /\
    (1 <= length enc <= 9)%nat /\
    (-6 <= v <= 9 -> length enc = 1%nat) /\
    (forall rest, getInt (enc ++ rest) = Got v).
Proof.
  intros Hv.
  destruct (addInt_spec v buf Hv) as (enc & Hadd & Hlen & Hone & _ & Hget).
  exists enc. auto.
Qed.

(** X8.  A number written with [addInt] is read by [getUInt] as the same
    number when it is not negative, and otherwise [getUInt] throws
    NumberOutOfRange. *)
Theorem getUInt_of_addInt (v : Z) (buf : Buffer) :
  - 2 ^ 63 <= v < 2 ^ 63 ->
  exists enc,
    addInt v buf = Some (buf ++ enc) /\
    forall rest,
      getUInt (enc ++ rest) =
        if (v <? 0) then Thrown NumberOutOfRange else Got v.
Proof.
  intros Hv.
  destruct (addInt_spec v buf Hv) as (enc & Hadd & _ & _ & Hhead & Hget).
  exists enc. split; [exact Hadd |]. intros rest.
  destruct Hhead as [(Hr & ->) | [(Hr & ->) | (h & tl & -> & Hh)]];
    unfold getUInt, between.
  - simpl.
    replace ((40 <=? 48 + v) && (48 + v <=? 47)) with false by lia.
    replace ((32 <=? 48 + v) && (48 + v <=? 39)) with false by lia.
    replace ((48 <=? 48 + v) && (48 + v <=? 57)) with true by lia.
    replace (v <? 0) with false by lia. f_equal. lia.
  - simpl.
    replace ((40 <=? 64 + v) && (64 + v <=? 47)) with false by lia.
    replace ((32 <=? 64 + v) && (64 + v <=? 39)) with false by lia.
    replace ((48 <=? 64 + v) && (64 + v <=? 57)) with false by lia.
    replace ((58 <=? 64 + v) && (64 + v <=? 63)) with true by lia.
    now replace (v <? 0) with true by lia.
  - change (head ((h :: tl) ++ rest)) with (Some h). cbv iota beta.
    replace ((40 <=? h) && (h <=? 47)) with false by lia.
    replace ((32 <=? h) && (h <=? 39)) with true by lia.
    rewrite Hget. destruct (v <? 0) eqn:Hs; [reflexivity |].
    apply Z.ltb_ge in Hs. unfold uint64. now rewrite Z.mod_small by lia.
Qed.

(** X6.  [addUTCDate] followed by [getUTCDate] gives the date back, for
    every [int64_t], in a head byte 0x1c and eight value bytes. *)
Theorem addUTCDate_getUTCDate_round_trip (v : Z) (buf : Buffer) :
  - 2 ^ 63 <= v < 2 ^ 63 ->
  exists enc,
    addUTCDate v buf = buf ++ 28 :: enc /\
    length enc = 8%nat /\
    forall rest, getUTCDate (28 :: enc ++ rest) = Got v.
Proof.
  intros Hv. unfold addUTCDate, appendLength.
  rewrite store_bytes_le. unfold put, uint8. rewrite <- app_assoc.
  change ([28 mod 256] ++ le_bytes 8 (ToUInt64 v))
    with (28 :: le_bytes 8 (ToUInt64 v)).
  exists (le_bytes 8 (ToUInt64 v)).
  split; [reflexivity |]. split; [apply le_bytes_length |].
  intros rest. unfold getUTCDate.
  rewrite readInteger_le by lia.
  destruct (ToUInt64_spec v Hv) as (Hb & _ & Hback).
  change (8 * Z.of_nat 8) with 64.
  rewrite Z.mod_small by exact Hb. now rewrite Hback.
Qed.

Lemma addUInt_encoding v buf :
  0 <= v < 2 ^ 64 ->
  (v <= 9 /\ addUInt v buf = Some (buf ++ [48 + v])) \/
  (9 < v /\ exists k, (1 <= k <= 8)%nat /\ v < 2 ^ (8 * Z.of_nat k) /\
            addUInt v buf = Some (buf ++ (39 + Z.of_nat k) :: le_bytes k v)).
Proof.
  intros Hv. unfold addUInt.
  destruct (v <=? 9) eqn:Hsmall.
  - apply Z.leb_le in Hsmall. left. split; [exact Hsmall |].
    unfold put, uint8. now rewrite Z.mod_small by lia.
  - apply Z.leb_gt in Hsmall. right. split; [exact Hsmall |].
    destruct (appendUInt_spec v 39 buf Hv ltac:(lia) ltac:(lia))
      as (k & Hk & Happ & Hlt & _).
    exists k. auto.
Qed.

(** X7.  A number written with [addUInt] is read by [getInt] as the same
    number as long as it is at most [INT64_MAX], and otherwise [getInt]
    throws NumberOutOfRange. *)
Theorem getInt_of_addUInt (v : Z) (buf : Buffer) :
  0 <= v < 2 ^ 64 ->
  exists enc,
    addUInt v buf = Some (buf ++ enc) /\
    forall rest,
      getInt (enc ++ rest) =
        if (v <=? INT64_MAX) then Got v else Thrown NumberOutOfRange.
Proof.
  intros Hv.
  destruct (addUInt_encoding v buf Hv)
    as [(Hs & ->) | (Hs & k & Hk & Hlt & ->)];
    (eexists; split; [reflexivity |]); intros rest;
    unfold getInt, between, INT64_MAX; simpl.
  - replace ((32 <=? 48 + v) && (48 + v <=? 39)) with false by lia.
    replace ((40 <=? 48 + v) && (48 + v <=? 47)) with false by lia.
    replace ((48 <=? 48 + v) && (48 + v <=? 63)) with true by lia.
    unfold getSmallInt_of_SmallInt, between.
    replace ((48 <=? 48 + v) && (48 + v <=? 57)) with true by lia.
    replace (v <=? 2 ^ 63 - 1) with true by lia. f_equal. lia.
  - replace ((32 <=? 39 + Z.of_nat k) && (39 + Z.of_nat k <=? 39)) with false by lia.
    replace ((40 <=? 39 + Z.of_nat k) && (39 + Z.of_nat k <=? 47)) with true by lia.
    unfold getUInt_of_UInt.
    replace (Z.to_nat (39 + Z.of_nat k - 39)) with k by lia.
    rewrite readInteger_le by lia. rewrite Z.mod_small by lia.
    destruct (2 ^ 63 - 1 <? v) eqn:Hbig.
    + apply Z.ltb_lt in Hbig. now replace (v <=? 2 ^ 63 - 1) with false by lia.
    + apply Z.ltb_ge in Hbig. replace (v <=? 2 ^ 63 - 1) with true by lia.
      unfold int64_of_uint64. now replace (v <? 2 ^ 63) with true by lia.
Qed.

(** What [getString] and [copyString] read from the head of a string of
    [strLen] characters: one byte for up to 126 characters, and the byte
    0xbf with the length in eight bytes otherwise. *)
Lemma getString_of_head (strLen : Z) (chars rest : list Z) :
  0 <= strLen < 2 ^ 64 ->
  length chars = Z.to_nat strLen ->
  let header :=
    if 126 <? strLen then 191 :: le_bytes 8 strLen else [64 + strLen] in
  length header = (if 126 <? strLen then 9%nat else 1%nat) /\
  getString (header ++ chars ++ rest) = Got (strLen, length header) /\
  copyString (header ++ chars ++ rest) = Got chars.
Proof.
  intros Hv Hlen.
  assert (Hcopy : forall header : list Z,
            getString (header ++ chars ++ rest) = Got (strLen, length header) ->
            copyString (header ++ chars ++ rest) = Got chars).
  { intros header Hget. unfold copyString. rewrite Hget.
    rewrite drop_app_length, <- Hlen, take_app_length.
    now rewrite Nat.eqb_refl. }
  cbv zeta. destruct (126 <? strLen) eqn:Hlong.
  - apply Z.ltb_lt in Hlong.
    assert (Hget : getString ((191 :: le_bytes 8 strLen) ++ chars ++ rest) =
                   Got (strLen, length (191 :: le_bytes 8 strLen))).
    { unfold getString, between.
      change (head ((191 :: le_bytes 8 strLen) ++ chars ++ rest)) with (Some 191).
      cbv iota beta. change ((64 <=? 191) && (191 <=? 190)) with false.
      change (191 =? 191) with true. cbv iota.
      change ((191 :: le_bytes 8 strLen) ++ chars ++ rest)
        with (191 :: le_bytes 8 strLen ++ chars ++ rest).
      rewrite readInteger_le by lia.
      change (8 * Z.of_nat 8) with 64. rewrite Z.mod_small by lia.
      change (length (191 :: le_bytes 8 strLen))
        with (S (length (le_bytes 8 strLen))).
      now rewrite le_bytes_length. }
    split; [change (length (191 :: le_bytes 8 strLen))
                     with (S (length (le_bytes 8 strLen)));
            now rewrite le_bytes_length |].
    split; [exact Hget | exact (Hcopy _ Hget)].
  - apply Z.ltb_ge in Hlong.
    assert (Hget : getString ([64 + strLen] ++ chars ++ rest) =
                   Got (strLen, length [64 + strLen])).
    { unfold getString, between. simpl.
      replace ((64 <=? 64 + strLen) && (64 + strLen <=? 190)) with true by lia.
      do 2 f_equal. lia. }
    split; [reflexivity |].
    split; [exact Hget | exact (Hcopy _ Hget)].
Qed.

(** The bytes of [le_bytes] are bytes, and the loop of [appendLength]
    stores them. *)
Lemma le_bytes_small n : forall v,
  map (fun x => Some (x mod 256)) (le_bytes n v) = map Some (le_bytes n v).
Proof.
  induction n as [| n IH]; intros v; simpl; [reflexivity |].
  rewrite IH, Z.mod_mod by lia. reflexivity.
Qed.

End VelocypackFacts.

Section VelocypackExamples.
Import Velocypack.
Local Open Scope Z_scope.

Lemma ToInt64_ToUInt64_round_trip_witness :
  (0 <= ToUInt64 (-1) < 2 ^ 64 /\
   ToUInt64 (-1) = (-1) mod 2 ^ 64 /\
   ToInt64 (ToUInt64 (-1)) = -1) /\
  (- 2 ^ 63 <= ToInt64 (2 ^ 63) < 2 ^ 63 /\
   ToUInt64 (ToInt64 (2 ^ 63)) = 2 ^ 63).
Proof. apply (ToInt64_ToUInt64_round_trip (-1) (2 ^ 63)); lia. Defined.

Lemma appendLength_readInteger_witness :
  exists bytes,
    appendLength 70000 2 [191] = [191] ++ bytes /\
    length bytes = 2%nat /\
    (forall b, b ∈ bytes -> 0 <= b < 256) /\
    (forall h rest,
       readInteger (h :: bytes ++ rest) 1 2 =
         Got (70000 mod 2 ^ (8 * Z.of_nat 2))) /\
    (0 <= 70000 < 2 ^ (8 * Z.of_nat 2) ->
     forall h rest, readInteger (h :: bytes ++ rest) 1 2 = Got 70000).
Proof. apply (appendLength_readInteger 70000 2 [191]). lia. Defined.

Lemma addUInt_getUInt_round_trip_witness :
  exists enc,
    addUInt (2 ^ 64 - 1) [26] = Some ([26] ++ enc) /\
    (1 <= length enc <= 9)%nat /\
    (2 ^ 64 - 1 <= 9 -> length enc = 1%nat) /\
    (forall rest, getUInt (enc ++ rest) = Got (2 ^ 64 - 1)).
Proof. apply (addUInt_getUInt_round_trip (2 ^ 64 - 1) [26]). lia. Defined.

Lemma intLength_least_bytes_witness :
  exists n : nat,
    (1 <= n <= 8)%nat /\
    intLength (-129) = Some (Z.of_nat n) /\
    - 2 ^ (8 * Z.of_nat n - 1) <= -129 < 2 ^ (8 * Z.of_nat n - 1) /\
    forall m : nat, (1 <= m < n)%nat ->
      ~ (- 2 ^ (8 * Z.of_nat m - 1) <= -129 < 2 ^ (8 * Z.of_nat m - 1)).
Proof. apply (intLength_least_bytes (-129)). lia. Defined.

Lemma addInt_getInt_round_trip_witness :
  exists enc,
    addInt (-300) [26] = Some ([26] ++ enc) /\
    (1 <= length enc <= 9)%nat /\
    (-6 <= -300 <= 9 -> length enc = 1%nat) /\
    (forall rest, getInt (enc ++ rest) = Got (-300)).
Proof. apply (addInt_getInt_round_trip (-300) [26]). lia. Defined.

Lemma addUTCDate_getUTCDate_round_trip_witness :
  exists enc,
    addUTCDate (-86400000) [] = [] ++ 28 :: enc /\
    length enc = 8%nat /\
    forall rest, getUTCDate (28 :: enc ++ rest) = Got (-86400000).
Proof. apply (addUTCDate_getUTCDate_round_trip (-86400000) []). lia. Defined.

Lemma getInt_of_addUInt_witness :
  exists enc,
    addUInt (2 ^ 63) [] = Some ([] ++ enc) /\
    forall rest,
      getInt (enc ++ rest) =
        if (2 ^ 63 <=? INT64_MAX) then Got (2 ^ 63)
        else Thrown NumberOutOfRange.
Proof. apply (getInt_of_addUInt (2 ^ 63) []). lia. Defined.

Lemma getUInt_of_addInt_witness :
  exists enc,
    addInt (-7) [] = Some ([] ++ enc) /\
    forall rest,
      getUInt (enc ++ rest) =
        if (-7 <? 0) then Thrown NumberOutOfRange else Got (-7).
Proof. apply (getUInt_of_addInt (-7) []). lia. Defined.

End VelocypackExamples.

Section VelocypackBufferFacts.

Import VelocypackBuffer.

Local Open Scope Z_scope.

Variable VELOCYPACK_DEBUG : bool.

Lemma fresh_length n : length (fresh VELOCYPACK_DEBUG n) = Z.to_nat n.
Proof. unfold fresh. apply length_replicate. Qed.

Lemma buffer_wf_data b :
  buffer_wf b -> _alloc b <= Z.of_nat (length (data b)).
Proof.
  intros (Hl & _ & Hh). unfold data. destruct (_heap b); lia.
Qed.

Lemma Buffer_new_wf : buffer_wf (Buffer_new VELOCYPACK_DEBUG).
Proof.
  unfold buffer_wf, Buffer_new. cbn [_local _pos _alloc _heap].
  rewrite fresh_length. unfold sizeof_local. lia.
Qed.

Lemma memcpy_fits dst at_ src n :
  (n <= length src)%nat -> (at_ + n <= length dst)%nat ->
  memcpy dst at_ src n = Some (take at_ dst ++ take n src ++ drop (at_ + n) dst).
Proof.
  intros H1 H2. unfold memcpy.
  destruct (Nat.leb_spec n (length src)); [| lia].
  destruct (Nat.leb_spec (at_ + n) (length dst)); [| lia]. reflexivity.
Qed.

Lemma reserve_spec len b :
  buffer_wf b -> roomy VELOCYPACK_DEBUG b -> 0 <= len -> _pos b + len < 2 ^ 50 ->
  exists b',
    reserve VELOCYPACK_DEBUG len b = Done b' /\
    buffer_wf b' /\ roomy VELOCYPACK_DEBUG b' /\
    _pos b' = _pos b /\
    contents b' = contents b /\
    _pos b + len <= _alloc b' /\
    _pos b + len <= Z.of_nat (length (data b')) /\
    ((_pos b + len < _alloc b /\ reserve VELOCYPACK_DEBUG len b = Done b) \/
     (_alloc b <= _pos b + len /\ _heap b' <> None /\
      _alloc b' = Z.max (Z.max (_pos b + len) 192) (5 * _pos b / 4) /\
      data b' = contents b ++
                drop (Z.to_nat (_pos b)) (fresh VELOCYPACK_DEBUG (_alloc b')))).
Proof.
  intros Hwf Hroomy Hlen Hsmall.
  pose proof (buffer_wf_data b Hwf) as Hdata.
  destruct Hwf as (Hl & Hp & Hh).
  unfold reserve, uint64. rewrite (Z.mod_small (_pos b + len)) by lia.
  destruct (_pos b + len <? _alloc b) eqn:Hfit.
  { apply Z.ltb_lt in Hfit. exists b.
    split; [reflexivity |]. split; [exact (conj Hl (conj Hp Hh)) |].
    split; [exact Hroomy |]. split; [reflexivity |]. split; [reflexivity |].
    split; [lia |]. split; [lia |]. left. split; [exact Hfit | reflexivity]. }
  apply Z.ltb_ge in Hfit.
  assert (Hassert1 : VELOCYPACK_DEBUG && negb (sizeof_local <=? _pos b + len)
                     = false).
  { destruct VELOCYPACK_DEBUG eqn:HD; [| reflexivity]. simpl.
    specialize (Hroomy eq_refl). unfold sizeof_local.
    destruct (Z.leb_spec 192 (_pos b + len)); [reflexivity | lia]. }
  rewrite Hassert1. cbv zeta.
  set (n0 := if _pos b + len <? sizeof_local then sizeof_local
             else _pos b + len).
  assert (Hn0 : 192 <= n0 /\ _pos b + len <= n0 /\ n0 < 2 ^ 50 /\
                n0 = Z.max (_pos b + len) 192).
  { unfold n0, sizeof_local.
    destruct (Z.ltb_spec (_pos b + len) 192); lia. }
  assert (Hexact : exact (_pos b) n0 = true).
  { unfold exact. apply andb_true_iff. split; apply Z.ltb_lt; lia. }
  rewrite Hexact. simpl negb. cbv iota.
  set (n1 := if (0 <? _pos b) && (4 * n0 <? 5 * _pos b)
             then 5 * _pos b / 4 else n0).
  assert (Hn1 : n0 <= n1 /\ 5 * _pos b / 4 <= n1 /\ _pos b < n1 /\
                n1 = Z.max n0 (5 * _pos b / 4)).
  { unfold n1.
    destruct (Z.ltb_spec 0 (_pos b)); simpl.
    - destruct (Z.ltb_spec (4 * n0) (5 * _pos b)).
      + assert (n0 <= 5 * _pos b / 4)
          by (apply Z.div_le_lower_bound; lia).
        assert (_pos b + 1 <= 5 * _pos b / 4)
          by (apply Z.div_le_lower_bound; lia).
        lia.
      + assert (5 * _pos b / 4 <= n0)
          by (apply Z.div_le_upper_bound; lia).
        lia.
    - assert (Hz : _pos b = 0) by lia. rewrite Hz in *.
      change (5 * 0 / 4) with 0. lia. }
  assert (Hassert2 : VELOCYPACK_DEBUG && negb (_pos b <? n1) = false).
  { destruct (Z.ltb_spec (_pos b) n1); [| lia].
    now rewrite andb_false_r. }
  rewrite Hassert2.
  rewrite memcpy_fits by (rewrite ?fresh_length; lia).
  set (block := take 0 (fresh VELOCYPACK_DEBUG n1) ++
                take (Z.to_nat (_pos b)) (data b) ++
                drop (0 + Z.to_nat (_pos b)) (fresh VELOCYPACK_DEBUG n1)).
  assert (Hblock : length block = Z.to_nat n1).
  { unfold block.
    rewrite !length_app, !length_take, length_drop, fresh_length. lia. }
  exists (mkBuffer (_local b) (Some block) n1 (_pos b)).
  split; [reflexivity |].
  split.
  { unfold buffer_wf. cbn [_local _heap _alloc _pos]. rewrite Hblock. lia. }
  split; [intros _; cbn [_alloc]; lia |].
  split; [reflexivity |].
  split.
  { unfold contents, data at 1. cbn [_local _heap _alloc _pos].
    unfold block. rewrite take_0, app_nil_l. rewrite take_app_length'.
    - reflexivity.
    - rewrite length_take. lia. }
  split; [cbn [_alloc]; lia |].
  split; [unfold data; cbn [_heap]; rewrite Hblock; lia |].
  right. cbn [_heap _alloc]. split; [exact Hfit |].
  split; [discriminate |]. split; [lia |].
  unfold data at 1. cbn [_heap]. unfold block, contents.
  rewrite take_0. reflexivity.
Qed.

Lemma splice_length (dst src : list (option Z)) n m :
  length src = m -> (n + m <= length dst)%nat ->
  length (take n dst ++ src ++ drop (n + m) dst) = length dst.
Proof.
  intros <- H. rewrite !length_app, length_take, length_drop. lia.
Qed.

Lemma splice_take (dst src : list (option Z)) n m :
  length src = m -> (n + m <= length dst)%nat ->
  take (n + m) (take n dst ++ src ++ drop (n + m) dst) = take n dst ++ src.
Proof.
  intros <- H. rewrite app_assoc. apply take_app_length'.
  rewrite length_app, length_take. lia.
Qed.

Lemma with_data_wf block b :
  length block = length (data b) ->
  buffer_wf b ->
  buffer_wf (with_data block b) /\
  data (with_data block b) = block /\
  _pos (with_data block b) = _pos b /\
  _alloc (with_data block b) = _alloc b.
Proof.
  unfold buffer_wf, with_data, data. intros Hlen (Hl & Hp & Hh).
  destruct (_heap b) eqn:Hheap; cbn [_local _heap _alloc _pos];
    rewrite ?Hlen; auto.
Qed.

Lemma append_spec p b :
  buffer_wf b -> roomy VELOCYPACK_DEBUG b ->
  _pos b + Z.of_nat (length p) < 2 ^ 50 ->
  exists b',
    append VELOCYPACK_DEBUG p b = Done b' /\
    buffer_wf b' /\ roomy VELOCYPACK_DEBUG b' /\
    _pos b' = _pos b + Z.of_nat (length p) /\
    contents b' = contents b ++ map Some p.
Proof.
  intros Hwf Hroomy Hsmall.
  assert (Hpos : 0 <= _pos b) by (destruct Hwf as (_ & ? & _); lia).
  destruct (reserve_spec (Z.of_nat (length p)) b Hwf Hroomy ltac:(lia) Hsmall)
    as (b1 & Hres & Hwf1 & Hroomy1 & Hpos1 & Hcont1 & Halloc1 & Hdata1 & _).
  unfold append. rewrite Hres. cbn [and_then].
  assert (Hfit : (Z.to_nat (_pos b1) + length p <= length (data b1))%nat)
    by lia.
  rewrite memcpy_fits by (rewrite ?length_map; lia).
  rewrite (take_ge (map Some p)) by (rewrite length_map; lia).
  set (block := take (Z.to_nat (_pos b1)) (data b1) ++ map Some p ++
                drop (Z.to_nat (_pos b1) + length p) (data b1)).
  destruct (with_data_wf block b1
              (splice_length _ _ _ _ (length_map Some p) Hfit) Hwf1)
    as (Hwf2 & Hdata2 & Hpos2 & Halloc2).
  exists (with_pos (uint64 (_pos b1 + Z.of_nat (length p)))
                   (with_data block b1)).
  split; [reflexivity |].
  unfold uint64. rewrite Z.mod_small by lia.
  split.
  { destruct Hwf2 as (Hl & Hp & Hh). unfold buffer_wf, with_pos.
    cbn [_local _heap _alloc _pos]. rewrite Halloc2 in *.
    split; [exact Hl |]. split; [lia | exact Hh]. }
  split.
  { intros HD. unfold with_pos. cbn [_alloc]. rewrite Halloc2.
    exact (Hroomy1 HD). }
  split; [cbn [with_pos _pos]; lia |].
  assert (Hc : contents (with_pos (_pos b1 + Z.of_nat (length p))
                                  (with_data block b1))
               = take (Z.to_nat (_pos b1 + Z.of_nat (length p))) block).
  { unfold contents. f_equal. exact Hdata2. }
  rewrite Hc.
  replace (Z.to_nat (_pos b1 + Z.of_nat (length p)))
    with (Z.to_nat (_pos b1) + length p)%nat by lia.
  unfold block.
  etransitivity;
    [apply (splice_take (data b1) (map Some p) _ _ (length_map Some p) Hfit) |].
  rewrite <- Hcont1. unfold contents. reflexivity.
Qed.

Lemma store_spec c b :
  buffer_wf b -> _pos b + 1 <= _alloc b -> _pos b < 2 ^ 50 ->
  exists b',
    store c b = Done b' /\
    buffer_wf b' /\ _alloc b' = _alloc b /\
    _pos b' = _pos b + 1 /\
    contents b' = contents b ++ [Some c].
Proof.
  intros Hwf Hroom Hsmall.
  pose proof (buffer_wf_data b Hwf) as Hdata.
  assert (Hpos : 0 <= _pos b) by (destruct Hwf as (_ & ? & _); lia).
  unfold store.
  destruct (Nat.ltb_spec (Z.to_nat (_pos b)) (length (data b))); [| lia].
  set (block := <[Z.to_nat (_pos b) := Some c]> (data b)).
  destruct (with_data_wf block b (length_insert _ _ _) Hwf)
    as (Hwf2 & Hdata2 & Hpos2 & Halloc2).
  exists (with_pos (uint64 (_pos b + 1)) (with_data block b)).
  split; [reflexivity |].
  unfold uint64. rewrite Z.mod_small by lia.
  split.
  { destruct Hwf2 as (Hl & Hp & Hh). unfold buffer_wf, with_pos.
    cbn [_local _heap _alloc _pos]. rewrite Halloc2 in *.
    split; [exact Hl |]. split; [lia | exact Hh]. }
  split; [cbn [with_pos _alloc]; exact Halloc2 |].
  split; [reflexivity |].
  assert (Hc : contents (with_pos (_pos b + 1) (with_data block b))
               = take (Z.to_nat (_pos b + 1)) block).
  { unfold contents. f_equal. exact Hdata2. }
  rewrite Hc.
  unfold block. rewrite insert_take_drop by lia.
  replace (Z.to_nat (_pos b + 1)) with (Z.to_nat (_pos b) + 1)%nat by lia.
  rewrite cons_middle, app_assoc. apply take_app_length'.
  unfold contents. rewrite length_app, length_take. simpl. lia.
Qed.

Lemma appends_spec ps : forall b,
  buffer_wf b -> roomy VELOCYPACK_DEBUG b ->
  _pos b + Z.of_nat (length (concat ps)) < 2 ^ 50 ->
  exists b',
    appends VELOCYPACK_DEBUG ps b = Done b' /\
    buffer_wf b' /\ roomy VELOCYPACK_DEBUG b' /\
    size b' = size b + Z.of_nat (length (concat ps)) /\
    contents b' = contents b ++ map Some (concat ps).
Proof.
  induction ps as [| p ps IH]; intros b Hwf Hroomy Hsmall.
  - exists b. simpl. rewrite app_nil_r. unfold size.
    split; [reflexivity |]. split; [exact Hwf |]. split; [exact Hroomy |].
    split; [lia | reflexivity].
  - simpl in Hsmall. rewrite length_app in Hsmall.
    destruct (append_spec p b Hwf Hroomy ltac:(lia))
      as (b1 & Happ & Hwf1 & Hroomy1 & Hpos1 & Hcont1).
    destruct (IH b1 Hwf1 Hroomy1 ltac:(lia))
      as (b2 & Happs & Hwf2 & Hroomy2 & Hsize2 & Hcont2).
    exists b2. simpl. rewrite Happ. cbn [and_then].
    split; [exact Happs |]. split; [exact Hwf2 |]. split; [exact Hroomy2 |].
    unfold size in *. split; [rewrite length_app; lia |].
    rewrite Hcont2, Hcont1, map_app, app_assoc. reflexivity.
Qed.

Lemma Buffer_new_roomy : roomy VELOCYPACK_DEBUG (Buffer_new VELOCYPACK_DEBUG).
Proof. intros _. unfold Buffer_new, sizeof_local. cbn [_alloc]. lia. Qed.

Lemma Buffer_copy_small that :
  buffer_wf that -> 0 < _pos that <= 192 ->
  exists block,
    Buffer_copy VELOCYPACK_DEBUG that
      = Done (mkBuffer block None (_pos that) (_pos that)) /\
    buffer_wf (mkBuffer block None (_pos that) (_pos that)) /\
    contents (mkBuffer block None (_pos that) (_pos that)) = contents that.
Proof.
  intros Hwf Hpos.
  pose proof (buffer_wf_data that Hwf) as Hdata.
  destruct Hwf as (Hl & Hp & Hh).
  unfold Buffer_copy, copy_from, sizeof_local.
  destruct (Z.ltb_spec 0 (_pos that)); [| lia].
  destruct (Z.ltb_spec 192 (_pos that)); [lia |].
  unfold Buffer_new. cbn [_local _heap _alloc _pos].
  unfold data at 1. cbn [_local _heap].
  rewrite memcpy_fits by (rewrite ?fresh_length; unfold sizeof_local; lia).
  set (block := take 0 (fresh VELOCYPACK_DEBUG sizeof_local) ++
                take (Z.to_nat (_pos that)) (data that) ++
                drop (0 + Z.to_nat (_pos that))
                     (fresh VELOCYPACK_DEBUG sizeof_local)).
  assert (Hblock : length block = 192%nat).
  { unfold block.
    rewrite !length_app, !length_take, length_drop, fresh_length.
    unfold sizeof_local. lia. }
  exists block. split; [reflexivity |]. split.
  - unfold buffer_wf. cbn [_local _heap _alloc _pos]. lia.
  - unfold contents, data at 1. cbn [_local _heap _pos].
    unfold block. rewrite take_0, app_nil_l. apply take_app_length'.
    rewrite length_take. lia.
Qed.

(** X10.  Starting from an empty buffer, every sequence of [append]s of
    less than 2^50 bytes in all succeeds in every build, without a write
    outside the buffer's block, and leaves in [data()[0 .. size())] the
    appended bytes in their order. *)
Theorem appends_concatenate (ps : list (list Z)) :
  Z.of_nat (length (concat ps)) < 2 ^ 50 ->
  exists b,
    appends VELOCYPACK_DEBUG ps (Buffer_new VELOCYPACK_DEBUG) = Done b /\
    buffer_wf b /\
    size b = Z.of_nat (length (concat ps)) /\
    contents b = map Some (concat ps).
Proof.
  intros Hsmall.
  destruct (appends_spec ps (Buffer_new VELOCYPACK_DEBUG)
              Buffer_new_wf Buffer_new_roomy)
    as (b & Happs & Hwf & _ & Hsize & Hcont).
  { unfold Buffer_new. cbn [_pos]. lia. }
  exists b. split; [exact Happs |]. split; [exact Hwf |].
  split; [exact Hsize |]. exact Hcont.
Qed.


(** X12.  A copy of a buffer that holds 1 to 190 bytes has these bytes and
    an [_alloc] of that many bytes: [push_back] on the copy stops at the
    first assertion of [reserve] in a VELOCYPACK_DEBUG build, and in
    another build it succeeds and adds the byte behind the copied ones. *)
Theorem push_back_on_copy (c : Z) (that : Buffer) :
  buffer_wf that -> 0 < size that <= 190 ->
  exists copy,
    Buffer_copy VELOCYPACK_DEBUG that = Done copy /\
    contents copy = contents that /\
    capacity copy = size that /\
    if VELOCYPACK_DEBUG
    then push_back VELOCYPACK_DEBUG c copy = AssertionFailed
    else exists b',
        push_back VELOCYPACK_DEBUG c copy = Done b' /\
        contents b' = contents that ++ [Some c].
Proof.
  unfold size, capacity. intros Hwf Hpos.
  destruct (Buffer_copy_small that Hwf ltac:(lia))
    as (block & Hcopy & Hwfc & Hcont).
  eexists. split; [exact Hcopy |]. split; [exact Hcont |].
  split; [reflexivity |].
  destruct VELOCYPACK_DEBUG eqn:HD.
  - unfold push_back, reserve, uint64, sizeof_local.
    cbn [_local _heap _alloc _pos].
    rewrite Z.mod_small by lia.
    destruct (Z.ltb_spec (_pos that + 1) (_pos that)); [lia |].
    destruct (Z.leb_spec 192 (_pos that + 1)); [lia |]. reflexivity.
  - assert (Hroomy : roomy false (mkBuffer block None (_pos that) (_pos that)))
      by (intros Habs; discriminate Habs).
    rewrite <- HD in Hroomy.
    destruct (reserve_spec 1 _ Hwfc Hroomy ltac:(lia))
      as (b1 & Hres & Hwf1 & _ & Hpos1 & Hcont1 & Halloc1 & _).
    { cbn [_pos]. lia. }
    cbn [_pos] in Hpos1, Halloc1.
    destruct (store_spec c b1 Hwf1 ltac:(lia) ltac:(lia))
      as (b2 & Hstore & _ & _ & _ & Hcont2).
    exists b2. unfold push_back. rewrite HD in Hres. rewrite Hres.
    cbn [and_then]. split; [exact Hstore |].
    rewrite Hcont2, Hcont1, Hcont. reflexivity.
Qed.



Lemma write_spec v B :
  builder_wf VELOCYPACK_DEBUG B -> _builder_pos B + 1 <= _size B ->
  _size B < 2 ^ 50 ->
  exists B',
    write v B = Done B' /\
    builder_wf VELOCYPACK_DEBUG B' /\
    _size B' = _size B /\
    _builder_pos B' = _builder_pos B + 1 /\
    written B' = written B ++ [Some (v mod 256)].
Proof.
  intros (Hwf & Hroomy & Hsize & Hpos) Hroom Hsmall.
  pose proof (buffer_wf_data _ Hwf) as Hdata.
  assert (Hp : _pos (_buffer B) <= _alloc (_buffer B))
    by (destruct Hwf as (_ & ? & _); lia).
  unfold write.
  destruct (Nat.ltb_spec (Z.to_nat (_builder_pos B))
              (length (data (_buffer B)))); [| lia].
  set (block := <[Z.to_nat (_builder_pos B) := Some (v mod 256)]>
                  (data (_buffer B))).
  destruct (with_data_wf block (_buffer B) (length_insert _ _ _) Hwf)
    as (Hwf2 & Hdata2 & Hpos2 & Halloc2).
  exists (mkBuilder (with_data block (_buffer B)) (_size B)
                    (uint64 (_builder_pos B + 1))).
  split; [reflexivity |].
  unfold uint64. rewrite Z.mod_small by lia.
  split.
  { unfold builder_wf. cbn [_buffer _size _builder_pos].
    split; [exact Hwf2 |].
    split; [intros HD; rewrite Halloc2; exact (Hroomy HD) |].
    split; [lia | lia]. }
  split; [reflexivity |]. split; [reflexivity |].
  unfold written. cbn [_buffer _builder_pos]. rewrite Hdata2.
  unfold block. rewrite insert_take_drop by lia.
  replace (Z.to_nat (_builder_pos B + 1))
    with (Z.to_nat (_builder_pos B) + 1)%nat by lia.
  rewrite cons_middle, app_assoc. apply take_app_length'.
  rewrite length_app, length_take. simpl. lia.
Qed.

Lemma writes_spec vs : forall B,
  builder_wf VELOCYPACK_DEBUG B ->
  _builder_pos B + Z.of_nat (length vs) <= _size B ->
  _size B < 2 ^ 50 ->
  exists B',
    writes vs B = Done B' /\
    builder_wf VELOCYPACK_DEBUG B' /\
    _size B' = _size B /\
    _builder_pos B' = _builder_pos B + Z.of_nat (length vs) /\
    written B' = written B ++ map (fun v => Some (v mod 256)) vs.
Proof.
  induction vs as [| v vs IH]; intros B Hwf Hroom Hsmall.
  - exists B. simpl. rewrite app_nil_r.
    split; [reflexivity |]. split; [exact Hwf |]. split; [reflexivity |].
    split; [lia | reflexivity].
  - simpl length in Hroom.
    destruct (write_spec v B Hwf ltac:(lia) Hsmall)
      as (B1 & Hw & Hwf1 & Hsize1 & Hpos1 & Hwr1).
    destruct (IH B1 Hwf1 ltac:(lia) ltac:(lia))
      as (B2 & Hws & Hwf2 & Hsize2 & Hpos2 & Hwr2).
    exists B2. simpl. rewrite Hw. cbn [and_then].
    split; [exact Hws |]. split; [exact Hwf2 |]. split; [lia |].
    split; [lia |].
    rewrite Hwr2, Hwr1, <- app_assoc. reflexivity.
Qed.

Lemma Builder_new_spec :
  exists B,
    Builder_new VELOCYPACK_DEBUG = Done B /\
    builder_wf VELOCYPACK_DEBUG B /\ written B = [] /\ _size B = 0.
Proof.
  exists (mkBuilder (Buffer_new VELOCYPACK_DEBUG) 0 0).
  split; [reflexivity |]. split.
  - unfold builder_wf. cbn [_buffer _size _builder_pos].
    split; [exact Buffer_new_wf |]. split; [exact Buffer_new_roomy |].
    split; [reflexivity | lia].
  - split; reflexivity.
Qed.


Lemma appendLength_loop_writes n : forall v B,
  appendLength_loop n v B = writes (Velocypack.le_bytes n v) B.
Proof.
  induction n as [| n IH]; intros v B; simpl; [reflexivity |].
  change 255 with (Z.ones 8). rewrite Z.land_ones by lia.
  rewrite Z.shiftr_div_pow2 by lia.
  change (2 ^ 8) with 256.
  destruct (write (v mod 256) B) as [B1 | | |]; cbn [and_then];
    [apply IH | | |]; reflexivity.
Qed.

Lemma write_keeps_block v B B' :
  write v B = Done B' ->
  _alloc (_buffer B') = _alloc (_buffer B) /\
  length (data (_buffer B')) = length (data (_buffer B)).
Proof.
  unfold write.
  destruct (_ <? _)%nat; [| discriminate]. intros [= <-].
  cbn [_buffer]. unfold with_data, data.
  destruct (_heap (_buffer B)); cbn [_alloc _heap _local];
    rewrite length_insert; auto.
Qed.

Lemma writes_keeps_block vs : forall B B',
  writes vs B = Done B' ->
  _alloc (_buffer B') = _alloc (_buffer B) /\
  length (data (_buffer B')) = length (data (_buffer B)).
Proof.
  induction vs as [| v vs IH]; intros B B'; simpl.
  - intros [= <-]. auto.
  - destruct (write v B) as [B1 | | |] eqn:Hw; cbn [and_then]; try discriminate.
    intros Hws. destruct (write_keeps_block _ _ _ Hw) as (H1 & H2).
    destruct (IH _ _ Hws) as (H3 & H4). split; congruence.
Qed.

Lemma reserveSpace_fits len B :
  0 <= _builder_pos B -> 0 <= len -> _builder_pos B + len <= _size B ->
  _size B < 2 ^ 64 ->
  reserveSpace VELOCYPACK_DEBUG len B = Done B.
Proof.
  intros Hpos Hlen Hroom Hsmall. unfold reserveSpace, uint64.
  rewrite Z.mod_small by lia.
  destruct (Z.leb_spec (_builder_pos B + len) (_size B)); [reflexivity | lia].
Qed.

(** X9.  On a Builder in good order in which the caller has reserved the
    place of the whole string, head and characters, [addString] writes the
    head behind what was written, one byte for up to 126 characters and
    nine bytes otherwise, takes no new block, hands out the index behind
    the head and leaves [_pos] behind the place of the characters.
    [getString] on that head finds the length [strLen] and the first
    character at the index the Builder gave, and with the characters stored
    there [copyString] gives them back. *)
Theorem addString_getString_agree (strLen : Z) (B : Builder)
    (chars rest : list Z) :
  builder_wf VELOCYPACK_DEBUG B ->
  0 <= strLen -> _size B < 2 ^ 50 ->
  _builder_pos B + (if 126 <? strLen then 9 else 1) + strLen <= _size B ->
  length chars = Z.to_nat strLen ->
  exists B' header,
    addString VELOCYPACK_DEBUG strLen B
      = Done (B', _builder_pos B + Z.of_nat (length header)) /\
    length header = (if 126 <? strLen then 9%nat else 1%nat) /\
    builder_wf VELOCYPACK_DEBUG B' /\
    _size B' = _size B /\
    capacity (_buffer B') = capacity (_buffer B) /\
    _builder_pos B' = _builder_pos B + Z.of_nat (length header) + strLen /\
    take (Z.to_nat (_builder_pos B) + length header) (data (_buffer B'))
      = written B ++ map Some header /\
    Velocypack.getString (header ++ chars ++ rest)
      = Velocypack.Got (strLen, length header) /\
    Velocypack.copyString (header ++ chars ++ rest) = Velocypack.Got chars.
Proof.
  intros Hwf Hlen Hsmall Hroom Hchars.
  assert (Hpos : 0 <= _builder_pos B) by (destruct Hwf as (_ & _ & _ & ?); lia).
  destruct (getString_of_head strLen chars rest ltac:(
              destruct (126 <? strLen); lia) Hchars)
    as (Hhl & Hget & Hcopy).
  unfold addString. destruct (126 <? strLen) eqn:Hlong.
  - apply Z.ltb_lt in Hlong.
    destruct (write_spec 191 B Hwf ltac:(lia) Hsmall)
      as (B1 & Hw & Hwf1 & Hsize1 & Hpos1 & Hwr1).
    rewrite Hw. cbn [and_then]. unfold appendLength.
    rewrite reserveSpace_fits by (change (Z.of_nat 8) with 8; lia).
    cbn [and_then]. rewrite appendLength_loop_writes.
    destruct (writes_spec (Velocypack.le_bytes 8 strLen) B1 Hwf1)
      as (B2 & Hws & Hwf2 & Hsize2 & Hpos2 & Hwr2).
    { rewrite le_bytes_length. change (Z.of_nat 8) with 8. lia. }
    { lia. }
    rewrite le_bytes_length in Hpos2. change (Z.of_nat 8) with 8 in Hpos2.
    rewrite Hws. cbn [and_then].
    exists (mkBuilder (_buffer B2) (_size B2)
              (uint64 (_builder_pos B2 + strLen))),
           (191 :: Velocypack.le_bytes 8 strLen).
    rewrite Hhl. change (Z.of_nat 9) with 9.
    split; [do 2 f_equal; lia |].
    split; [reflexivity |].
    unfold uint64. rewrite Z.mod_small by lia.
    split.
    { destruct Hwf2 as (Hb & Hr & Hs & Hp).
      unfold builder_wf. cbn [_buffer _size _builder_pos].
      split; [exact Hb |]. split; [exact Hr |]. split; [exact Hs |]. lia. }
    cbn [_buffer _size _builder_pos].
    split; [lia |].
    split.
    { unfold capacity.
      rewrite (proj1 (writes_keeps_block _ _ _ Hws)).
      exact (proj1 (write_keeps_block _ _ _ Hw)). }
    split; [lia |].
    split; [| split; [exact Hget | exact Hcopy]].
    replace (Z.to_nat (_builder_pos B) + 9)%nat
      with (Z.to_nat (_builder_pos B2)) by lia.
    fold (written B2). rewrite Hwr2, Hwr1, le_bytes_small, <- app_assoc.
    reflexivity.
  - apply Z.ltb_ge in Hlong.
    destruct (write_spec (64 + strLen) B Hwf ltac:(lia) Hsmall)
      as (B1 & Hw & Hwf1 & Hsize1 & Hpos1 & Hwr1).
    rewrite Hw. cbn [and_then].
    exists (mkBuilder (_buffer B1) (_size B1)
              (uint64 (_builder_pos B1 + strLen))),
           [64 + strLen].
    change (Z.of_nat (length [64 + strLen])) with 1.
    split; [do 2 f_equal; lia |].
    split; [reflexivity |].
    unfold uint64. rewrite Z.mod_small by lia.
    split.
    { destruct Hwf1 as (Hb & Hr & Hs & Hp).
      unfold builder_wf. cbn [_buffer _size _builder_pos].
      split; [exact Hb |]. split; [exact Hr |]. split; [exact Hs |]. lia. }
    cbn [_buffer _size _builder_pos].
    split; [lia |].
    split; [exact (proj1 (write_keeps_block _ _ _ Hw)) |].
    split; [lia |].
    split; [| split; [exact Hget | exact Hcopy]].
    change (length [64 + strLen]) with 1%nat.
    replace (Z.to_nat (_builder_pos B) + 1)%nat
      with (Z.to_nat (_builder_pos B1)) by lia.
    fold (written B1). rewrite Hwr1.
    rewrite Z.mod_small by lia. reflexivity.
Qed.


Lemma data_with_data block b : data (with_data block b) = block.
Proof. unfold with_data, data. destruct (_heap b); reflexivity. Qed.

(** Writes through [_start] wherever they stay inside the block, counted
    by the buffer or not. *)
Lemma writes_in_block vs : forall B,
  0 <= _builder_pos B ->
  _builder_pos B + Z.of_nat (length vs)
    <= Z.of_nat (length (data (_buffer B))) ->
  Z.of_nat (length (data (_buffer B))) < 2 ^ 64 ->
  exists B',
    writes vs B = Done B' /\
    _size B' = _size B /\
    _pos (_buffer B') = _pos (_buffer B) /\
    _builder_pos B' = _builder_pos B + Z.of_nat (length vs) /\
    length (data (_buffer B')) = length (data (_buffer B)) /\
    forall i, (i < Z.to_nat (_builder_pos B))%nat ->
      data (_buffer B') !! i = data (_buffer B) !! i.
Proof.
  induction vs as [| v vs IH]; intros B Hpos Hroom Hsmall.
  - exists B. simpl. repeat split; try reflexivity. lia.
  - simpl length in Hroom. simpl writes. unfold write at 1.
    destruct (Nat.ltb_spec (Z.to_nat (_builder_pos B))
                (length (data (_buffer B)))); [| lia].
    cbn [and_then].
    set (B1 := mkBuilder _ _ _).
    assert (Hdata1 : data (_buffer B1)
                     = <[Z.to_nat (_builder_pos B) := Some (v mod 256)]>
                         (data (_buffer B)))
      by apply data_with_data.
    assert (Hpos1 : _builder_pos B1 = _builder_pos B + 1).
    { unfold B1, uint64. cbn [_builder_pos]. apply Z.mod_small. lia. }
    destruct (IH B1) as (B2 & Hws & Hsize2 & Hbpos2 & Hpos2 & Hlen2 & Hkeep2).
    { lia. }
    { rewrite Hdata1, length_insert. lia. }
    { rewrite Hdata1, length_insert. lia. }
    exists B2. split; [exact Hws |].
    split; [exact Hsize2 |].
    split.
    { rewrite Hbpos2. unfold B1. cbn [_buffer].
      unfold with_data. destruct (_heap (_buffer B)); reflexivity. }
    split; [simpl length; lia |].
    split; [rewrite Hlen2, Hdata1; apply length_insert |].
    intros i Hi. rewrite Hkeep2 by lia. rewrite Hdata1.
    apply list_lookup_insert_ne. lia.
Qed.

(** X28.  [addString] reserves no place for the head byte.  On a Builder
    in good order that is filled up to [_size]: when the block ends there,
    the head is written behind the block; and when the block has a place
    for the head but not for the eight bytes of the length of a long string
    as well, the head is written behind the bytes the buffer counts,
    [appendLength] takes a new block, only the counted bytes are copied, and
    the head is lost: at its index the block holds what a new block holds,
    0xa5 in a VELOCYPACK_DEBUG build and nothing that was written
    otherwise.  [_pos] ends beyond [_size]. *)
Theorem addString_reserves_no_head (strLen : Z) (B : Builder) :
  builder_wf VELOCYPACK_DEBUG B ->
  0 <= strLen ->
  _builder_pos B = _size B ->
  (Z.of_nat (length (data (_buffer B))) = _size B ->
     addString VELOCYPACK_DEBUG strLen B = OutOfBounds) /\
  (126 < strLen -> _size B + 9 + strLen < 2 ^ 50 ->
   _size B < capacity (_buffer B) <= _size B + 8 ->
     exists B',
       addString VELOCYPACK_DEBUG strLen B = Done (B', _size B + 9) /\
       data (_buffer B') !! Z.to_nat (_size B)
         = Some (if VELOCYPACK_DEBUG then Some 165 else None) /\
       _size B' = _size B + 8 /\
       _builder_pos B' = _size B + 9 + strLen).
Proof.
  intros (Hwf & Hroomy & Hsize & Hpos) Hlen Hfull.
  pose proof (buffer_wf_data _ Hwf) as Hdata.
  split.
  - intros Hend. unfold addString, write. rewrite Hfull, <- Hend.
    rewrite Nat2Z.id, Nat.ltb_irrefl.
    destruct (126 <? strLen); reflexivity.
  - intros Hlong Hsmall (Hcap1 & Hcap2). unfold capacity in *.
    unfold addString. destruct (Z.ltb_spec 126 strLen); [| lia].
    unfold write at 1.
    destruct (Nat.ltb_spec (Z.to_nat (_builder_pos B))
                (length (data (_buffer B)))); [| lia].
    cbn [and_then].
    set (blk := <[Z.to_nat (_builder_pos B) := Some (191 mod 256)]>
                  (data (_buffer B))).
    destruct (with_data_wf blk (_buffer B) (length_insert _ _ _) Hwf)
      as (Hwf1 & Hdata1 & Hpos1 & Halloc1).
    set (b1 := with_data blk (_buffer B)) in *.
    assert (Hroomy1 : roomy VELOCYPACK_DEBUG b1)
      by (intros HD; rewrite Halloc1; exact (Hroomy HD)).
    unfold appendLength, reserveSpace. cbn [_builder_pos _size _buffer].
    unfold uint64 at 1 2. rewrite (Z.mod_small (_builder_pos B + 1)) by lia.
    change (Z.of_nat 8) with 8.
    rewrite Z.mod_small by lia.
    destruct (Z.leb_spec (_builder_pos B + 1 + 8) (_size B)); [lia |].
    assert (Hsmall1 : _pos b1 + 8 < 2 ^ 50) by (rewrite Hpos1; lia).
    destruct (reserve_spec 8 b1 Hwf1 Hroomy1 ltac:(lia) Hsmall1)
      as (b2 & Hres & Hwf2 & Hroomy2 & Hpos2 & Hcont2 & Halloc2 & Hlen2 & Hcase).
    destruct Hcase as [(Hfit & _) | (_ & Hheap & Hnew & Hblock)]; [lia |].
    assert (Hlength2 : Z.of_nat (length (data b2)) = _alloc b2).
    { destruct Hwf2 as (_ & _ & Hh). unfold data.
      destruct (_heap b2); [exact Hh | contradiction]. }
    assert (Hl1 : (Z.to_nat (_size B) < length (data b1))%nat)
      by (rewrite Hdata1; unfold blk; rewrite length_insert; lia).
    unfold prealloc. rewrite Hres. cbn [and_then].
    unfold uint64.
    rewrite (Z.mod_small (_pos b2 + 8)) by lia.
    rewrite (Z.mod_small (_builder_pos B + 1)) by lia.
    rewrite appendLength_loop_writes.
    set (B2 := mkBuilder _ _ _).
    assert (Hbig : _size B + 9 <= _alloc b2).
    { rewrite Hnew, Hpos1, <- Hsize.
      assert (_size B <= 183 \/ 36 <= _size B) as [Hs | Hs] by lia; [lia |].
      assert (_size B + 9 <= 5 * _size B / 4)
        by (apply Z.div_le_lower_bound; lia).
      lia. }
    assert (Hdata2 : data (_buffer B2) = data b2) by reflexivity.
    pose proof (buffer_wf_data _ Hwf2) as Hdata2'.
    destruct (writes_in_block (Velocypack.le_bytes 8 strLen) B2)
      as (B3 & Hws & Hsize3 & Hbpos3 & Hpos3 & Hlen3 & Hkeep3).
    { unfold B2. cbn [_builder_pos]. lia. }
    { rewrite le_bytes_length, Hdata2. unfold B2. cbn [_builder_pos].
      change (Z.of_nat 8) with 8. lia. }
    { rewrite Hdata2, Hlength2, Hnew, Hpos1, <- Hsize.
      assert (5 * _size B / 4 <= 5 * _size B)
        by (apply Z.div_le_upper_bound; lia).
      lia. }
    rewrite Hws. cbn [and_then].
    rewrite le_bytes_length in Hpos3. change (Z.of_nat 8) with 8 in Hpos3.
    unfold B2 in Hpos3, Hsize3. cbn [_builder_pos _size] in Hpos3, Hsize3.
    unfold size in Hsize3. cbn [with_pos _pos] in Hsize3.
    eexists. split; [do 2 f_equal; lia |].
    cbn [_buffer _size _builder_pos].
    split.
    { rewrite Hkeep3 by (unfold B2; cbn [_builder_pos]; lia).
      rewrite Hdata2, Hblock, Hpos1, <- Hsize.
      rewrite lookup_app_r by (unfold contents; rewrite length_take; lia).
      unfold contents. rewrite length_take, Hpos1, <- Hsize.
      replace (Z.to_nat (_size B) - Z.to_nat (_size B) `min` length (data b1))%nat
        with 0%nat by lia.
      rewrite lookup_drop, Nat.add_0_r. unfold fresh.
      apply lookup_replicate_2. lia. }
    split; [lia |].
    unfold uint64. rewrite Z.mod_small by lia. lia.
Qed.

End VelocypackBufferFacts.

Section VelocypackBufferExamples.

Import VelocypackBuffer.

Local Open Scope Z_scope.

Lemma appends_concatenate_witness :
  exists b,
    appends true [[1; 2]; replicate 200 7; [3]] (Buffer_new true) = Done b /\
    buffer_wf b /\
    size b = Z.of_nat (length (concat [[1; 2]; replicate 200 7; [3]])) /\
    contents b = map Some (concat [[1; 2]; replicate 200 7; [3]]).
Proof.
  apply (appends_concatenate true [[1; 2]; replicate 200 7; [3]]).
  vm_compute. reflexivity.
Defined.


Lemma push_back_on_copy_witness :
  exists copy,
    Buffer_copy true (mkBuffer (Some 104 :: Some 105 :: replicate 190 None)
                               None 192 2) = Done copy /\
    contents copy = [Some 104; Some 105] /\
    capacity copy = 2 /\
    push_back true 33 copy = AssertionFailed.
Proof.
  apply (push_back_on_copy true 33
           (mkBuffer (Some 104 :: Some 105 :: replicate 190 None) None 192 2)).
  - unfold buffer_wf. vm_compute. split; [reflexivity |].
    split; [split; discriminate | discriminate].
  - vm_compute. split; [reflexivity | discriminate].
Defined.


Lemma addString_getString_agree_witness :
  exists B' header,
    addString false 3
      (mkBuilder (mkBuffer (Some 26 :: replicate 191 None) None 192 20) 20 1)
      = Done (B', 1 + Z.of_nat (length header)) /\
    length header = 1%nat /\
    builder_wf false B' /\
    _size B' = 20 /\
    capacity (_buffer B') = 192 /\
    _builder_pos B' = 1 + Z.of_nat (length header) + 3 /\
    take (1 + length header) (data (_buffer B')) = [Some 26] ++ map Some header /\
    Velocypack.getString (header ++ [102; 111; 111] ++ [24])
      = Velocypack.Got (3, length header) /\
    Velocypack.copyString (header ++ [102; 111; 111] ++ [24])
      = Velocypack.Got [102; 111; 111].
Proof.
  apply (addString_getString_agree false 3
           (mkBuilder (mkBuffer (Some 26 :: replicate 191 None) None 192 20)
                      20 1)
           [102; 111; 111] [24]).
  - unfold builder_wf, buffer_wf, roomy. vm_compute.
    split; [split; [reflexivity | split; [split; discriminate | discriminate]] |].
    split; [discriminate |]. split; [reflexivity | split; discriminate].
  - lia.
  - vm_compute. reflexivity.
  - vm_compute. discriminate.
  - reflexivity.
Defined.

Lemma addString_reserves_no_head_witness :
  addString false 3
    (mkBuilder (mkBuffer (replicate 192 None) (Some (replicate 300 (Some 7)))
                         300 300) 300 300)
    = OutOfBounds /\
  exists B',
    addString true 200
      (mkBuilder (mkBuffer (replicate 190 (Some 7) ++ replicate 2 (Some 165))
                           None 192 190) 190 190)
      = Done (B', 199) /\
    data (_buffer B') !! 190%nat = Some (Some 165) /\
    _size B' = 198 /\
    _builder_pos B' = 399.
Proof.
  split.
  - apply (addString_reserves_no_head false 3
             (mkBuilder (mkBuffer (replicate 192 None)
                                  (Some (replicate 300 (Some 7))) 300 300)
                        300 300)).
    + unfold builder_wf, buffer_wf, roomy. vm_compute.
      split; [split; [reflexivity | split; [split; discriminate | reflexivity]] |].
      split; [discriminate |]. split; [reflexivity | split; discriminate].
    + lia.
    + reflexivity.
    + reflexivity.
  - apply (addString_reserves_no_head true 200
             (mkBuilder (mkBuffer (replicate 190 (Some 7)
                                     ++ replicate 2 (Some 165))
                                  None 192 190) 190 190)).
    + unfold builder_wf, buffer_wf, roomy. vm_compute.
      split; [split; [reflexivity | split; [split; discriminate | discriminate]] |].
      split; [discriminate |]. split; [reflexivity | split; discriminate].
    + lia.
    + reflexivity.
    + lia.
    + vm_compute. reflexivity.
    + vm_compute. split; [reflexivity | discriminate].
Defined.

End VelocypackBufferExamples.

Section BenchmarkCounterFacts.

Import BenchmarkCounter.

Local Open Scope Z_scope.

Variable bits : Z.

Lemma next_spec value c :
  0 <= _value c <= _maxValue c ->
  0 <= value -> _maxValue c + Z.max value 1 < 2 ^ bits ->
  let (r, c') := next bits value c in
  _maxValue c' = _maxValue c /\ _failures c' = _failures c /\
  _value c' = _value c + r /\
  _value c' <= _maxValue c /\
  r = Z.min (Z.max value 1) (_maxValue c - _value c).
Proof.
  intros Hc Hv Hfit. unfold next, T.
  set (realValue := if value =? 0 then 1 else value).
  assert (Hreal : realValue = Z.max value 1).
  { unfold realValue. destruct (Z.eqb_spec value 0); lia. }
  rewrite (Z.mod_small (_value c + realValue)) by lia.
  destruct (Z.ltb_spec (_maxValue c) (_value c + realValue));
    cbn [_value _maxValue _failures].
  - rewrite Z.mod_small by lia. lia.
  - lia.
Qed.

Lemma nexts_spec values : forall c,
  0 <= _value c <= _maxValue c ->
  Forall (fun value => 0 <= value /\ _maxValue c + Z.max value 1 < 2 ^ bits)
         values ->
  let (rs, c') := nexts bits values c in
  _maxValue c' = _maxValue c /\ _failures c' = _failures c /\
  _value c' = _value c + total rs /\
  _value c' <= _maxValue c /\
  Forall2 (fun value r => 0 <= r <= Z.max value 1) values rs /\
  _value c' =
    Z.min (_maxValue c) (_value c + total (map (fun v => Z.max v 1) values)).
Proof.
  induction values as [| value values IH]; intros c Hc Hall.
  - simpl. repeat split; try lia. constructor.
  - apply Forall_cons in Hall as ((Hv & Hfit) & Hall).
    pose proof (next_spec value c Hc Hv Hfit) as Hnext.
    simpl. destruct (next bits value c) as [r c1].
    destruct Hnext as (Hmax1 & Hfail1 & Hval1 & Hle1 & Hr).
    assert (Hc1 : 0 <= _value c1 <= _maxValue c1) by lia.
    rewrite <- Hmax1 in Hall.
    pose proof (IH c1 Hc1 Hall) as Hrest.
    destruct (nexts bits values c1) as [rs c2].
    destruct Hrest as (Hmax2 & Hfail2 & Hval2 & Hle2 & Hrs & Hfinal).
    assert (Hnonneg : 0 <= total (map (fun v => Z.max v 1) values)).
    { clear. induction values as [| v vs IHv]; simpl; lia. }
    simpl.
    split; [lia |]. split; [congruence |]. split; [lia |]. split; [lia |].
    split; [constructor; [lia | exact Hrs] |].
    rewrite Hfinal, Hmax1, Hval1, Hr. lia.
Qed.

(** X14.  As long as the counter cannot wrap, the calls of [next] hand out
    the range from the initial value to [_maxValue] and no more: every
    result is at most the number asked for (1 when 0 is asked for), the
    results add up to the distance the counter has moved, and the counter
    ends at the initial value plus all that was asked for, or at
    [_maxValue] if that is less. *)
Theorem next_hands_out_the_range (values : list Z) (c : BenchmarkCounter) :
  0 <= getValue c <= _maxValue c ->
  Forall (fun value => 0 <= value /\ _maxValue c + Z.max value 1 < 2 ^ bits)
         values ->
  let rs := (nexts bits values c).1 in
  let c' := (nexts bits values c).2 in
  Forall2 (fun value r => 0 <= r <= Z.max value 1) values rs /\
  total rs = getValue c' - getValue c /\
  getValue c' =
    Z.min (_maxValue c)
          (getValue c + total (map (fun v => Z.max v 1) values)) /\
  _maxValue c' = _maxValue c /\
  failures c' = failures c.
Proof.
  intros Hc Hall. pose proof (nexts_spec values c Hc Hall) as H.
  cbv zeta. destruct (nexts bits values c) as [rs c'].
  destruct H as (Hmax & Hfail & Hval & _ & Hrs & Hfinal).
  unfold getValue, failures. cbn [fst snd].
  split; [exact Hrs |]. split; [lia |]. split; [exact Hfinal |].
  split; [exact Hmax | exact Hfail].
Qed.

End BenchmarkCounterFacts.

Section BenchmarkCounterExamples.

Import BenchmarkCounter.

Local Open Scope Z_scope.

Lemma next_hands_out_the_range_witness :
  Forall2 (fun value r => 0 <= r <= Z.max value 1) [3; 0; 20; 5] [3; 1; 6; 0] /\
  total [3; 1; 6; 0] = 10 - 0 /\
  10 = Z.min 10 (0 + total (map (fun v => Z.max v 1) [3; 0; 20; 5])) /\
  10 = 10 /\
  0 = 0.
Proof.
  apply (next_hands_out_the_range 64 [3; 0; 20; 5]
           (BenchmarkCounter_new 0 10)).
  - vm_compute. split; discriminate.
  - repeat constructor; vm_compute; congruence.
Defined.

End BenchmarkCounterExamples.

Section SchedulerThreadLogFacts.

Import SchedulerThread SchedulerThreadLog.

Local Open Scope Z_scope.

Variable setupTask : pointer -> pointer -> EventLoop -> bool.

Lemma execute_work_log w t :
  let t' := (execute_work setupTask w t).1 in
  let ev := (execute_work setupTask w t).2 in
  popped ev = [] /\ polls ev = 0%nat /\
  deleted ev = tasks_to_delete setupTask (_loop t) [w] /\
  _numberTasks t' = _numberTasks t + net_tasks setupTask (_loop t) [w].
Proof.
  unfold execute_work, tasks_to_delete, net_tasks, setup_fails.
  destruct w as [[] sched tsk]; simpl;
    try destruct (setupTask tsk sched (_loop t)); simpl;
    repeat split; try reflexivity; lia.
Qed.

Lemma popped_app ev1 ev2 : popped (ev1 ++ ev2) = popped ev1 ++ popped ev2.
Proof. apply omap_app. Qed.

Lemma deleted_app ev1 ev2 : deleted (ev1 ++ ev2) = deleted ev1 ++ deleted ev2.
Proof. apply omap_app. Qed.

Lemma set_up_app ev1 ev2 : set_up (ev1 ++ ev2) = set_up ev1 ++ set_up ev2.
Proof. apply omap_app. Qed.

Lemma cleaned_up_app ev1 ev2 :
  cleaned_up (ev1 ++ ev2) = cleaned_up ev1 ++ cleaned_up ev2.
Proof. apply omap_app. Qed.

Lemma polls_app ev1 ev2 : polls (ev1 ++ ev2) = (polls ev1 + polls ev2)%nat.
Proof. unfold polls. now rewrite omap_app, length_app. Qed.

Lemma tasks_to_delete_app loop ws1 ws2 :
  tasks_to_delete setupTask loop (ws1 ++ ws2)
  = tasks_to_delete setupTask loop ws1 ++ tasks_to_delete setupTask loop ws2.
Proof. apply omap_app. Qed.

Lemma net_tasks_app loop ws1 ws2 :
  net_tasks setupTask loop (ws1 ++ ws2)
  = net_tasks setupTask loop ws1 + net_tasks setupTask loop ws2.
Proof.
  unfold net_tasks. induction ws1 as [| w ws1 IH]; simpl; [reflexivity |].
  rewrite IH. lia.
Qed.

Lemma drain_cons w q t :
  drain setupTask (w :: q) t =
    let '(t1, ev1) := execute_work setupTask w (set_queue q t) in
    let '(t2, ev2) := drain setupTask q t1 in
    (t2, [ELock; EPopFront w; EUnlock] ++ ev1 ++ ev2).
Proof. reflexivity. Qed.

Lemma drain_log q : forall t,
  let t' := (drain setupTask q t).1 in
  let ev := (drain setupTask q t).2 in
  popped ev = q /\ polls ev = 0%nat /\
  deleted ev = tasks_to_delete setupTask (_loop t) q /\
  _numberTasks t' = _numberTasks t + net_tasks setupTask (_loop t) q.
Proof.
  induction q as [| w q IH]; intros t.
  - simpl. repeat split; try reflexivity. lia.
  - rewrite drain_cons.
    pose proof (execute_work_log w (set_queue q t)) as Hw.
    pose proof (execute_work_keeps setupTask w (set_queue q t)) as Hk.
    destruct (execute_work setupTask w (set_queue q t)) as [t1 ev1].
    cbn [fst snd] in Hw, Hk.
    destruct Hw as (Hp1 & Hl1 & Hd1 & Hn1).
    destruct Hk as (_ & Hloop1 & _).
    specialize (IH t1).
    destruct (drain setupTask q t1) as [t2 ev2]. cbn [fst snd] in *.
    destruct IH as (Hp2 & Hl2 & Hd2 & Hn2).
    rewrite !popped_app, !deleted_app, !polls_app, Hp1, Hp2, Hl1, Hl2, Hd1, Hd2.
    rewrite Hloop1 in *. simpl _loop in *.
    change (w :: q) with ([w] ++ q).
    rewrite tasks_to_delete_app, net_tasks_app.
    repeat split; try reflexivity. simpl _numberTasks in Hn1. lia.
Qed.

Variable TRI_HAVE_POSIX_THREADS : bool.

Lemma drain_commands_log t :
  _queue t = [] \/ _hasWork t = true ->
  let t' := (drain_commands setupTask t).1 in
  let ev := (drain_commands setupTask t).2 in
  popped ev = _queue t /\ polls ev = 0%nat /\ _queue t' = [] /\
  deleted ev = tasks_to_delete setupTask (_loop t) (_queue t) /\
  _numberTasks t' = _numberTasks t + net_tasks setupTask (_loop t) (_queue t).
Proof.
  intros Hq. unfold drain_commands.
  destruct (_hasWork t) eqn:Hw.
  - pose proof (drain_log (_queue t) t) as Hd.
    pose proof (drain_keeps setupTask (_queue t) t) as Hk.
    cbv zeta in *. destruct Hd as (H1 & H2 & H3 & H4).
    destruct Hk as (_ & _ & H5 & _). auto.
  - destruct Hq as [Hq | Hq]; [| discriminate].
    cbv zeta. cbn [fst snd]. rewrite Hq. simpl.
    repeat split; try reflexivity. lia.
Qed.

Lemma loop_stopping rounds t :
  _stopping t = true ->
  loop setupTask TRI_HAVE_POSIX_THREADS rounds t
  = Returned (set_queue [] (set_stopped true t)) (discard (_queue t)).
Proof. intros Hs. destruct rounds; simpl; now rewrite Hs. Qed.

Lemma discard_log q :
  popped (discard q) = q /\ polls (discard q) = 0%nat /\
  set_up (discard q) = [] /\ cleaned_up (discard q) = [] /\
  deleted (discard q) = destroy_tasks q.
Proof.
  induction q as [| w q (H1 & H2 & H3 & H4 & H5)]; [now repeat split |].
  change (discard (w :: q))
    with ([ELock; EPopFront w; EUnlock] ++ discard_work w ++ discard q).
  rewrite !popped_app, !polls_app, !set_up_app, !cleaned_up_app, !deleted_app.
  rewrite H1, H2, H3, H4, H5.
  unfold destroy_tasks, discard_work.
  destruct w as [[] sched tsk]; simpl; repeat split; reflexivity.
Qed.

(** X15.  The command loop of [run] takes the queued commands one by one
    in the order they were queued and leaves the queue empty; it deletes
    exactly the tasks of the DESTROY commands and of the SETUP commands whose
    setup fails, and the task count changes by the successful setups less
    the CLEANUP and DESTROY commands.  Without the has-work flag it takes
    nothing. *)
Theorem command_loop_takes_queue_in_order (t : SchedulerThread) :
  let t' := (drain_commands setupTask t).1 in
  let ev := (drain_commands setupTask t).2 in
  if _hasWork t then
    popped ev = _queue t /\ _queue t' = [] /\
    deleted ev = tasks_to_delete setupTask (_loop t) (_queue t) /\
    _numberTasks t'
      = _numberTasks t + net_tasks setupTask (_loop t) (_queue t)
  else
    t' = t /\ popped ev = [] /\ deleted ev = [].
Proof.
  cbv zeta. destruct (_hasWork t) eqn:Hw.
  - destruct (drain_commands_log t (or_intror Hw)) as (H1 & _ & H2 & H3 & H4).
    auto.
  - unfold drain_commands. rewrite Hw. now repeat split.
Qed.

(** X17.  When shutdown was asked for before [run] starts, [run] returns
    without a poll: it sets up and cleans up nothing, takes the queued
    commands and deletes only the tasks of the DESTROY commands, so a
    queued SETUP is dropped with its task neither set up nor deleted.
    On the stopped thread [registerTask] returns false and does nothing,
    [unregisterTask] does nothing and [destroyTask] deletes the task at
    once. *)
Theorem run_after_shutdown_drops_queue (rounds : list Round)
    (t : SchedulerThread) (caller : nat) (sched tsk : pointer) :
  _stopping t = true ->
  exists t' ev,
    run setupTask TRI_HAVE_POSIX_THREADS rounds t = Returned t' ev /\
    _stopped t' = true /\ _queue t' = [] /\
    _numberTasks t' = _numberTasks t /\
    polls ev = 0%nat /\ set_up ev = [] /\ cleaned_up ev = [] /\
    popped ev = _queue t /\
    deleted ev = destroy_tasks (_queue t) /\
    registerTask setupTask t' caller sched tsk = Ok (mkRegistered t' [] false) /\
    unregisterTask t' caller tsk = (t', []) /\
    destroyTask t' caller tsk = (t', [EDeleteTask tsk]).
Proof.
  intros Hs.
  destruct (discard_log (_queue t)) as (H1 & H2 & H3 & H4 & H5).
  unfold run. rewrite Hs, (loop_stopping _ _ Hs). cbn [negb andb prepend].
  eexists _, _. split; [reflexivity |].
  rewrite popped_app, polls_app, deleted_app, set_up_app, cleaned_up_app.
  rewrite H1, H2, H3, H4, H5.
  destruct (_defaultLoop t && TRI_HAVE_POSIX_THREADS);
    repeat split; reflexivity.
Qed.

End SchedulerThreadLogFacts.

Section SchedulerThreadLogExamples.

Import SchedulerThread SchedulerThreadLog.

Local Open Scope Z_scope.

Lemma run_after_shutdown_drops_queue_witness :
  exists t' ev,
    run (fun _ _ _ => true) true []
        (mkThread (Some 1%nat) false 7%nat true false false true
           [mkWork SETUP (Some 1%nat) (Some 10%nat); mkWork DESTROY None (Some 11%nat)]
           0 0%nat)
      = Returned t' ev /\
    _stopped t' = true /\ _queue t' = [] /\
    _numberTasks t' = 0 /\
    polls ev = 0%nat /\ set_up ev = [] /\ cleaned_up ev = [] /\
    popped ev = [mkWork SETUP (Some 1%nat) (Some 10%nat); mkWork DESTROY None (Some 11%nat)] /\
    deleted ev = [Some 11%nat] /\
    registerTask (fun _ _ _ => true) t' 5%nat (Some 1%nat) (Some 12%nat)
      = Ok (mkRegistered t' [] false) /\
    unregisterTask t' 5%nat (Some 12%nat) = (t', []) /\
    destroyTask t' 5%nat (Some 12%nat) = (t', [EDeleteTask (Some 12%nat)]).
Proof.
  apply (run_after_shutdown_drops_queue (fun _ _ _ => true) true []
           (mkThread (Some 1%nat) false 7%nat true false false true
              [mkWork SETUP (Some 1%nat) (Some 10%nat); mkWork DESTROY None (Some 11%nat)]
              0 0%nat)
           5%nat (Some 1%nat) (Some 12%nat)).
  reflexivity.
Defined.

End SchedulerThreadLogExamples.

Section SchedulerThreadStepsFacts.

Import SchedulerThread SchedulerThreadLog SchedulerThreadSteps.

Local Open Scope Z_scope.

Variable setupTask : pointer -> pointer -> EventLoop -> bool.
Variable TRI_HAVE_POSIX_THREADS : bool.

Lemma pushed_app ev1 ev2 : pushed (ev1 ++ ev2) = pushed ev1 ++ pushed ev2.
Proof. apply omap_app. Qed.

Lemma tasks_to_set_up_app ws1 ws2 :
  tasks_to_set_up (ws1 ++ ws2) = tasks_to_set_up ws1 ++ tasks_to_set_up ws2.
Proof. apply omap_app. Qed.

Lemma tasks_to_clean_up_app loop ws1 ws2 :
  tasks_to_clean_up setupTask loop (ws1 ++ ws2)
  = tasks_to_clean_up setupTask loop ws1 ++ tasks_to_clean_up setupTask loop ws2.
Proof. apply omap_app. Qed.

Lemma destroy_tasks_app ws1 ws2 :
  destroy_tasks (ws1 ++ ws2) = destroy_tasks ws1 ++ destroy_tasks ws2.
Proof. apply omap_app. Qed.

(** What one command of the command loop adds to the trace. *)
Lemma execute_work_trace w t :
  let t' := (execute_work setupTask w t).1 in
  let ev := (execute_work setupTask w t).2 in
  popped ev = [] /\ pushed ev = [] /\
  set_up ev = tasks_to_set_up [w] /\
  cleaned_up ev = tasks_to_clean_up setupTask (_loop t) [w] /\
  deleted ev = tasks_to_delete setupTask (_loop t) [w] /\
  _numberTasks t' = _numberTasks t + net_tasks setupTask (_loop t) [w] /\
  _loop t' = _loop t /\ _stopped t' = _stopped t /\ _queue t' = _queue t.
Proof.
  unfold execute_work, tasks_to_set_up, tasks_to_clean_up, tasks_to_delete,
    net_tasks, setup_fails.
  destruct w as [[] sched tsk]; simpl;
    try destruct (setupTask tsk sched (_loop t)); simpl;
    repeat split; try reflexivity; lia.
Qed.

Lemma discard_work_trace w :
  popped (discard_work w) = [] /\ set_up (discard_work w) = [] /\
  cleaned_up (discard_work w) = [] /\
  deleted (discard_work w) = destroy_tasks [w].
Proof. destruct w as [[] sched tsk]; repeat split; reflexivity. Qed.

Lemma start_in_order t :
  _queue t = [] -> _stopped t = false -> in_order setupTask t (start t).
Proof.
  intros Hq Hs. unfold in_order, start. simpl. rewrite Hq, Hs.
  repeat split; try reflexivity.
  - exists []. repeat split; try reflexivity. simpl. lia.
  - exists []. repeat split; reflexivity.
Qed.

Lemma sigmask_trace (b : bool) :
  popped (if b then [ESigmask] else []) = [] /\
  set_up (if b then [ESigmask] else []) = [] /\
  cleaned_up (if b then [ESigmask] else []) = [] /\
  deleted (if b then [ESigmask] else []) = [].
Proof. destruct b; repeat split; reflexivity. Qed.

Ltac machine_fields :=
  cbn [thread location waiting log after calls logs logs_after called
       behind_stopped held_by_loop held_by_discard] in *.

Ltac trace_fields :=
  rewrite ?popped_app, ?pushed_app, ?set_up_app, ?cleaned_up_app,
    ?deleted_app;
  cbn [popped pushed set_up cleaned_up deleted omap list_omap];
  rewrite ?app_nil_r.

Lemma run_step_in_order t0 m m' :
  in_order setupTask t0 m ->
  run_step setupTask TRI_HAVE_POSIX_THREADS m = Some m' ->
  in_order setupTask t0 m'.
Proof.
  intros (Hloop & Hst & Haft & Hfifo & (ran & Hp & Hsu & Hcu & Hde & Hn)
          & (dropped & Hp' & Hsu' & Hcu' & Hde')) Hstep.
  unfold run_step in Hstep.
  destruct m as [t l ws lg af cs]. machine_fields.
  destruct l; machine_fields.
  - (* AtStart *)
    injection Hstep as <-. unfold in_order. machine_fields.
    destruct (sigmask_trace (_defaultLoop t && TRI_HAVE_POSIX_THREADS))
      as (S1 & S2 & S3 & S4).
    rewrite popped_app, set_up_app, cleaned_up_app, deleted_app, S1, S2, S3, S4,
      !app_nil_r.
    split; [exact Hloop |]. split; [exact Hst |]. split; [exact Haft |].
    split; [exact Hfifo |].
    split; [exists ran; auto | exists dropped; auto].
  - (* AtOpenTest *)
    destruct (negb (_stopping t) && negb (_open t));
      injection Hstep as <-; unfold in_order; machine_fields; trace_fields;
      (split; [exact Hloop |]); (split; [exact Hst |]);
      (split; [exact Haft |]); (split; [exact Hfifo |]);
      (split; [exists ran; auto | exists dropped; auto]).
  - (* AtStoppingTest *)
    destruct (negb (_stopping t));
      injection Hstep as <-; unfold in_order; machine_fields; trace_fields;
      (split; [exact Hloop |]); (split; [exact Hst |]);
      (split; [exact Haft |]); (split; [exact Hfifo |]);
      (split; [exists ran; auto | exists dropped; auto]).
  - (* InEventLoop *)
    discriminate.
  - (* AtQueueLock *)
    rewrite (Haft Hst) in *. rewrite app_nil_r in Hp.
    assert (Hbreak : in_order setupTask t0
              (mkMachine t AtStoppingTest ws (lg ++ [ELock; EUnlock]) [] cs)).
    { unfold in_order. machine_fields. trace_fields.
      split; [exact Hloop |]. split; [exact Hst |]. split; [reflexivity |].
      split; [exact Hfifo |].
      split; [exists ran; rewrite app_nil_r; auto | exists dropped; auto]. }
    destruct (negb (_hasWork t)); [injection Hstep as <-; exact Hbreak |].
    destruct (_queue t) as [| w rest] eqn:Hq;
      injection Hstep as <-; [exact Hbreak |].
    unfold in_order. machine_fields. trace_fields.
    split; [exact Hloop |]. split; [exact Hst |]. split; [reflexivity |].
    split.
    { rewrite Hfifo. simpl. rewrite <- app_assoc. reflexivity. }
    split; [exists ran; rewrite Hp; auto | exists dropped; auto].
  - (* AtSwitch *)
    pose proof (execute_work_trace w t) as Hw.
    destruct (execute_work setupTask w t) as [t' ev]. cbn [fst snd] in Hw.
    destruct Hw as (W1 & _ & W3 & W4 & W5 & W6 & W7 & W8 & W9).
    injection Hstep as <-. unfold in_order. machine_fields.
    rewrite popped_app, set_up_app, cleaned_up_app, deleted_app,
      W1, W3, W4, W5, W6, W7, W8, W9, app_nil_r, Hloop.
    split; [reflexivity |]. split; [exact Hst |]. split; [exact Haft |].
    split; [exact Hfifo |].
    split; [| exists dropped; auto].
    exists (ran ++ [w]).
    rewrite tasks_to_set_up_app, tasks_to_clean_up_app, tasks_to_delete_app,
      net_tasks_app, app_nil_r, Hsu, Hcu, Hde, Hn.
    repeat split; try reflexivity; try assumption. lia.
  - (* AtStopped *)
    injection Hstep as <-. unfold in_order. machine_fields. trace_fields.
    split; [exact Hloop |]. split; [reflexivity |].
    split; [discriminate |]. split; [exact Hfifo |].
    split; [exists ran; auto | exists dropped; auto].
  - (* AtDiscardLock *)
    rewrite app_nil_r in Hp'.
    destruct (_queue t) as [| w rest] eqn:Hq;
      injection Hstep as <-; unfold in_order; machine_fields; trace_fields;
      (split; [exact Hloop |]); (split; [exact Hst |]);
      (split; [intros Hf; simpl in Hf; rewrite Hf in Hst; discriminate |]).
    + split; [rewrite Hfifo, Hq; reflexivity |].
      split; [exists ran; auto | exists dropped; rewrite app_nil_r; auto].
    + split.
      { rewrite Hfifo. simpl. rewrite <- !app_assoc. reflexivity. }
      split; [exists ran; auto | exists dropped; rewrite Hp'; auto].
  - (* AtDiscardSwitch *)
    destruct (discard_work_trace w) as (D1 & D2 & D3 & D4).
    injection Hstep as <-. unfold in_order. machine_fields.
    rewrite popped_app, set_up_app, cleaned_up_app, deleted_app,
      D1, D2, D3, D4, !app_nil_r, Hsu', Hcu', Hde'.
    split; [exact Hloop |]. split; [exact Hst |].
    split; [intros Hf; rewrite Hf in Hst; discriminate |].
    split; [exact Hfifo |].
    split; [exists ran; auto |].
    exists (dropped ++ [w]). rewrite destroy_tasks_app, app_nil_r.
    repeat split; try reflexivity. exact Hp'.
  - discriminate.
  - discriminate.
Qed.

Lemma poll_step_in_order t0 p m m' :
  in_order setupTask t0 m ->
  poll_step TRI_HAVE_POSIX_THREADS p m = Some m' ->
  in_order setupTask t0 m'.
Proof.
  intros (Hloop & Hst & Haft & Hfifo & (ran & Hp & Hsu & Hcu & Hde & Hn)
          & (dropped & Hp' & Hsu' & Hcu' & Hde')) Hstep.
  unfold poll_step in Hstep.
  destruct m as [t l ws lg af cs]. machine_fields.
  destruct l; try discriminate. machine_fields.
  destruct p as [| e]; [| destruct (TRI_HAVE_POSIX_THREADS && _stopping t)];
    injection Hstep as <-; unfold in_order; machine_fields; trace_fields;
    (split; [exact Hloop |]); (split; [exact Hst |]);
    (split; [exact Haft |]); (split; [exact Hfifo |]);
    (split; [exists ran; auto | exists dropped; auto]).
Qed.

(** A step of another thread: it leaves the loop, the stopped flag and the
    task count alone, and what it pushes goes to the end of the queue. *)
Lemma called_in_order t0 m ev t' ws' new :
  in_order setupTask t0 m ->
  _loop t' = _loop (thread m) ->
  _stopped t' = _stopped (thread m) ->
  _numberTasks t' = _numberTasks (thread m) ->
  _queue t' = _queue (thread m) ++ new ->
  pushed ev = new ->
  in_order setupTask t0 (called ev t' ws' m).
Proof.
  intros (Hloop & Hst & Haft & Hfifo & Hran & Hdropped) H1 H2 H3 H4 H5.
  unfold in_order. machine_fields.
  rewrite H1, H2, H3, H4, pushed_app, H5, Hfifo, <- !app_assoc.
  auto 10.
Qed.

Lemma call_in_order t0 a m m' :
  match a with RunStep | PollEnds _ => False | _ => True end ->
  in_order setupTask t0 m ->
  step setupTask TRI_HAVE_POSIX_THREADS a m = Some m' ->
  in_order setupTask t0 m'.
Proof.
  intros Ha Hm Hstep.
  destruct a as [| p | c | i | |]; try contradiction; clear Ha;
    cbn [step] in Hstep.
  - (* Enters *)
    injection Hstep as <-. unfold enters.
    destruct (_stopped (thread m)); [destruct c |];
      try exact Hm;
      apply (called_in_order t0 m _ _ _ []); auto using app_nil_r.
  - (* Pushes *)
    unfold pushes in Hstep.
    destruct (waiting m !! i) as [w |]; [| discriminate].
    injection Hstep as <-.
    apply (called_in_order t0 m _ _ _ [w]); auto.
  - (* BeginShutdown *)
    injection Hstep as <-.
    apply (called_in_order t0 m _ _ _ []); auto.
    simpl. now rewrite app_nil_r.
  - (* Open *)
    injection Hstep as <-.
    apply (called_in_order t0 m _ _ _ []); auto.
    simpl. now rewrite app_nil_r.
Qed.

Lemma step_in_order t0 a m m' :
  in_order setupTask t0 m ->
  step setupTask TRI_HAVE_POSIX_THREADS a m = Some m' ->
  in_order setupTask t0 m'.
Proof.
  intros Hm Hstep. destruct a.
  - exact (run_step_in_order _ _ _ Hm Hstep).
  - exact (poll_step_in_order _ _ _ _ Hm Hstep).
  - exact (call_in_order _ (Enters c) _ _ I Hm Hstep).
  - exact (call_in_order _ (Pushes i) _ _ I Hm Hstep).
  - exact (call_in_order _ BeginShutdown _ _ I Hm Hstep).
  - exact (call_in_order _ Open _ _ I Hm Hstep).
Qed.

Lemma exec_in_order t0 acts : forall m m',
  in_order setupTask t0 m ->
  exec setupTask TRI_HAVE_POSIX_THREADS acts m = Some m' ->
  in_order setupTask t0 m'.
Proof.
  induction acts as [| a acts IH]; intros m m' Hm; simpl.
  - now intros [= <-].
  - destruct (step setupTask TRI_HAVE_POSIX_THREADS a m) as [m1 |] eqn:Hstep;
      [| discriminate].
    apply IH. exact (step_in_order _ _ _ _ Hm Hstep).
Qed.

(** The two steps of a call of another thread, one right after the other,
    are the call as a whole. *)
Lemma call_is_enter_then_push (t : SchedulerThread) (caller : nat) (c : Call) :
  _stopped t = false -> threadId t <> caller ->
  match c with
  | CallRegisterTask sched tsk =>
      registerTask setupTask t caller (Some sched) (Some tsk)
      = Ok (mkRegistered (push (command c) t).1 (push (command c) t).2 true)
  | CallUnregisterTask tsk =>
      unregisterTask t caller tsk = push (command c) t
  | CallDestroyTask tsk =>
      destroyTask t caller tsk = push (command c) t
  end.
Proof.
  intros Hs Hne. apply Nat.eqb_neq in Hne.
  destruct c; unfold registerTask, unregisterTask, destroyTask, push;
    simpl; rewrite Hs, Hne; reflexivity.
Qed.

(** X16.  [run] beside the calls of other threads, whatever the order of
    their steps, on a thread that starts with an empty queue.  The commands
    leave the queue in the order in which they were pushed, each at most
    once.  What the command loop took it has run, but for the one it holds:
    the set-ups, clean-ups and deletions of the trace and the task count
    are those of these commands.  What [run] took after [_stopped = true]
    it has only dropped, deleting the tasks of the DESTROY commands and no
    more.  And there is such an order of steps in which [registerTask]
    finds the thread not stopped, returns true and pushes its command after
    the last pass of the command loop: [run] returns, and the task was
    neither set up nor deleted. *)
Theorem commands_leave_queue_in_order_once (t : SchedulerThread) :
  _queue t = [] -> _stopped t = false ->
  (forall acts m,
     exec setupTask TRI_HAVE_POSIX_THREADS acts (start t) = Some m ->
     pushed (calls m) = popped (log m) ++ popped (after m) ++ _queue (thread m) /\
     (exists ran,
        popped (log m) = ran ++ held_by_loop (location m) /\
        set_up (log m) = tasks_to_set_up ran /\
        cleaned_up (log m) = tasks_to_clean_up setupTask (_loop t) ran /\
        deleted (log m) = tasks_to_delete setupTask (_loop t) ran /\
        _numberTasks (thread m)
          = _numberTasks t + net_tasks setupTask (_loop t) ran) /\
     (exists dropped,
        popped (after m) = dropped ++ held_by_discard (location m) /\
        set_up (after m) = [] /\ cleaned_up (after m) = [] /\
        deleted (after m) = destroy_tasks dropped) /\
     (_stopped (thread m) = false -> after m = []) /\
     (location m = RunReturned -> _stopped (thread m) = true)) /\
  (forall (caller : nat) (sched tsk : addr),
     threadId t <> caller ->
     let w := mkWork SETUP (Some sched) (Some tsk) in
     exists before then_ m1 m,
       exec setupTask TRI_HAVE_POSIX_THREADS before (start t) = Some m1 /\
       registerTask setupTask (thread m1) caller (Some sched) (Some tsk)
         = Ok (mkRegistered (push w (thread m1)).1 (push w (thread m1)).2 true) /\
       exec setupTask TRI_HAVE_POSIX_THREADS
         (before ++ Enters (CallRegisterTask sched tsk) :: Pushes 0 :: then_)
         (start t) = Some m /\
       location m = RunReturned /\
       pushed (calls m) = [w] /\ popped (after m) = [w] /\
       _queue (thread m) = [] /\
       set_up (log m ++ after m) = [] /\
       cleaned_up (log m ++ after m) = [] /\
       deleted (log m ++ after m) = [] /\
       _numberTasks (thread m) = _numberTasks t).
Proof.
  intros Hq Hs. split.
  - intros acts m Hexec.
    destruct (exec_in_order t acts _ _ (start_in_order t Hq Hs) Hexec)
      as (_ & Hst & Haft & Hfifo & Hran & Hdropped).
    split; [exact Hfifo |]. split; [exact Hran |]. split; [exact Hdropped |].
    split; [exact Haft |].
    intros Hl. rewrite Hst, Hl. reflexivity.
  - intros caller sched tsk Hne w.
    exists [RunStep; BeginShutdown; RunStep; RunStep],
           [RunStep; RunStep; RunStep; RunStep].
    destruct t as [sch dl lp stg stp op hw q n tid].
    simpl in Hq, Hs, Hne. subst q stp.
    eexists. eexists.
    split; [reflexivity |].
    split.
    { apply (call_is_enter_then_push _ caller (CallRegisterTask sched tsk));
        [reflexivity | exact Hne]. }
    split; [reflexivity |].
    simpl. destruct (dl && TRI_HAVE_POSIX_THREADS); repeat split; reflexivity.
Qed.

End SchedulerThreadStepsFacts.

Section SchedulerThreadStepsExamples.

Import SchedulerThread SchedulerThreadLog SchedulerThreadSteps.

Local Open Scope Z_scope.

(** X16 on a new thread of loop 7 whose set-ups succeed, in a build with
    POSIX threads.  The thread waits to be opened and polls; thread 5
    registers task 10 and the poll throws: the exception is logged and the
    command loop sets task 10 up.  Then shutdown is asked for.  A second
    [registerTask], for task 11, and a [destroyTask] for task 10 find the
    thread not stopped; the first pushes after [run] has left its loop, and
    is dropped; the second pushes after [run] has returned, and stays in the
    queue.  A [destroyTask] for task 12 finds the thread stopped and deletes
    the task itself. *)
Lemma commands_leave_queue_in_order_once_witness :
  let t := SchedulerThread_new (Some 1%nat) 7%nat false 0%nat in
  let w1 := mkWork SETUP (Some 1%nat) (Some 10%nat) in
  let w2 := mkWork SETUP (Some 1%nat) (Some 11%nat) in
  let w3 := mkWork DESTROY None (Some 10%nat) in
  let acts :=
      [RunStep; RunStep; Open; RunStep; RunStep;
       Enters (CallRegisterTask 1%nat 10%nat); Pushes 0;
       PollEnds (PollThrows 3%nat);
       RunStep; RunStep; RunStep;
       BeginShutdown;
       Enters (CallRegisterTask 1%nat 11%nat);
       Enters (CallDestroyTask (Some 10%nat));
       RunStep; Pushes 0; RunStep;
       Enters (CallDestroyTask (Some 12%nat));
       RunStep; RunStep; RunStep;
       Pushes 0] in
  exists m,
    exec (fun _ _ _ => true) true acts (start t) = Some m /\
    location m = RunReturned /\
    _stopped (thread m) = true /\
    pushed (calls m) = [w1; w2; w3] /\
    popped (log m) = [w1] /\
    popped (after m) = [w2] /\
    _queue (thread m) = [w3] /\
    set_up (log m) = [Some 10%nat] /\
    cleaned_up (log m) = [] /\
    deleted (log m) = [] /\
    set_up (after m) = [] /\ cleaned_up (after m) = [] /\
    deleted (after m) = [] /\
    deleted (calls m) = [Some 12%nat] /\
    _numberTasks (thread m) = 1.
Proof.
  intros t w1 w2 w3 acts.
  destruct (commands_leave_queue_in_order_once (fun _ _ _ => true) true t
              eq_refl eq_refl) as (Hall & _).
  eexists. split; [vm_compute; reflexivity |].
  match goal with
  | |- location ?m = _ /\ _ =>
      destruct (Hall acts m ltac:(vm_compute; reflexivity))
        as (Hfifo & (ran & Hran & Hsu & Hcu & Hde & Hn)
            & (dropped & Hdropped & Hsu' & Hcu' & Hde') & _ & Hret)
  end.
  split; [reflexivity |].
  split; [exact (Hret eq_refl) |].
  split; [reflexivity |]. split; [reflexivity |]. split; [reflexivity |].
  split; [reflexivity |]. split; [reflexivity |]. split; [reflexivity |].
  split; [reflexivity |].
  split; [exact Hsu' |]. split; [exact Hcu' |].
  split; [reflexivity |]. split; reflexivity.
Defined.

End SchedulerThreadStepsExamples.

Section HttpServerJobLogFacts.

Import HttpServerJob HttpServerJobLog.

Lemma handed_over_app tr1 tr2 :
  handed_over (tr1 ++ tr2) = handed_over tr1 ++ handed_over tr2.
Proof. apply omap_app. Qed.

Lemma released_handlers_app tr1 tr2 :
  released_handlers (tr1 ++ tr2) = released_handlers tr1 ++ released_handlers tr2.
Proof. apply omap_app. Qed.

Lemma deletions_trace_app tr1 tr2 :
  deletions (tr1 ++ tr2) = (deletions tr1 + deletions tr2)%nat.
Proof. unfold deletions. now rewrite omap_app, length_app. Qed.

Lemma disposal_start h j :
  _handler j = Some h -> disposal h (start j).
Proof. intros Hh. unfold disposal, start. simpl. auto. Qed.

Lemma release_step_log s :
  freed s = false ->
  cpc (release_step s) = cpc s /\ spc (release_step s) = spc s /\
  _handler (job (release_step s)) = _handler (job s) /\
  handed_over (trace (release_step s)) = handed_over (trace s) /\
  deletions (trace (release_step s))
    = (deletions (trace s) + if freed (release_step s) then 1 else 0)%nat /\
  released_handlers (trace (release_step s))
    = released_handlers (trace s) ++
      (if freed (release_step s) then
         match _handler (job s) with Some h' => [Some h'] | None => [] end
       else []).
Proof.
  intros Hf. unfold release_step.
  destruct s as [[srv hd t rc fl det] c p tr fr]. simpl in *. subst fr.
  destruct (rc - 1 =? 0)%Z; simpl.
  - unfold destructor. simpl.
    rewrite !handed_over_app, !released_handlers_app, !deletions_trace_app.
    destruct hd; simpl; rewrite ?app_nil_r; repeat split; reflexivity.
  - rewrite app_nil_r. repeat split; lia.
Qed.

Lemma disposal_step h s s' :
  disposal h s -> step s s' -> disposal h s'.
Proof.
  intros (Hdel & Hrel & Hpc) [th Hstep].
  destruct (freed s) eqn:Hfr.
  { (* a freed job is not written any more *)
    assert (Hsame : job s' = job s /\ trace s' = trace s /\ freed s' = freed s /\
                    (cpc s' = cpc s \/ cpc s' = C_freed)).
    { destruct th; simpl in Hstep;
        [unfold cleanup_step in Hstep | unfold shutdown_step in Hstep];
        rewrite Hfr in Hstep;
        [destruct (cpc s) | destruct (spc s)]; try discriminate;
        injection Hstep as <-; simpl; auto. }
    destruct Hsame as (Hj & Ht & Hf & Hc).
    unfold disposal. rewrite Hj, Ht, Hf, Hfr.
    split; [exact Hdel |]. split; [exact Hrel |].
    destruct Hc as [-> | ->]; [exact Hpc | exact I]. }
  destruct th; simpl in Hstep.
  - unfold cleanup_step in Hstep. rewrite Hfr in Hstep.
    destruct (cpc s) eqn:Hc; try discriminate.
    + (* C_entry *)
      injection Hstep as <-. unfold disposal. simpl. rewrite Hfr.
      split; [exact Hdel |]. split; [exact Hrel |].
      now destruct (isDetached (job s)).
    + (* C_finishAsync *)
      injection Hstep as <-. unfold disposal. simpl.
      rewrite handed_over_app, released_handlers_app, deletions_trace_app, Hfr.
      simpl. rewrite !app_nil_r, Nat.add_0_r. auto.
    + (* C_setFlag *)
      injection Hstep as <-. unfold disposal. simpl. rewrite Hfr. auto.
    + (* C_testTask *)
      injection Hstep as <-. unfold disposal. simpl. rewrite Hfr.
      split; [exact Hdel |]. split; [exact Hrel |].
      destruct (is_null (_task (job s))); auto.
    + (* C_setHandler *)
      destruct (_task (job s)); injection Hstep as <-; unfold disposal; simpl;
        rewrite ?handed_over_app, ?released_handlers_app, ?deletions_trace_app,
          Hfr; simpl; rewrite ?app_nil_r, ?Nat.add_0_r.
      * destruct Hpc as (-> & ->). auto.
      * auto.
    + (* C_clearHandler *)
      injection Hstep as <-. unfold disposal. simpl. rewrite Hfr.
      destruct Hpc as (-> & _). auto.
    + (* C_signal *)
      destruct (_task (job s)); injection Hstep as <-; unfold disposal; simpl;
        rewrite ?handed_over_app, ?released_handlers_app, ?deletions_trace_app,
          Hfr; simpl; rewrite ?app_nil_r, ?Nat.add_0_r; auto.
    + (* C_clearFlag *)
      injection Hstep as <-. unfold disposal. simpl. rewrite Hfr. auto.
    + (* C_removeJob *)
      injection Hstep as <-. unfold disposal. simpl.
      rewrite handed_over_app, released_handlers_app, deletions_trace_app, Hfr.
      simpl. rewrite !app_nil_r, Nat.add_0_r. auto.
    + (* C_release *)
      injection Hstep as <-.
      destruct (release_step_log s Hfr) as (_ & _ & Hh & Hho & Hd & Hr).
      unfold disposal. simpl. rewrite Hh, Hho, Hd, Hr, Hdel, Hrel.
      split; [reflexivity |]. split; [reflexivity |]. exact Hpc.
  - unfold shutdown_step in Hstep. rewrite Hfr in Hstep.
    destruct (spc s) eqn:Hp; try discriminate.
    + (* S_wait *)
      destruct (_isInCleanup (job s)); injection Hstep as <-;
        unfold disposal; simpl;
        rewrite ?handed_over_app, ?released_handlers_app, ?deletions_trace_app,
          Hfr; simpl; rewrite ?app_nil_r, ?Nat.add_0_r; auto.
    + (* S_clearTask *)
      injection Hstep as <-. unfold disposal. simpl. rewrite Hfr. auto.
    + (* S_release *)
      injection Hstep as <-.
      destruct (release_step_log s Hfr) as (Hc & _ & Hh & Hho & Hd & Hr).
      unfold disposal. simpl. rewrite Hc, Hh, Hho, Hd, Hr, Hdel, Hrel.
      split; [reflexivity |]. split; [reflexivity |]. exact Hpc.
Qed.

Lemma disposal_reachable h j s :
  _handler j = Some h -> rtc step (start j) s -> disposal h s.
Proof.
  intros Hh Hs. revert s Hs. apply rtc_ind_r.
  - now apply disposal_start.
  - intros s s' _ Hstep IH. eapply disposal_step; eauto.
Qed.

Lemma guarded_step s s' :
  guarded s -> step s s' -> guarded s'.
Proof.
  intros Hg [th Hstep].
  destruct s as [[srv hd t rc fl det] c p tr fr].
  unfold guarded in Hg. simpl in Hg.
  destruct th; simpl in Hstep.
  - unfold cleanup_step in Hstep. simpl in Hstep.
    destruct c; try discriminate; try contradiction;
      try (destruct Hg as (-> & -> & -> & Ht));
      try (destruct Hg as (-> & -> & ->));
      simpl in Hstep;
      try (destruct fr; injection Hstep as <-; exact I);
      try (destruct t; [| contradiction]);
      try (injection Hstep as <-; unfold guarded; simpl; now auto).
    destruct t; injection Hstep as <-; unfold guarded; simpl;
      first [exact I | repeat split; auto; discriminate].
  - unfold shutdown_step in Hstep. simpl in Hstep.
    destruct c; try contradiction;
      try (destruct Hg as (-> & -> & -> & Ht));
      try (destruct Hg as (-> & -> & ->));
      simpl in Hstep;
      try (injection Hstep as <-; unfold guarded; simpl; now auto);
      destruct p; try discriminate; destruct fr; simpl in Hstep;
      try (destruct fl; simpl in Hstep);
      injection Hstep as <-; unfold guarded, release_step; simpl;
      try (destruct (rc - 1 =? 0)%Z; simpl); exact I.
Qed.

(** X18.  Whatever way the statements of [cleanup] and [beginShutdown]
    interleave on a constructed job, [delete this] runs at most once, and
    when the job has been deleted its handler went to exactly one place:
    either [cleanup] handed it to the task with [setHandler], or the
    destructor gave it to the work monitor with [releaseHandler].  Before
    the job is deleted nothing is released, and the handler is handed over
    at most once. *)
Theorem handler_goes_to_one_place (srv h : addr) (t : pointer) (j : Job)
    (s : System) :
  HttpServerJob (Some srv) (Some h) t = Ok j ->
  rtc step (start j) s ->
  deletions (trace s) = (if freed s then 1 else 0)%nat /\
  (freed s = true ->
     handed_over (trace s) ++ released_handlers (trace s) = [Some h]) /\
  (freed s = false ->
     released_handlers (trace s) = [] /\
     (handed_over (trace s) = [] \/ handed_over (trace s) = [Some h] \/
      cpc s = C_nullTask)).
Proof.
  intros Hj Hs.
  destruct (constructed_counts _ _ _ _ Hj) as (Hrc & _ & _ & _ & Hh & _).
  destruct (disposal_reachable h j s Hh Hs) as (Hdel & Hrel & Hpc).
  destruct (counted_reachable j s Hrc Hs) as (Hcount & Hfreed & Hcf & _ & _ & Hn & Hn').
  split; [exact Hdel |]. split.
  - intros Hf. rewrite Hf in Hrel. rewrite Hrel.
    assert (Hret : cpc s = C_returned).
    { apply Hfreed in Hf. rewrite Hf in Hcount. unfold released in Hcount.
      rewrite Hrc in Hcount.
      destruct (_isDetached j);
        [rewrite (Hn eq_refl) in Hcount |];
        repeat case_decide; try discriminate; try lia; auto. }
    rewrite Hret in Hpc.
    destruct Hpc as [(-> & ->) | (-> & ->)]; reflexivity.
  - intros Hf. rewrite Hf in Hrel. split; [exact Hrel |].
    destruct (cpc s); try contradiction; try tauto;
      destruct Hpc as [(-> & _) | (-> & _)] || destruct Hpc as (-> & _); auto.
Qed.

(** X19.  When [cleanup] has set the flag and [beginShutdown] has not yet
    left its waiting loop, the flag holds it there until [cleanup] has made
    its last call through [_task]: however the statements interleave from
    then on, [cleanup] never calls through a null [_task]. *)
Theorem flag_set_before_wait_protects_task (s0 s : System) :
  cpc s0 = C_testTask -> spc s0 = S_wait ->
  _isInCleanup (job s0) = true -> freed s0 = false ->
  rtc step s0 s ->
  cpc s <> C_nullTask /\
  (cpc s = C_setHandler \/ cpc s = C_signal -> _task (job s) <> None).
Proof.
  intros Hc Hp Hfl Hfr Hs.
  assert (Hg : guarded s).
  { revert s Hs. apply rtc_ind_r.
    - unfold guarded. rewrite Hc. auto.
    - intros s s' _ Hstep IH. eapply guarded_step; eauto. }
  unfold guarded in Hg. split.
  - intros Hn. now rewrite Hn in Hg.
  - intros [Hx | Hx]; rewrite Hx in Hg; tauto.
Qed.

End HttpServerJobLogFacts.

Section HttpServerJobLogExamples.

Import HttpServerJob HttpServerJobLog.

Lemma handler_goes_to_one_place_witness :
  exists s,
    run [Scheduler; Scheduler; Scheduler;
         Dispatcher; Dispatcher; Dispatcher; Dispatcher; Dispatcher; Dispatcher]
        (start (mkJob (Some 1) (Some 2) (Some 3) 2 false false)) = Some s /\
    freed s = true /\
    handed_over (trace s) = [] /\
    released_handlers (trace s) = [Some 2] /\
    deletions (trace s) = (if freed s then 1 else 0)%nat /\
    (freed s = true ->
       handed_over (trace s) ++ released_handlers (trace s) = [Some 2]).
Proof.
  eexists. split; [reflexivity |].
  split; [reflexivity |]. split; [reflexivity |]. split; [reflexivity |].
  match goal with
  | |- deletions (trace ?s) = _ /\ _ =>
      destruct (handler_goes_to_one_place 1 2 (Some 3)
                  (mkJob (Some 1) (Some 2) (Some 3) 2 false false) s eq_refl
                  (run_reachable
                     [Scheduler; Scheduler; Scheduler;
                      Dispatcher; Dispatcher; Dispatcher; Dispatcher;
                      Dispatcher; Dispatcher]
                     (start (mkJob (Some 1) (Some 2) (Some 3) 2 false false))
                     s eq_refl)) as (H1 & H2 & _)
  end.
  split; [exact H1 | exact H2].
Defined.

Lemma flag_set_before_wait_protects_task_witness :
  exists s0 s,
    run [Dispatcher; Dispatcher]
        (start (mkJob (Some 1) (Some 2) (Some 3) 2 false false)) = Some s0 /\
    run [Scheduler; Dispatcher; Scheduler; Dispatcher; Dispatcher; Scheduler]
        s0 = Some s /\
    cpc s = C_signal /\
    cpc s <> C_nullTask /\
    (cpc s = C_setHandler \/ cpc s = C_signal -> _task (job s) <> None).
Proof.
  eexists. eexists. split; [reflexivity |]. split; [reflexivity |].
  split; [reflexivity |].
  match goal with
  | |- cpc ?s <> _ /\ _ =>
      apply (flag_set_before_wait_protects_task
               (mkSystem (mkJob (Some 1) (Some 2) (Some 3) 2 true false)
                         C_testTask S_wait [] false) s
               eq_refl eq_refl eq_refl eq_refl)
  end.
  apply (run_reachable
           [Scheduler; Dispatcher; Scheduler; Dispatcher; Dispatcher; Scheduler]).
  reflexivity.
Defined.

End HttpServerJobLogExamples.

Section WorkMonitorMemoryFacts.

Import WorkMonitor WorkMonitorMemory.

(** Equality of the sets of places, once every equation has been used. *)
Ltac same_places :=
  apply set_eq; intros ?;
  repeat (rewrite elem_of_union || rewrite elem_of_singleton ||
          rewrite elem_of_list_to_set || rewrite elem_of_app ||
          rewrite elem_of_cons || rewrite elem_of_nil ||
          rewrite elem_of_empty);
  tauto.

Lemma releaseHandler_inv h s s' :
  releaseHandler h s = Ok s' ->
  exists cur d rest,
    s' = mkState (<[d := mkDesc HANDLER true cur h]> (descriptions s))
                 (threads s) (CURRENT_THREAD s) (THREADS s)
                 rest (FREEABLE_WORK_DESCRIPTION s ++ [d]) /\
    ((EMPTY_WORK_DESCRIPTION s = d :: rest /\ is_Some (descriptions s !! d)) \/
     (EMPTY_WORK_DESCRIPTION s = [] /\ rest = [] /\ descriptions s !! d = None)).
Proof.
  unfold releaseHandler.
  destruct (createWorkDescription HANDLER s) as [[d s1] | |] eqn:Hc;
    simpl; try discriminate.
  apply createWorkDescription_inv in Hc
    as (t & cur & data & rest & Hct & Ht & -> & Hq).
  unfold write_desc. simpl. rewrite lookup_insert_eq. simpl.
  intros [= <-]. exists cur, d, rest. split; [| exact Hq].
  unfold freeWorkDescription, set_FREEABLE, set_descriptions, set_data. simpl.
  now rewrite insert_insert_eq.
Qed.

Lemma popThread_inv thread s t d rest s' :
  wf_stack s t (d :: rest) ->
  popThread thread s = Ok s' ->
  descriptions s' = descriptions s /\
  EMPTY_WORK_DESCRIPTION s' = EMPTY_WORK_DESCRIPTION s /\
  FREEABLE_WORK_DESCRIPTION s' = FREEABLE_WORK_DESCRIPTION s ++ [d].
Proof.
  intros Hwf Hp.
  destruct (deactivate_wf _ _ _ _ Hwf) as (desc & Hd & _ & _ & _ & Hde & _).
  unfold popThread in Hp. rewrite Hde in Hp. simpl in Hp. rewrite Hd in Hp.
  destruct (_type desc); [| discriminate].
  destruct (decide (_data desc = Some thread)); [| discriminate].
  injection Hp as <-. now repeat split.
Qed.

Lemma wf_stack_top s t stk d :
  wf_stack s t stk -> threads s !! t = Some (Some d) ->
  exists rest, stk = d :: rest.
Proof.
  intros (_ & (cur & Hths & Hch) & _) Ht.
  rewrite Hths, lookup_singleton_eq in Ht. injection Ht as ->.
  inversion Hch; subst. eauto.
Qed.

Lemma accounted_step t s stk op s' :
  wf_stack s t stk -> accounted s stk -> perform op s = Ok s' ->
  exists stk', wf_stack s' t stk' /\ accounted s' stk'.
Proof.
  unfold accounted. intros Hwf Hacc Hop. destruct op; simpl in Hop.
  - (* popThread *)
    destruct (popThread_wf _ _ _ _ _ Hwf Hop) as (d & rest & -> & Hwf').
    destruct (popThread_inv _ _ _ _ _ _ Hwf Hop) as (Hm & He & Hf).
    exists rest. split; [exact Hwf' |].
    rewrite Hm, He, Hf, Hacc. same_places.
  - (* pushHandler *)
    destruct (pushHandler_wf _ _ _ _ _ Hwf Hop)
      as (d0 & cur0 & _ & _ & Hm0 & Hths0 & _ & _ & Hwf').
    destruct (pushHandler_inv _ _ _ Hop)
      as (t1 & cur & d & rest & Hct & _ & Hs' & Hq).
    assert (Hd : d0 = d).
    { assert (Ht1 : t1 = t) by (destruct Hwf as (Hc & _); congruence).
      subst t1. subst s'. simpl in Hths0.
      assert (Hl : (<[t := Some d]> (threads s)) !! t = Some (Some d))
        by apply lookup_insert_eq.
      rewrite Hths0, lookup_singleton_eq in Hl. congruence. }
    subst d0. exists (d :: stk). split; [exact Hwf' |].
    subst s'. simpl. rewrite dom_insert_L, Hacc.
    destruct Hq as [(He & _) | (He & -> & _)]; rewrite He; same_places.
  - (* popHandler *)
    destruct (popHandler_wf _ _ _ _ _ Hwf Hop)
      as (d & rest & desc & -> & Hd & _ & _ & -> & Hwf').
    exists rest. split; [exact Hwf' |].
    simpl. rewrite dom_insert_L, Hacc. same_places.
  - (* destroyHandler *)
    destruct (destroyHandler_wf _ _ _ _ _ Hwf Hop)
      as (d & rest & desc & -> & Hd & _ & _ & _ & -> & Hwf').
    exists rest. split; [exact Hwf' |].
    simpl. rewrite Hacc. same_places.
  - (* releaseHandler *)
    destruct (releaseHandler_wf _ _ _ _ _ Hwf Hop)
      as (d0 & cur0 & _ & _ & _ & _ & Hwf').
    destruct (releaseHandler_inv _ _ _ Hop) as (cur & d & rest & Hs' & Hq).
    exists stk. split; [exact Hwf' |].
    subst s'. simpl. rewrite dom_insert_L, Hacc.
    destruct Hq as [(He & _) | (He & -> & _)]; rewrite He; same_places.
  - (* sweep *)
    destruct (sweep_wf _ _ _ Hwf) as (s1 & Hsw & _ & Hwf').
    assert (Hs1 : sweep s =
                  Ok (set_EMPTY (EMPTY_WORK_DESCRIPTION s ++ FREEABLE_WORK_DESCRIPTION s)
                        (set_FREEABLE [] s),
                      deletions (descriptions s) (FREEABLE_WORK_DESCRIPTION s))).
    { unfold sweep. apply sweep_from_allocated.
      destruct Hwf as (_ & _ & _ & Hq & _).
      intros d Hd. apply Hq, elem_of_app. now right. }
    rewrite Hsw in Hs1. injection Hs1 as ->.
    rewrite Hsw in Hop. simpl in Hop. injection Hop as <-.
    exists stk. split; [exact Hwf' |].
    simpl. rewrite Hacc. same_places.
Qed.

Lemma pushThread_boot_accounted t :
  exists s d, pushThread t (boot t) = Ok s /\ wf_stack s t [d] /\ accounted s [d].
Proof.
  destruct (pushThread_boot t) as (s & d & Hs & Hwf).
  exists s, d. split; [exact Hs |]. split; [exact Hwf |].
  revert Hs Hwf.
  unfold pushThread, createWorkDescription, workDescription, boot. simpl.
  rewrite lookup_singleton_eq. simpl.
  unfold write_desc. simpl. rewrite lookup_insert_eq. simpl.
  unfold activateWorkDescription, setWorkDescription. simpl.
  rewrite lookup_singleton_eq. simpl.
  intros [= <-] Hwf. unfold accounted. simpl.
  destruct (wf_stack_top _ _ _ (fresh (dom (∅ : gmap addr WorkDescription))) Hwf)
    as (rest & Hr).
  { simpl. apply lookup_insert_eq. }
  injection Hr as -> _.
  rewrite !dom_insert_L, dom_empty_L. same_places.
Qed.

(** X20.  No description is ever lost: in every memory a thread and the
    monitor can reach, the allocated descriptions are exactly those on the
    thread's stack and in the queues of empty and of freeable descriptions,
    and each is in one of these places only. *)
Theorem descriptions_never_leak (t : addr) (s : State) :
  reachable t s ->
  exists stk,
    wf_stack s t stk /\
    NoDup (stk ++ EMPTY_WORK_DESCRIPTION s ++ FREEABLE_WORK_DESCRIPTION s) /\
    forall d,
      is_Some (descriptions s !! d) <->
      d ∈ stk ++ EMPTY_WORK_DESCRIPTION s ++ FREEABLE_WORK_DESCRIPTION s.
Proof.
  intros Hr.
  assert (H : exists stk, wf_stack s t stk /\ accounted s stk).
  { induction Hr as [s Hs | s op s' _ (stk & Hwf & Hacc) Hop].
    - destruct (pushThread_boot_accounted t) as (s0 & d & Hs0 & Hwf & Hacc).
      rewrite Hs in Hs0. injection Hs0 as <-. eauto.
    - eapply accounted_step; eauto. }
  destruct H as (stk & Hwf & Hacc). exists stk.
  split; [exact Hwf |].
  split; [destruct Hwf as (_ & _ & Hnd & _); exact Hnd |].
  intros d. rewrite <- elem_of_dom, Hacc, elem_of_list_to_set. reflexivity.
Qed.

(** X21.  In a memory in good order a HandlerWorkStack can be constructed
    and destroyed without a failing assertion, and the thread has the
    description and the stack it had before.  With [destroy] the caller's
    uptr is empty afterwards and the next sweep of the monitor deletes the
    handler, once, after what was due before; without [destroy] the uptr
    keeps the handler and the sweep deletes what was due before and nothing
    else. *)
Theorem HandlerWorkStack_scope (handler : pointer) (destroy : bool)
    (s : State) (t : addr) (stk : list addr) :
  wf_stack s t stk ->
  exists w uptr s1 s2 r r',
    HandlerWorkStack.HandlerWorkStack_of_uptr handler destroy s
      = Ok (w, uptr, s1) /\
    HandlerWorkStack.destructor w s1 = Ok s2 /\
    threads s2 = threads s /\
    wf_stack s2 t stk /\
    sweep s = Ok r /\ sweep s2 = Ok r' /\
    if destroy
    then uptr = None /\ r'.2 = r.2 ++ [EDeleteHandler handler]
    else uptr = handler /\ r'.2 = r.2.
Proof.
  intros Hwf.
  destruct (pushHandler_total handler s t stk Hwf) as (s1 & Hpush).
  destruct (pushHandler_wf _ _ _ _ _ Hwf Hpush)
    as (d & cur & Hths & Hnstk & Hm1 & Hths1 & Hf1 & Hnf & Hwf1).
  assert (Hd : descriptions s1 !! d = Some (mkDesc HANDLER true cur handler))
    by (rewrite Hm1; apply lookup_insert_eq).
  destruct (sweep_wf _ _ _ Hwf) as (sw & Hsw & _ & _).
  unfold HandlerWorkStack.HandlerWorkStack_of_uptr,
    HandlerWorkStack.destructor.
  rewrite Hpush. simpl.
  destruct destroy; simpl.
  - pose proof (destroyHandler_top handler s1 t d stk _ Hwf1 Hd eq_refl) as Hdes.
    destruct (destroyHandler_wf _ _ _ _ _ Hwf1 Hdes)
      as (d' & rest & desc & Hstk & _ & _ & _ & _ & _ & Hwf2).
    injection Hstk as <- <-.
    destruct (sweep_wf _ _ _ Hwf2) as (sw2 & Hsw2 & _ & _).
    do 6 eexists. split; [reflexivity |]. split; [exact Hdes |].
    split; [simpl; now rewrite Hths |]. split; [exact Hwf2 |].
    split; [exact Hsw |]. split; [exact Hsw2 |].
    split; [reflexivity |]. simpl. rewrite Hf1, deletions_app, Hm1.
    rewrite deletions_insert by exact Hnf.
    unfold deletions at 2. simpl. rewrite lookup_insert_eq. reflexivity.
  - pose proof (popHandler_top handler s1 t d stk _ Hwf1 Hd eq_refl) as Hpop.
    destruct (popHandler_wf _ _ _ _ _ Hwf1 Hpop)
      as (d' & rest & desc & Hstk & _ & _ & _ & _ & Hwf2).
    injection Hstk as <- <-.
    destruct (sweep_wf _ _ _ Hwf2) as (sw2 & Hsw2 & _ & _).
    do 6 eexists. split; [reflexivity |]. split; [exact Hpop |].
    split; [simpl; now rewrite Hths |]. split; [exact Hwf2 |].
    split; [exact Hsw |]. split; [exact Hsw2 |].
    split; [reflexivity |]. simpl. rewrite Hf1, deletions_app, Hm1.
    rewrite insert_insert_eq.
    rewrite deletions_insert by exact Hnf.
    unfold deletions at 2. simpl. rewrite lookup_insert_eq. simpl.
    now rewrite app_nil_r.
Qed.

End WorkMonitorMemoryFacts.

Section WorkMonitorMemoryExamples.

Import WorkMonitor WorkMonitorMemory.

Lemma descriptions_never_leak_witness :
  exists s stk,
    pushThread 1 (boot 1) = Ok s /\
    wf_stack s 1 stk /\
    NoDup (stk ++ EMPTY_WORK_DESCRIPTION s ++ FREEABLE_WORK_DESCRIPTION s) /\
    forall d,
      is_Some (descriptions s !! d) <->
      d ∈ stk ++ EMPTY_WORK_DESCRIPTION s ++ FREEABLE_WORK_DESCRIPTION s.
Proof.
  destruct (pushThread_boot 1) as (s & d & Hs & _).
  destruct (descriptions_never_leak 1 s (reachable_pushed 1 s Hs))
    as (stk & H).
  exists s, stk. split; [exact Hs | exact H].
Defined.

Lemma HandlerWorkStack_scope_witness :
  exists s w uptr s1 s2 r r',
    pushThread 1 (boot 1) = Ok s /\
    HandlerWorkStack.HandlerWorkStack_of_uptr (Some 7) true s
      = Ok (w, uptr, s1) /\
    HandlerWorkStack.destructor w s1 = Ok s2 /\
    threads s2 = threads s /\
    sweep s = Ok r /\ sweep s2 = Ok r' /\
    uptr = None /\ r'.2 = r.2 ++ [EDeleteHandler (Some 7)].
Proof.
  destruct (pushThread_boot 1) as (s & d & Hs & Hwf).
  destruct (HandlerWorkStack_scope (Some 7) true s 1 [d] Hwf)
    as (w & uptr & s1 & s2 & r & r' & H1 & H2 & H3 & _ & H5 & H6 & H7 & H8).
  exists s, w, uptr, s1, s2, r, r'. auto 10.
Defined.

End WorkMonitorMemoryExamples.

Section WorkMonitorThreadFacts.

Import WorkMonitor WorkMonitorThread.

Local Open Scope Z_scope.

Lemma backoff_bounds u : backoff u -> 100 <= u <= 102400.
Proof.
  intros (k & Hk & ->).
  assert (H0 : 2 ^ 0 <= 2 ^ k) by (apply Z.pow_le_mono_r; lia).
  assert (H10 : 2 ^ k <= 2 ^ 10) by (apply Z.pow_le_mono_r; lia).
  change (2 ^ 0) with 1 in H0. change (2 ^ 10) with 1024 in H10. lia.
Qed.

Lemma backoff_next (found : bool) u :
  backoff u ->
  backoff (if found then minSleep
           else if u <? maxSleep then uint32 (u * 2) else u).
Proof.
  intros Hb. destruct found.
  - exists 0. split; [lia | reflexivity].
  - destruct (Z.ltb_spec u maxSleep) as [Hlt | Hge]; [| exact Hb].
    pose proof (backoff_bounds u Hb) as Hu.
    destruct Hb as (k & Hk & ->).
    assert (Hk9 : k <= 9).
    { destruct (Z.le_gt_cases k 9) as [? | Hgt]; [assumption |].
      assert (k = 10) by lia. subst k. unfold maxSleep in Hlt.
      change (2 ^ 10) with 1024 in Hlt. lia. }
    exists (k + 1). split; [lia |].
    unfold uint32. rewrite Z.mod_small by lia.
    rewrite Z.pow_add_r by lia. lia.
Qed.

Lemma sleeps_app out1 out2 : sleeps (out1 ++ out2) = sleeps out1 ++ sleeps out2.
Proof. apply omap_app. Qed.

Lemma sleeps_Deleted ev : sleeps (map Deleted ev) = [].
Proof. induction ev as [| e ev IH]; [reflexivity | exact IH]. Qed.

Lemma pass_sleeps y m st m' st' out :
  backoff (s m) ->
  pass y m st = Ok (m', st', out) ->
  backoff (s m') /\ sleeps out = [s m'] /\
  (FREEABLE_WORK_DESCRIPTION st <> [] -> s m' = 100).
Proof.
  intros Hb. unfold pass.
  destruct (sweep st) as [[st1 ev] | |]; simpl; try discriminate.
  intros [= <- <- <-]. cbn [s].
  split; [apply backoff_next; exact Hb |].
  split.
  - rewrite !sleeps_app, sleeps_Deleted.
    destruct (PrimFloat.ltb _ _); reflexivity.
  - intros Hne. destruct (FREEABLE_WORK_DESCRIPTION st);
      [contradiction | reflexivity].
Qed.

(** X22.  The monitor thread sleeps between 100 and 102400 microseconds in
    every pass, whatever the thread does in between: the sleep is 100
    microseconds doubled at most ten times, so the doubling never leaves
    the [uint32_t], and a pass that finds a freeable description sleeps 100
    microseconds. *)
Theorem monitor_sleep_is_bounded (actions : list Action) (x0 : float)
    (st st' : State) (m' : Monitor) (out : list Output) :
  run actions (mkMonitor minSleep x0) st = Ok (m', st', out) ->
  Forall (fun u => backoff u /\ 100 <= u <= 102400) (sleeps out) /\
  length (sleeps out) = length (passes actions) /\
  (forall y m1 st1 m2 st2 out2,
     backoff (s m1) -> FREEABLE_WORK_DESCRIPTION st1 <> [] ->
     pass y m1 st1 = Ok (m2, st2, out2) -> sleeps out2 = [100]).
Proof.
  intros Hrun.
  assert (Hgen : forall actions m st m' st' out,
             backoff (s m) ->
             run actions m st = Ok (m', st', out) ->
             Forall (fun u => backoff u /\ 100 <= u <= 102400) (sleeps out) /\
             length (sleeps out) = length (passes actions)).
  { clear. induction actions as [| a actions IH]; intros m st m' st' out Hb Hrun.
    - injection Hrun as <- <- <-. split; [constructor | reflexivity].
    - destruct a as [y | op]; simpl in Hrun.
      + destruct (pass y m st) as [[[m1 st1] out1] | |] eqn:Hp;
          simpl in Hrun; try discriminate.
        destruct (run actions m1 st1) as [[[m2 st2] out2] | |] eqn:Hr;
          simpl in Hrun; try discriminate.
        injection Hrun as <- <- <-.
        destruct (pass_sleeps _ _ _ _ _ _ Hb Hp) as (Hb1 & Hs1 & _).
        destruct (IH _ _ _ _ _ Hb1 Hr) as (Hall & Hlen).
        rewrite sleeps_app, Hs1. simpl. split.
        * constructor; [| exact Hall].
          split; [exact Hb1 | apply backoff_bounds; exact Hb1].
        * now rewrite Hlen.
      + destruct (perform op st) as [st1 | |] eqn:Hop;
          simpl in Hrun; try discriminate.
        simpl. exact (IH _ _ _ _ _ Hb Hrun). }
  assert (Hb0 : backoff (s (mkMonitor minSleep x0)))
    by (exists 0; split; [lia | reflexivity]).
  destruct (Hgen _ _ _ _ _ _ Hb0 Hrun) as (Hall & Hlen).
  split; [exact Hall |]. split; [exact Hlen |].
  intros y m1 st1 m2 st2 out2 Hb1 Hne Hp.
  destruct (pass_sleeps _ _ _ _ _ _ Hb1 Hp) as (_ & Hs & H100).
  rewrite Hs, (H100 Hne). reflexivity.
Qed.

End WorkMonitorThreadFacts.

Section WorkMonitorThreadExamples.

Import WorkMonitor WorkMonitorThread.

Local Open Scope Z_scope.

Lemma monitor_sleep_is_bounded_witness :
  exists m' st' out,
    run [MonitorPass 1%float; MonitorPass 20%float; MonitorPass 21%float]
        (mkMonitor minSleep 0%float)
        (mkState {[5%nat := mkDesc HANDLER true None (Some 7%nat)]}
                 {[1%nat := None]} (Some 1%nat) ∅ [] [5%nat])
      = Ok (m', st', out) /\
    out = [Deleted (EDeleteHandler (Some 7%nat)); Usleep 100;
           PrintStatus; Usleep 200; Usleep 400] /\
    Forall (fun u => backoff u /\ 100 <= u <= 102400) (sleeps out).
Proof.
  do 3 eexists.
  match goal with
  | |- run ?acts _ ?st = _ /\ _ =>
      split; [vm_compute; reflexivity |
        split; [reflexivity |
          eapply proj1, (monitor_sleep_is_bounded acts 0%float st);
          vm_compute; reflexivity]]
  end.
Defined.

End WorkMonitorThreadExamples.

Section RestSimpleHandlerFacts.

Import RestSimpleHandler.

Lemma call_log c h h' log1 before :
  call c h = Ok (h', log1) ->
  _query h = fold_left registered_by before None ->
  _query h' = fold_left registered_by (before ++ log1) None /\
  (forall l1 q l2, log1 = l1 ++ Killed q :: l2 ->
     fold_left registered_by (before ++ l1) None = Some q) /\
  (_queryKilled h' = true <->
     _queryKilled h = true \/ exists q, Killed q ∈ log1) /\
  (forall r, CancelReturned r ∈ log1 -> (r = true <-> exists q, Killed q ∈ log1)).
Proof.
  intros Hc Hq. destruct c as [q | |]; simpl in Hc.
  - unfold registerQuery in Hc. destruct (is_null (_query h)); [| discriminate].
    injection Hc as <- <-. rewrite fold_left_app. simpl.
    split; [reflexivity |]. split.
    + intros [| e l1] q' l2 Heq; [discriminate |].
      injection Heq as _ Heq. now destruct l1.
    + split.
      * split; [auto |]. intros [H | (q' & Hin)]; [exact H |].
        apply list_elem_of_singleton in Hin. discriminate.
      * intros r Hin. apply list_elem_of_singleton in Hin. discriminate.
  - injection Hc as <- <-. rewrite fold_left_app. simpl.
    split; [reflexivity |]. split.
    + intros [| e l1] q' l2 Heq; [discriminate |].
      injection Heq as _ Heq. now destruct l1.
    + split.
      * split; [auto |]. intros [H | (q' & Hin)]; [exact H |].
        apply list_elem_of_singleton in Hin. discriminate.
      * intros r Hin. apply list_elem_of_singleton in Hin. discriminate.
  - unfold cancel, cancelQuery in Hc. destruct (_query h) as [q |] eqn:Hqh.
    + injection Hc as <- <-. rewrite fold_left_app. simpl.
      split; [exact Hq |]. split.
      * intros [| e l1] q' l2 Heq.
        -- injection Heq as -> _. rewrite app_nil_r. now rewrite <- Hq.
        -- injection Heq as _ Heq. destruct l1; [discriminate |].
           now destruct l1.
      * split.
        -- split; [intros _; right; exists q; apply list_elem_of_here | auto].
        -- intros r Hin. apply elem_of_cons in Hin as [Hin | Hin]; [discriminate |].
           apply list_elem_of_singleton in Hin. injection Hin as ->.
           split; [intros _; exists q; apply list_elem_of_here | auto].
    + injection Hc as <- <-. rewrite fold_left_app. simpl.
      split; [congruence |]. split.
      * intros [| e l1] q' l2 Heq; [discriminate |].
        injection Heq as _ Heq. now destruct l1.
      * split.
        -- split; [auto |]. intros [H | (q' & Hin)]; [exact H |].
           apply list_elem_of_singleton in Hin. discriminate.
        -- intros r Hin. apply list_elem_of_singleton in Hin. injection Hin as ->.
           split; [discriminate |]. intros (q' & Hin).
           apply list_elem_of_singleton in Hin. discriminate.
Qed.

Lemma calls_log cs : forall h h' log before,
  calls cs h = Ok (h', log) ->
  _query h = fold_left registered_by before None ->
  _query h' = fold_left registered_by (before ++ log) None /\
  (forall l1 q l2, log = l1 ++ Killed q :: l2 ->
     fold_left registered_by (before ++ l1) None = Some q) /\
  (_queryKilled h' = true <->
     _queryKilled h = true \/ exists q, Killed q ∈ log).
Proof.
  induction cs as [| c cs IH]; intros h h' log before Hc Hq.
  - injection Hc as <- <-. rewrite app_nil_r.
    split; [exact Hq |]. split.
    + intros [| e l1] q l2 Heq; discriminate.
    + split; [auto |]. intros [H | (q & Hin)]; [exact H |].
      now apply elem_of_nil in Hin.
  - simpl in Hc.
    destruct (call c h) as [[h1 log1] | |] eqn:Hcall; simpl in Hc;
      try discriminate.
    destruct (calls cs h1) as [[h2 log2] | |] eqn:Hcalls; simpl in Hc;
      try discriminate.
    injection Hc as <- <-.
    destruct (call_log _ _ _ _ before Hcall Hq) as (Hq1 & Hk1 & Hf1 & _).
    destruct (IH _ _ _ (before ++ log1) Hcalls Hq1) as (Hq2 & Hk2 & Hf2).
    rewrite <- app_assoc in Hq2.
    split; [exact Hq2 |]. split.
    + intros l1 q l2 Heq.
      (* the kill is in the first call's part of the log or behind it *)
      destruct (decide (length l1 < length log1)) as [Hlt | Hge].
      * assert (Hsplit : exists l2', log1 = l1 ++ Killed q :: l2').
        { exists (take (length log1 - length l1 - 1) l2).
          apply (f_equal (take (length log1))) in Heq.
          rewrite take_app_length in Heq.
          rewrite take_app_ge in Heq by lia.
          replace (length log1 - length l1) with (S (length log1 - length l1 - 1))
            in Heq by lia.
          simpl in Heq. exact Heq. }
        destruct Hsplit as (l2' & Hs). exact (Hk1 _ _ _ Hs).
      * assert (Hsplit : exists l1', l1 = log1 ++ l1' /\ log2 = l1' ++ Killed q :: l2).
        { exists (drop (length log1) l1).
          assert (Ht : take (length log1) l1 = log1).
          { apply (f_equal (take (length log1))) in Heq.
            rewrite take_app_length in Heq.
            rewrite take_app_le in Heq by lia. now symmetry. }
          split.
          - rewrite <- Ht at 1. now rewrite take_drop.
          - apply (f_equal (drop (length log1))) in Heq.
            rewrite drop_app_length in Heq.
            rewrite drop_app_le in Heq by lia. exact Heq. }
        destruct Hsplit as (l1' & -> & Hs).
        rewrite app_assoc. exact (Hk2 _ _ _ Hs).
    + rewrite Hf2, Hf1. split.
      * intros [[H | (q & Hin)] | (q & Hin)]; [left; exact H | right | right];
          exists q; apply elem_of_app; auto.
      * intros [H | (q & Hin)]; [left; left; exact H |].
        apply elem_of_app in Hin as [Hin | Hin]; [left; right | right]; eauto.
Qed.

(** X23.  [cancel] only ever touches the query that is registered at that
    moment: in every sequence of [registerQuery], [unregisterQuery] and
    [cancel] calls that passes the assertion, each [killed (true)] goes to the
    query of the last [registerQuery] with no [unregisterQuery] after it, and
    [wasCanceled] is true afterwards exactly when some query was killed. *)
Theorem cancel_kills_the_registered_query (cs : list Call)
    (h : RestSimpleHandler) (log : list Entry) :
  calls cs RestSimpleHandler_new = Ok (h, log) ->
  (forall l1 q l2, log = l1 ++ Killed q :: l2 -> registered l1 = Some q) /\
  _query h = registered log /\
  (wasCanceled h = true <-> exists q, Killed q ∈ log).
Proof.
  intros Hc.
  destruct (calls_log cs _ _ _ [] Hc eq_refl) as (Hq & Hk & Hf).
  split; [exact Hk |]. split; [exact Hq |].
  unfold wasCanceled. rewrite Hf. simpl. split.
  - intros [H | H]; [discriminate | exact H].
  - auto.
Qed.

End RestSimpleHandlerFacts.

Section RestSimpleHandlerExamples.

Import RestSimpleHandler.

Lemma cancel_kills_the_registered_query_witness :
  (forall l1 q l2,
     [CancelReturned false; Registered (Some 4); Killed 4; CancelReturned true;
      Unregistered; CancelReturned false]
       = l1 ++ Killed q :: l2 -> registered l1 = Some q) /\
  None = registered
           [CancelReturned false; Registered (Some 4); Killed 4;
            CancelReturned true; Unregistered; CancelReturned false] /\
  (true = true <->
   exists q, Killed q ∈ [CancelReturned false; Registered (Some 4); Killed 4;
                         CancelReturned true; Unregistered;
                         CancelReturned false]).
Proof.
  apply (cancel_kills_the_registered_query
           [CallCancel; CallRegisterQuery (Some 4); CallCancel;
            CallUnregisterQuery; CallCancel]
           (mkHandler None true)).
  reflexivity.
Defined.

End RestSimpleHandlerExamples.

Section CollectionFacts.

Import Collection.

Local Open Scope Z_scope.

Lemma any_from_spec cb members : forall index,
  any_from cb members index = true <->
  exists (i : nat) s, members !! i = Some s /\ cb s (index + Z.of_nat i) = true.
Proof.
  induction members as [| s rest IH]; intros index; simpl.
  - split; [discriminate |]. intros (i & s & Hl & _). discriminate.
  - destruct (cb s index) eqn:Hs.
    + split; [intros _ | reflexivity].
      exists 0%nat, s. split; [reflexivity |]. now rewrite Z.add_0_r.
    + rewrite IH. split.
      * intros (i & x & Hl & Hc). exists (S i), x. split; [exact Hl |].
        now replace (index + Z.of_nat (S i)) with (index + 1 + Z.of_nat i) by lia.
      * intros ([| i] & x & Hl & Hc).
        -- simpl in Hl. injection Hl as <-. rewrite Z.add_0_r in Hc. congruence.
        -- exists i, x. split; [exact Hl |].
           now replace (index + 1 + Z.of_nat i) with (index + Z.of_nat (S i)) by lia.
Qed.

Lemma find_from_first cb members : forall index,
  any_from cb members index = true ->
  exists i : nat,
    members !! i = Some (find_from cb members index) /\
    cb (find_from cb members index) (index + Z.of_nat i) = true /\
    forall (j : nat) s, (j < i)%nat -> members !! j = Some s ->
                        cb s (index + Z.of_nat j) = false.
Proof.
  induction members as [| s rest IH]; intros index; simpl; [discriminate |].
  destruct (cb s index) eqn:Hs.
  - intros _. exists 0%nat. split; [reflexivity |].
    split; [now rewrite Z.add_0_r |]. intros j x Hj. lia.
  - intros Hany. destruct (IH _ Hany) as (i & Hl & Hc & Hfirst).
    exists (S i). split; [exact Hl |].
    split; [now replace (index + Z.of_nat (S i)) with (index + 1 + Z.of_nat i) by lia |].
    intros [| j] x Hj Hx.
    + simpl in Hx. injection Hx as <-. now rewrite Z.add_0_r.
    + replace (index + Z.of_nat (S j)) with (index + 1 + Z.of_nat j) by lia.
      apply (Hfirst j x); [lia | exact Hx].
Qed.

Lemma find_from_none cb members : forall index,
  any_from cb members index = false -> find_from cb members index = SNone.
Proof.
  induction members as [| s rest IH]; intros index; simpl; [reflexivity |].
  destruct (cb s index); [discriminate | apply IH].
Qed.

Lemma contains_from_any cb members : forall index,
  contains_from cb members index = any_from cb members index.
Proof.
  induction members as [| s rest IH]; intros index; simpl; [reflexivity |].
  destruct (cb s index); [reflexivity | apply IH].
Qed.

Lemma all_from_any cb members : forall index,
  all_from cb members index
  = negb (any_from (fun s i => negb (cb s i)) members index).
Proof.
  induction members as [| s rest IH]; intros index; simpl; [reflexivity |].
  destruct (cb s index); simpl; [apply IH | reflexivity].
Qed.

(** X24.  The searches of an Array agree with each other: [contains] and
    [any] are true exactly when some member satisfies the callback at its
    index, [all] is false exactly when some member fails it, and [find]
    returns the first member that satisfies it, or the empty Slice when
    there is none. *)
Theorem array_searches_agree (cb : Slice -> Z -> bool) (members : list Slice) :
  contains cb members = any cb members /\
  all cb members = negb (any (fun s i => negb (cb s i)) members) /\
  (any cb members = true <->
   exists (i : nat) s, members !! i = Some s /\ cb s (Z.of_nat i) = true) /\
  (any cb members = true ->
   exists i : nat,
     members !! i = Some (find cb members) /\
     cb (find cb members) (Z.of_nat i) = true /\
     forall (j : nat) s, (j < i)%nat -> members !! j = Some s ->
                         cb s (Z.of_nat j) = false) /\
  (any cb members = false -> find cb members = SNone).
Proof.
  unfold contains, any, all, find.
  split; [apply contains_from_any |].
  split; [apply all_from_any |].
  split; [apply (any_from_spec cb members 0) |].
  split; [apply (find_from_first cb members 0) |].
  apply find_from_none.
Qed.

Lemma filter_split {A} (f : A -> bool) (l : list A) :
  List.filter f l ++ List.filter (fun x => negb (f x)) l ≡ₚ l.
Proof.
  induction l as [| x l IH]; simpl; [reflexivity |].
  destruct (f x); simpl.
  - now rewrite IH.
  - rewrite <- Permutation_middle. now rewrite IH.
Qed.

Lemma filter_ext_in {A} (f g : A -> bool) (l : list A) :
  (forall x, f x = g x) -> List.filter f l = List.filter g l.
Proof.
  intros H. induction l as [| x l IH]; simpl; [reflexivity |].
  rewrite H, IH. reflexivity.
Qed.

Lemma elem_of_List_filter {A} (f : A -> bool) (l : list A) x :
  x ∈ List.filter f l <-> x ∈ l /\ f x = true.
Proof.
  rewrite !list_elem_of_In. apply filter_In.
Qed.

(** X25.  [keep] and [remove] split an Object: [keep] gives the attributes
    whose key is among the keys and [remove] the others, each in the
    order of the Object, and together they are the attributes of the Object.
    The versions over an unordered set, taken for four keys or more on an
    Object of more than ten attributes, give the same. *)
Theorem keep_and_remove_split (attributes : list (string * Slice))
    (ks : list string) :
  exists kept removed,
    keep attributes ks = SObject kept /\
    remove attributes ks = SObject removed /\
    keep_set attributes (ToSet ks) = SObject kept /\
    remove_set attributes (ToSet ks) = SObject removed /\
    (forall kv, kv ∈ kept <-> kv ∈ attributes /\ kv.1 ∈ ks) /\
    (forall kv, kv ∈ removed <-> kv ∈ attributes /\ kv.1 ∉ ks) /\
    kept `sublist_of` attributes /\
    removed `sublist_of` attributes /\
    kept ++ removed ≡ₚ attributes.
Proof.
  exists (List.filter (fun kv => bool_decide (kv.1 ∈ ks)) attributes),
         (List.filter (fun kv => negb (bool_decide (kv.1 ∈ ks))) attributes).
  assert (Hset : forall kv : string * Slice,
             bool_decide (kv.1 ∈ ToSet ks) = bool_decide (kv.1 ∈ ks)).
  { intros kv. apply bool_decide_ext. unfold ToSet.
    apply elem_of_list_to_set. }
  assert (Hk : keep_set attributes (ToSet ks)
               = SObject (List.filter (fun kv => bool_decide (kv.1 ∈ ks)) attributes)).
  { unfold keep_set. f_equal. apply filter_ext_in. exact Hset. }
  assert (Hr : remove_set attributes (ToSet ks)
               = SObject (List.filter (fun kv => negb (bool_decide (kv.1 ∈ ks)))
                            attributes)).
  { unfold remove_set. f_equal. apply filter_ext_in.
    intros kv. now rewrite Hset. }
  split; [unfold keep; rewrite Hk; now destruct (_ && _) |].
  split; [unfold remove; rewrite Hr; now destruct (_ && _) |].
  split; [exact Hk |]. split; [exact Hr |].
  split.
  { intros kv. rewrite elem_of_List_filter, bool_decide_eq_true. reflexivity. }
  split.
  { intros kv. rewrite elem_of_List_filter, negb_true_iff, bool_decide_eq_false.
    reflexivity. }
  split.
  { clear. induction attributes as [| kv l IH]; simpl; [constructor |].
    destruct (bool_decide _); [now apply sublist_skip | now apply sublist_cons]. }
  split.
  { clear. induction attributes as [| kv l IH]; simpl; [constructor |].
    destruct (negb _); [now apply sublist_skip | now apply sublist_cons]. }
  apply filter_split.
Qed.

(** *** merge *)

Lemma emplace_lookup kv m k :
  emplace kv m !! k
  = match m !! k with
    | Some v => Some v
    | None => if decide (k = kv.1) then Some kv.2 else None
    end.
Proof.
  unfold emplace. destruct (m !! kv.1) eqn:Hm.
  - destruct (m !! k) eqn:Hk; [reflexivity |].
    destruct (decide (k = kv.1)) as [-> | _]; [congruence | reflexivity].
  - destruct (decide (k = kv.1)) as [-> | Hne].
    + rewrite lookup_insert_eq, Hm. reflexivity.
    + rewrite lookup_insert_ne by congruence. now destruct (m !! k).
Qed.

Lemma rightValues_fold rs : forall m k,
  (fold_left (fun m kv => emplace kv m) rs m !! k = None <->
   m !! k = None /\ k ∉ keys rs) /\
  (forall v, fold_left (fun m kv => emplace kv m) rs m !! k = Some v ->
             m !! k = Some v \/ (k, v) ∈ rs).
Proof.
  induction rs as [| [k0 v0] rs IH]; intros m k; simpl.
  - split; [| auto]. split; [intros H; split; [exact H | apply not_elem_of_nil] | tauto].
  - destruct (IH (emplace (k0, v0) m) k) as (IHn & IHs).
    rewrite emplace_lookup in IHn, IHs. simpl in IHn, IHs. split.
    + rewrite IHn, not_elem_of_cons.
      destruct (m !! k); [intuition discriminate |].
      destruct (decide (k = k0)); [intuition discriminate | tauto].
    + intros v Hv. destruct (IHs v Hv) as [H | H].
      * destruct (m !! k); [auto |].
        destruct (decide (k = k0)) as [-> | _]; [| discriminate].
        injection H as <-. right. apply list_elem_of_here.
      * right. now apply list_elem_of_further.
Qed.

Lemma rightValues_of_spec rs k :
  (rightValues_of rs !! k = None <-> k ∉ keys rs) /\
  (forall v, rightValues_of rs !! k = Some v -> (k, v) ∈ rs).
Proof.
  destruct (rightValues_fold rs ∅ k) as (Hn & Hs). unfold rightValues_of. split.
  - rewrite Hn, lookup_empty. tauto.
  - intros v Hv. destruct (Hs v Hv) as [H | H]; [| exact H].
    rewrite lookup_empty in H. discriminate.
Qed.

Lemma left_loop_cons submerge mergeValues key value rest rv b :
  left_loop submerge mergeValues ((key, value) :: rest) rv b =
    match rv !! key with
    | None => left_loop submerge mergeValues rest rv (b ++ [(key, value)])
    | Some found =>
        if mergeValues && isObject value && isObject found then
          match submerge value found with
          | Some sub =>
              left_loop submerge mergeValues rest rv (b ++ [(key, sub)])
          | None => None
          end
        else
          left_loop submerge mergeValues rest (<[key := SNone]> rv)
                    (b ++ [(key, found)])
    end.
Proof. reflexivity. Qed.

Lemma keys_app (l1 l2 : list (string * Slice)) :
  keys (l1 ++ l2) = keys l1 ++ keys l2.
Proof. apply List.map_app. Qed.

Lemma elem_of_keys_cons k key (value : Slice) rest :
  k ∈ keys ((key, value) :: rest) <-> k = key \/ k ∈ keys rest.
Proof. unfold keys. simpl. apply elem_of_cons. Qed.

Lemma left_loop_plain submerge ls : forall rv b,
  NoDup (keys ls) ->
  exists rv',
    left_loop submerge false ls rv b = Some (rv', b ++ List.map (override rv) ls) /\
    forall k, rv' !! k = if decide (k ∈ keys ls) then cleared (rv !! k)
                         else rv !! k.
Proof.
  induction ls as [| [key value] rest IH]; intros rv b Hnd.
  - exists rv. simpl. rewrite app_nil_r. split; [reflexivity |].
    intros k. destruct (decide (k ∈ keys [])) as [Hin | _]; [| reflexivity].
    now apply elem_of_nil in Hin.
  - assert (Hnd' : (key ∉ keys rest) /\ NoDup (keys rest))
      by (apply NoDup_cons; exact Hnd).
    destruct Hnd' as (Hnin & Hnd').
    assert (Hrest : forall rv2, (forall k, k <> key -> rv2 !! k = rv !! k) ->
                    List.map (override rv2) rest = List.map (override rv) rest).
    { intros rv2 H2. apply map_ext_in. intros [k v] Hin. unfold override. simpl.
      rewrite H2; [reflexivity |]. intros ->. apply Hnin.
      apply list_elem_of_In in Hin. apply (list_elem_of_fmap_2 fst) in Hin.
      exact Hin. }
    rewrite left_loop_cons. cbn [andb].
    change (List.map (override rv) ((key, value) :: rest))
      with (override rv (key, value) :: List.map (override rv) rest).
    unfold override at 1. cbn [fst snd].
    destruct (rv !! key) as [found |] eqn:Hk; cbn [default].
    + destruct (IH (<[key := SNone]> rv) (b ++ [(key, found)]) Hnd')
        as (rv' & Hloop & Hrv').
      exists rv'. rewrite Hloop, <- app_assoc.
      rewrite Hrest by (intros k Hne; now apply lookup_insert_ne).
      split; [reflexivity |]. intros k. rewrite Hrv'.
      destruct (decide (k = key)) as [-> | Hne].
      * rewrite lookup_insert_eq, Hk.
        destruct (decide (key ∈ keys rest)); [contradiction |].
        destruct (decide (key ∈ keys ((key, value) :: rest))) as [_ | Hn];
          [reflexivity |].
        exfalso. apply Hn, elem_of_keys_cons. now left.
      * rewrite lookup_insert_ne by congruence.
        destruct (decide (k ∈ keys rest)) as [Hin | Hnin'];
          destruct (decide (k ∈ keys ((key, value) :: rest))) as [Hin2 | Hnin2];
          try reflexivity.
        -- exfalso. apply Hnin2, elem_of_keys_cons. now right.
        -- exfalso. apply elem_of_keys_cons in Hin2 as [? | ?]; auto.
    + destruct (IH rv (b ++ [(key, value)]) Hnd') as (rv' & Hloop & Hrv').
      exists rv'. rewrite Hloop, <- app_assoc.
      split; [reflexivity |]. intros k. rewrite Hrv'.
      destruct (decide (k = key)) as [-> | Hne].
      * rewrite Hk.
        destruct (decide (key ∈ keys rest)); [contradiction |].
        now destruct (decide (key ∈ keys ((key, value) :: rest))).
      * destruct (decide (k ∈ keys rest)) as [Hin | Hnin'];
          destruct (decide (k ∈ keys ((key, value) :: rest))) as [Hin2 | Hnin2];
          try reflexivity.
        -- exfalso. apply Hnin2, elem_of_keys_cons. now right.
        -- exfalso. apply elem_of_keys_cons in Hin2 as [? | ?]; auto.
Qed.

Variable iteration : gmap string Slice -> list (string * Slice).

(** An unordered map is gone through in some order, every entry once. *)
Hypothesis iteration_of_map : forall m, iteration m ≡ₚ map_to_list m.

Lemma elem_of_iteration m k v : (k, v) ∈ iteration m <-> m !! k = Some v.
Proof. rewrite iteration_of_map. apply elem_of_map_to_list. Qed.

Lemma NoDup_keys_iteration_filter (f : string * Slice -> bool) m :
  NoDup (keys (List.filter f (iteration m))).
Proof.
  assert (Hnd : NoDup (keys (iteration m))).
  { unfold keys. change (List.map fst (iteration m)) with (fst <$> iteration m).
    rewrite iteration_of_map. apply NoDup_fst_map_to_list. }
  revert Hnd. generalize (iteration m). clear.
  induction l as [| kv l IH]; simpl; [constructor |].
  intros Hnd. apply NoDup_cons in Hnd as (Hnin & Hnd).
  destruct (f kv); simpl; [| now apply IH].
  apply NoDup_cons. split; [| now apply IH].
  intros Hin. apply Hnin. clear - Hin.
  unfold keys in *. apply list_elem_of_In, in_map_iff in Hin as (x & Hx & Hin).
  apply filter_In in Hin as (Hin & _).
  apply list_elem_of_In, in_map_iff. eauto.
Qed.

(** X26.  Without [mergeValues], [merge] of two Objects gives every key of
    either side once, with the value of [right] where [right] has the key
    and the value of [left] otherwise, provided the keys of [left] are
    distinct and no value of [right] is the empty Slice.  Of several
    attributes of [right] with one key the first counts. *)
Theorem merge_right_wins (ls rs : list (string * Slice)) :
  NoDup (keys ls) ->
  Forall (fun kv => kv.2 <> SNone) rs ->
  exists adds,
    merge iteration (SObject ls) (SObject rs) false = Some (SObject adds) /\
    NoDup (keys adds) /\
    (forall k v,
       (k, v) ∈ adds <->
       rightValues_of rs !! k = Some v \/
       (rightValues_of rs !! k = None /\ (k, v) ∈ ls)) /\
    (forall k, rightValues_of rs !! k = None <-> k ∉ keys rs) /\
    (forall k v, rightValues_of rs !! k = Some v -> (k, v) ∈ rs).
Proof.
  intros Hnd Hsome.
  destruct (left_loop_plain (fun value found => merge iteration value found true)
              ls (rightValues_of rs) [] Hnd) as (rv' & Hloop & Hrv').
  assert (Hval : forall k v, rightValues_of rs !! k = Some v -> v <> SNone).
  { intros k v Hk. apply rightValues_of_spec in Hk.
    rewrite Forall_forall in Hsome. exact (Hsome _ Hk). }
  exists (List.map (override (rightValues_of rs)) ls ++
          List.filter (fun kv => negb (isNone kv.2)) (iteration rv')).
  split; [simpl; rewrite Hloop; reflexivity |].
  assert (Hleft_keys : keys (List.map (override (rightValues_of rs)) ls) = keys ls).
  { unfold keys. rewrite List.map_map. reflexivity. }
  assert (Htail : forall k v,
             (k, v) ∈ List.filter (fun kv => negb (isNone kv.2)) (iteration rv') <->
             rightValues_of rs !! k = Some v /\ (k ∉ keys ls)).
  { intros k v. rewrite elem_of_List_filter, elem_of_iteration, Hrv'. simpl.
    destruct (decide (k ∈ keys ls)) as [Hin | Hnin].
    - split.
      + intros (Hc & Hn). unfold cleared in Hc.
        destruct (rightValues_of rs !! k); [| discriminate].
        injection Hc as <-. discriminate.
      + intros (_ & Hn). contradiction.
    - split.
      + intros (Hk & _). auto.
      + intros (Hk & _). split; [exact Hk |].
        specialize (Hval _ _ Hk). now destruct v. }
  split; [| split; [| split]].
  - rewrite keys_app, Hleft_keys. apply NoDup_app.
    split; [exact Hnd |].
    split; [| apply NoDup_keys_iteration_filter].
    intros k Hin1 Hin2.
    apply list_elem_of_In, in_map_iff in Hin2 as ([k' v] & Hk & Hin2).
    simpl in Hk. subst k'. apply list_elem_of_In, Htail in Hin2 as (_ & Hn).
    contradiction.
  - intros k v. rewrite elem_of_app, Htail. split.
    + intros [Hin | (Hk & _)]; [| left; exact Hk].
      apply list_elem_of_In, in_map_iff in Hin as ([k0 v0] & Heq & Hin).
      unfold override in Heq. simpl in Heq. injection Heq as -> <-.
      apply list_elem_of_In in Hin.
      destruct (rightValues_of rs !! k) as [r |] eqn:Hr; simpl; auto.
    + intros [Hk | (Hk & Hin)].
      * destruct (decide (k ∈ keys ls)) as [Hin | Hnin]; [left | right; auto].
        apply list_elem_of_In, in_map_iff in Hin as ([k0 v0] & Heq & Hin).
        simpl in Heq. subst k0.
        apply list_elem_of_In, in_map_iff. exists (k, v0).
        unfold override. simpl. rewrite Hk. auto.
      * left. apply list_elem_of_In, in_map_iff. exists (k, v).
        unfold override. simpl. rewrite Hk. split; [reflexivity |].
        now apply list_elem_of_In.
  - intros k. apply rightValues_of_spec.
  - intros k v. apply rightValues_of_spec.
Qed.

Lemma Slice_nested_ind (P : Slice -> Prop) :
  P SNone -> (forall v, P (SValue v)) ->
  (forall members, Forall P members -> P (SArray members)) ->
  (forall attributes, Forall (fun kv => P kv.2) attributes ->
                      P (SObject attributes)) ->
  forall s, P s.
Proof.
  intros HN HV HA HO. fix IH 1. intros [| v | members | attributes].
  - exact HN.
  - apply HV.
  - apply HA. revert members. fix IHm 1. intros [| m members].
    + constructor.
    + constructor; [apply IH | apply IHm].
  - apply HO. revert attributes. fix IHa 1. intros [| [k v] attributes].
    + constructor.
    + constructor; [apply IH | apply IHa].
Qed.

Lemma left_loop_keeps submerge mergeValues key ls : forall rv b,
  returns_on submerge ls -> key ∉ keys ls ->
  exists rv' b',
    left_loop submerge mergeValues ls rv b = Some (rv', b') /\
    (forall x, x ∈ b -> x ∈ b') /\
    rv' !! key = rv !! key.
Proof.
  induction ls as [| [k v] rest IH]; intros rv b Hret Hnin.
  - exists rv, b. auto.
  - apply Forall_cons in Hret as (Hv & Hret). simpl in Hv.
    assert (Hne : key <> k /\ (key ∉ keys rest)).
    { split; intros H; apply Hnin, elem_of_keys_cons; auto. }
    destruct Hne as (Hne & Hnin').
    rewrite left_loop_cons.
    assert (Hstep : forall rv2 b2,
               rv2 !! key = rv !! key -> (forall x, x ∈ b -> x ∈ b2) ->
               exists rv' b',
                 left_loop submerge mergeValues rest rv2 b2 = Some (rv', b') /\
                 (forall x, x ∈ b -> x ∈ b') /\ rv' !! key = rv !! key).
    { intros rv2 b2 Hrv2 Hb2.
      destruct (IH rv2 b2 Hret Hnin') as (rv' & b' & Hl & Hb' & Hk).
      exists rv', b'. split; [exact Hl |]. split; [auto | congruence]. }
    destruct (rv !! k) as [found |] eqn:Hk.
    + destruct (mergeValues && isObject v && isObject found) eqn:Hm.
      * apply andb_true_iff in Hm as (Hm & Hof).
        apply andb_true_iff in Hm as (_ & Hov).
        destruct (Hv found Hov Hof) as (sub & ->).
        apply Hstep; [reflexivity |]. intros x Hx. apply elem_of_app. auto.
      * apply Hstep; [now apply lookup_insert_ne |].
        intros x Hx. apply elem_of_app. auto.
    + apply Hstep; [reflexivity |]. intros x Hx. apply elem_of_app. auto.
Qed.

Lemma left_loop_merged submerge key a b0 ls : forall rv b,
  returns_on submerge ls -> NoDup (keys ls) ->
  (key, SObject a) ∈ ls -> rv !! key = Some (SObject b0) ->
  exists rv' b' sub,
    left_loop submerge true ls rv b = Some (rv', b') /\
    submerge (SObject a) (SObject b0) = Some sub /\
    (key, sub) ∈ b' /\
    rv' !! key = Some (SObject b0).
Proof.
  induction ls as [| [k v] rest IH]; intros rv b Hret Hnd Hin Hrv.
  - now apply elem_of_nil in Hin.
  - pose proof Hret as Hret0.
    apply Forall_cons in Hret as (Hv & Hret). simpl in Hv.
    assert (Hnd' : (k ∉ keys rest) /\ NoDup (keys rest))
      by (apply NoDup_cons; exact Hnd).
    destruct Hnd' as (Hnin & Hnd').
    rewrite left_loop_cons.
    apply elem_of_cons in Hin as [Heq | Hin].
    + injection Heq as <- <-. rewrite Hrv. cbn [andb isObject].
      destruct (Hv (SObject b0) eq_refl eq_refl) as (sub & Hsub).
      simpl in Hsub. rewrite Hsub.
      destruct (left_loop_keeps submerge true key rest rv (b ++ [(key, sub)])
                  Hret Hnin) as (rv' & b' & Hl & Hb' & Hk).
      exists rv', b', sub. split; [exact Hl |]. split; [reflexivity |].
      split; [apply Hb', elem_of_app; right; apply list_elem_of_here |].
      congruence.
    + assert (Hne : key <> k).
      { intros ->. apply Hnin.
        apply (list_elem_of_fmap_2 fst) in Hin. exact Hin. }
      assert (Hstep : forall rv2 b2,
                 rv2 !! key = Some (SObject b0) ->
                 exists rv' b' sub,
                   left_loop submerge true rest rv2 b2 = Some (rv', b') /\
                   submerge (SObject a) (SObject b0) = Some sub /\
                   (key, sub) ∈ b' /\ rv' !! key = Some (SObject b0)).
      { intros rv2 b2 Hrv2. exact (IH rv2 b2 Hret Hnd' Hin Hrv2). }
      destruct (rv !! k) as [found |] eqn:Hk.
      * destruct (true && isObject v && isObject found) eqn:Hm.
        -- apply andb_true_iff in Hm as (Hm & Hof).
           apply andb_true_iff in Hm as (_ & Hov).
           destruct (Hv found Hov Hof) as (sub & ->).
           apply Hstep. exact Hrv.
        -- apply Hstep. now rewrite lookup_insert_ne.
      * apply Hstep. exact Hrv.
Qed.

Lemma left_loop_returns submerge mergeValues ls : forall rv b,
  returns_on submerge ls ->
  is_Some (left_loop submerge mergeValues ls rv b).
Proof.
  induction ls as [| [k v] rest IH]; intros rv b Hret; [simpl; eauto |].
  apply Forall_cons in Hret as (Hv & Hret). simpl in Hv.
  rewrite left_loop_cons.
  destruct (rv !! k) as [found |]; [| now apply IH].
  destruct (mergeValues && isObject v && isObject found) eqn:Hm;
    [| now apply IH].
  apply andb_true_iff in Hm as (Hm & Hof).
  apply andb_true_iff in Hm as (_ & Hov).
  destruct (Hv found Hov Hof) as (sub & ->). now apply IH.
Qed.

Lemma merge_returns left : forall right mergeValues,
  isObject left = true -> isObject right = true ->
  is_Some (merge iteration left right mergeValues).
Proof.
  induction left as [| v | members _ | ls IH] using Slice_nested_ind;
    intros right mergeValues Hl Hr; try discriminate.
  destruct right as [| | | rs]; try discriminate.
  simpl.
  destruct (left_loop_returns (fun value found => merge iteration value found true)
              mergeValues ls (rightValues_of rs) []) as ([rv' b'] & ->).
  - unfold returns_on. eapply Forall_impl; [exact IH |].
    intros kv Hkv found Hov Hof. now apply Hkv.
  - eauto.
Qed.

(** X27.  With [mergeValues], [merge] adds a key twice whose values are
    Objects on both sides: once with the merge of the two values, in the
    loop over [left], and once more with the value of [right], in the loop
    over what is left of [right], because the merged value is not cleared
    from the map. *)
Theorem merge_of_objects_adds_key_twice (ls rs : list (string * Slice))
    (key : string) (a b0 : list (string * Slice)) :
  NoDup (keys ls) ->
  (key, SObject a) ∈ ls ->
  rightValues_of rs !! key = Some (SObject b0) ->
  exists b remaining sub,
    merge iteration (SObject ls) (SObject rs) true
      = Some (SObject (b ++ remaining)) /\
    merge iteration (SObject a) (SObject b0) true = Some sub /\
    (key, sub) ∈ b /\
    (key, SObject b0) ∈ remaining /\
    ~ NoDup (keys (b ++ remaining)).
Proof.
  intros Hnd Hin Hr.
  destruct (left_loop_merged
              (fun value found => merge iteration value found true)
              key a b0 ls (rightValues_of rs) [])
    as (rv' & b' & sub & Hloop & Hsub & Hb' & Hrv'); try assumption.
  { unfold returns_on. apply Forall_forall. intros kv _ found Hov Hof.
    now apply merge_returns. }
  exists b', (List.filter (fun kv => negb (isNone kv.2)) (iteration rv')), sub.
  split; [simpl; rewrite Hloop; reflexivity |].
  split; [exact Hsub |]. split; [exact Hb' |].
  assert (Hrem : (key, SObject b0)
                 ∈ List.filter (fun kv => negb (isNone kv.2)) (iteration rv')).
  { apply elem_of_List_filter. split; [| reflexivity].
    now apply elem_of_iteration. }
  split; [exact Hrem |].
  rewrite keys_app. intros Hnd2. apply NoDup_app in Hnd2 as (_ & Hdisj & _).
  apply (Hdisj key).
  - apply (list_elem_of_fmap_2 fst) in Hb'. exact Hb'.
  - apply (list_elem_of_fmap_2 fst) in Hrem. exact Hrem.
Qed.

End CollectionFacts.

Section CollectionExamples.

Import Collection.

Local Open Scope Z_scope.

Lemma merge_right_wins_witness :
  exists adds,
    merge map_to_list
          (SObject [("a"%string, SValue 1); ("b"%string, SValue 2)])
          (SObject [("b"%string, SValue 3); ("c"%string, SValue 4)]) false
      = Some (SObject adds) /\
    NoDup (keys adds) /\
    (forall k v,
       (k, v) ∈ adds <->
       rightValues_of [("b"%string, SValue 3); ("c"%string, SValue 4)] !! k
         = Some v \/
       (rightValues_of [("b"%string, SValue 3); ("c"%string, SValue 4)] !! k
          = None /\
        (k, v) ∈ [("a"%string, SValue 1); ("b"%string, SValue 2)])) /\
    (forall k,
       rightValues_of [("b"%string, SValue 3); ("c"%string, SValue 4)] !! k = None
       <-> k ∉ keys [("b"%string, SValue 3); ("c"%string, SValue 4)]) /\
    (forall k v,
       rightValues_of [("b"%string, SValue 3); ("c"%string, SValue 4)] !! k
         = Some v ->
       (k, v) ∈ [("b"%string, SValue 3); ("c"%string, SValue 4)]).
Proof.
  apply (merge_right_wins map_to_list (fun m => reflexivity _)
           [("a"%string, SValue 1); ("b"%string, SValue 2)]
           [("b"%string, SValue 3); ("c"%string, SValue 4)]).
  - refine (bool_decide_unpack _ _). vm_compute. exact I.
  - repeat constructor; discriminate.
Defined.

Lemma merge_of_objects_adds_key_twice_witness :
  exists b remaining sub,
    merge map_to_list
          (SObject [("o"%string, SObject [("x"%string, SValue 1)])])
          (SObject [("o"%string, SObject [("y"%string, SValue 2)])]) true
      = Some (SObject (b ++ remaining)) /\
    merge map_to_list (SObject [("x"%string, SValue 1)])
          (SObject [("y"%string, SValue 2)]) true = Some sub /\
    (("o"%string, sub) ∈ b) /\
    (("o"%string, SObject [("y"%string, SValue 2)]) ∈ remaining) /\
    ~ NoDup (keys (b ++ remaining)).
Proof.
  apply (merge_of_objects_adds_key_twice map_to_list (fun m => reflexivity _)
           [("o"%string, SObject [("x"%string, SValue 1)])]
           [("o"%string, SObject [("y"%string, SValue 2)])]
           "o"%string [("x"%string, SValue 1)] [("y"%string, SValue 2)]).
  - refine (bool_decide_unpack _ _). vm_compute. exact I.
  - apply list_elem_of_here.
  - vm_compute. reflexivity.
Defined.

End CollectionExamples.
